(** * Stupid Simple JSON (namespace ssj): lexer, parser, element tree, serializer

    A shallow embedding of src/src/JSON.cpp, src/src/JSONElement.h and
    src/JSON/JSON.h, and the properties of the specification settled on it.

    Conventions of the embedding.
    - A C++ [char] is an [ascii], a [std::string] a [string]; positions and
      lengths ([size_t], [unsigned int], [int]) are natural numbers: buffers
      and tokens are taken to be shorter than 2^31 characters, so that no
      position wraps.
    - A [std::vector<std::string>::iterator] into the token vector, together
      with the vector's [end()], is the list of the tokens from the iterator
      on: [*it] is the head, [++it] the tail, [it == end] the empty list.
    - A C++ call returns, throws a [JSON::Error], lets an exception of the
      standard library escape, or has no defined behaviour (it dereferences
      [end()] or a null [shared_ptr]): type [outcome].
    - [long long] is a [Z] within [LLONG_MIN .. LLONG_MAX], and [std::stoll]
      is written out. A conversion of the library returns its value or throws
      one of its two exceptions: type [conversion].
    - [long double] and the three library routines that touch it
      ([std::stold], the fixed notation of [std::ostringstream],
      [std::to_string]) are the variables of the section [SSJ]: what is proved
      there holds for every floating-point library. Concrete documents with
      decimal numbers are run with a reference library of exact decimals.
    - The tree is an inductive type; the weak parent pointer of an element
      ([m_pParent]) is the containment of the tree. *)

From Stdlib Require Import String Ascii List ZArith NArith Bool Arith Lia.
From Stdlib Require Import DecimalString DecimalZ DecimalN DecimalPos DecimalFacts.
Import ListNotations.

Set Warnings "-register-all".

Local Open Scope list_scope.
Local Open Scope string_scope.

(** ** Characters and strings of the C++ library *)

(** The double quote and the backslash, by code. *)
Definition dquote : ascii := "034"%char.
Definition backslash : ascii := "092"%char.

(** [str.substr(pos, n)]. *)
Definition substr (str : string) (pos n : nat) : string := substring pos n str.

(** [str.find(c, offset)]; [None] is [string::npos]. *)
Fixpoint string_find (c : ascii) (str : string) (offset : nat) : option nat :=
  match str with
  | EmptyString => None
  | String a rest =>
      match offset with
      | O => if Ascii.eqb a c then Some O else option_map S (string_find c rest O)
      | S k => option_map S (string_find c rest k)
      end
  end.

(** [str.find_last_of(c)]. *)
Fixpoint find_last_of (c : ascii) (str : string) : option nat :=
  match str with
  | EmptyString => None
  | String a rest =>
      match find_last_of c rest with
      | Some p => Some (S p)
      | None => if Ascii.eqb a c then Some O else None
      end
  end.

(** [str.front()] and [str.back()], on a string known to be non-empty. *)
Definition front (str : string) : option ascii := get 0 str.
Definition back (str : string) : option ascii := get (String.length str - 1) str.

Definition is_char (c : ascii) (o : option ascii) : bool :=
  match o with Some a => Ascii.eqb a c | None => false end.

(** The inner loop [for (c2 : chars) if (c1 == c2) ...]. *)
Fixpoint string_mem (c : ascii) (chars : string) : bool :=
  match chars with
  | EmptyString => false
  | String a rest => Ascii.eqb c a || string_mem c rest
  end.

Fixpoint string_forallb (p : ascii -> bool) (s : string) : bool :=
  match s with
  | EmptyString => true
  | String a rest => p a && string_forallb p rest
  end.

(** [std::toupper] in the C locale: the letters a to z move to A to Z, every
    other character is left as it is. *)
Definition toupper (c : ascii) : ascii :=
  let n := nat_of_ascii c in
  if ((97 <=? n) && (n <=? 122))%nat then ascii_of_nat (n - 32) else c.

(** Concrete documents are written with an apostrophe for each double quote. *)
Fixpoint json_text (s : string) : string :=
  match s with
  | EmptyString => EmptyString
  | String a rest => String (if Ascii.eqb a "'"%char then dquote else a) (json_text rest)
  end.

(** ** Errors and outcomes (JSON.h, lines 34-57) *)

Inductive Error : Type :=
| E_NO_ERROR
| E_INVALID_JSON
| E_LEXING_ERR_INVALID_VALUE
| E_LEXING_ERR_INVALID_STRING
| E_INVALID_JSON_KEY_STRING
| E_INVALID_JSON_KEY_COLON
| E_PARSE_ERR_INVALID_STRING
| E_PARSE_ERR_UNKNOWN_ELEMENT
| E_PARSE_ERR_INVALID_NUMBER
| E_PARSE_ERROR_INVALID_LITERAL_CASE
| E_PARSE_ERR_INVALID_OBJECT
| E_PARSE_ERR_OBJECT_OPENING_BRACKET
| E_PARSE_ERR_OBJECT_CLOSING_BRACKET
| E_PARSE_ERR_INVALID_ARRAY
| E_PARSE_ERR_ARRAY_OPENING_BRACKET
| E_PARSE_ERR_ARRAY_CLOSING_BRACKET.

Definition Error_code (e : Error) : Z :=
  match e with
  | E_NO_ERROR => 0
  | E_INVALID_JSON => 1001
  | E_LEXING_ERR_INVALID_VALUE => 1101
  | E_LEXING_ERR_INVALID_STRING => 1102
  | E_INVALID_JSON_KEY_STRING => 1201
  | E_INVALID_JSON_KEY_COLON => 1202
  | E_PARSE_ERR_INVALID_STRING => 1301
  | E_PARSE_ERR_UNKNOWN_ELEMENT => 1302
  | E_PARSE_ERR_INVALID_NUMBER => 1303
  | E_PARSE_ERROR_INVALID_LITERAL_CASE => 1304
  | E_PARSE_ERR_INVALID_OBJECT => 1401
  | E_PARSE_ERR_OBJECT_OPENING_BRACKET => 1402
  | E_PARSE_ERR_OBJECT_CLOSING_BRACKET => 1403
  | E_PARSE_ERR_INVALID_ARRAY => 1501
  | E_PARSE_ERR_ARRAY_OPENING_BRACKET => 1502
  | E_PARSE_ERR_ARRAY_CLOSING_BRACKET => 1503
  end.

(** [JSON::ErrorToSring] (JSON.cpp, lines 432-460), on the values of the
    enumeration; the text after the switch is what any other value gets. *)
Definition ErrorToSring (e : Error) : string :=
  match e with
  | E_NO_ERROR => "No error"
  | E_INVALID_JSON => "Invalid JSON file"
  | E_LEXING_ERR_INVALID_VALUE => "Lexing error: Failed to parse JSON value"
  | E_LEXING_ERR_INVALID_STRING => "Lexing error: Failed to parse JSON string literal"
  | E_INVALID_JSON_KEY_STRING => "Parsing error: Invalid key found (missing double quotes)"
  | E_INVALID_JSON_KEY_COLON => "Parsing error: Invalid key found (missing colon)"
  | E_PARSE_ERR_INVALID_STRING =>
      "Parsing error: Invalid string found (missing double quotes)"
  | E_PARSE_ERR_UNKNOWN_ELEMENT => "Parsing error: Failed to recognize JSON element"
  | E_PARSE_ERR_INVALID_NUMBER => "Parsing error: Failed to convert number from string"
  | E_PARSE_ERROR_INVALID_LITERAL_CASE =>
      "Parsing error: Invalid case in JSON literal name"
  | E_PARSE_ERR_INVALID_OBJECT => "Parsing error: Invalid JSON object element"
  | E_PARSE_ERR_OBJECT_OPENING_BRACKET =>
      "Parsing error: Invalid JSON object element (missing opening bracket '{')"
  | E_PARSE_ERR_OBJECT_CLOSING_BRACKET =>
      "Parsing error: Invalid JSON object element (missing closing bracket '}')"
  | E_PARSE_ERR_INVALID_ARRAY => "Parsing error: Invalid JSON array element"
  | E_PARSE_ERR_ARRAY_OPENING_BRACKET =>
      "Parsing error: Invalid JSON array element (missing opening bracket '[')"
  | E_PARSE_ERR_ARRAY_CLOSING_BRACKET =>
      "Parsing error: Invalid JSON object element (missing closing bracket ']')"
  end.

Definition ErrorToSring_default : string := "Unknown error".

(** The exceptions of [std::stoll] and [std::stold]. *)
Inductive StdException : Type :=
| std_invalid_argument
| std_out_of_range.

(** What a call does. [OutOfFuel] is the one outcome that is not the
    program's: a loop of the embedding ran out of its iteration budget. The
    entry points supply a budget with which it never arises (lemmas
    [Lex_total], [Parse_total] and [JSON_try_total]). *)
Inductive outcome (A : Type) : Type :=
| Ret (a : A)
| Throw (e : Error)
| ThrowStd (x : StdException)
| Undefined
| OutOfFuel.

Arguments Ret {A} a.
Arguments Throw {A} e.
Arguments ThrowStd {A} x.
Arguments Undefined {A}.
Arguments OutOfFuel {A}.

Definition bind {A B : Type} (m : outcome A) (k : A -> outcome B) : outcome B :=
  match m with
  | Ret a => k a
  | Throw e => Throw e
  | ThrowStd x => ThrowStd x
  | Undefined => Undefined
  | OutOfFuel => OutOfFuel
  end.

Notation "x <- m ;; k" := (bind m (fun x => k))
  (at level 61, m at next level, right associativity).
Notation "' pat <- m ;; k" := (bind m (fun x => match x with pat => k end))
  (at level 61, pat pattern, m at next level, right associativity).

(** ** The lexer (JSON.cpp, lines 56-116 and 377-412) *)

(** The case labels of the switch in [Lex]. *)
Definition is_whitespace (c : ascii) : bool :=
  Ascii.eqb c " "%char || Ascii.eqb c "013"%char || Ascii.eqb c "010"%char
  || Ascii.eqb c "009"%char.

Definition is_structural (c : ascii) : bool :=
  Ascii.eqb c "{"%char || Ascii.eqb c "}"%char || Ascii.eqb c "["%char
  || Ascii.eqb c "]"%char || Ascii.eqb c ":"%char || Ascii.eqb c ","%char.

(** [closingChars] of [FindClosingCharacter]: the six characters
    [{ } [ ] ,] and space, then CR, LF and TAB. *)
Definition closingChars : string :=
  "{}[], " ++ String "013"%char (String "010"%char (String "009"%char EmptyString)).

(** The loop of [FindClosingCharacter]: [n] iterations are left, from [pos]. *)
Fixpoint FindClosingCharacter_loop (n : nat) (str : string) (pos : nat) : option nat :=
  match n with
  | O => None
  | S n' =>
      match get pos str with
      | None => None
      | Some c =>
          if string_mem c closingChars then Some pos
          else FindClosingCharacter_loop n' str (S pos)
      end
  end.

Definition FindClosingCharacter (str : string) (offset : nat) : option nat :=
  FindClosingCharacter_loop (String.length str - offset) str offset.

(** The while loop of [FindClosingQuotationMark]. It is entered with
    [offset > 0] only ([Lex] passes [pos + 1]), so [endPos - 1] is a position
    of the string. Each round moves [offset] past one quote: [n] bounds the
    rounds. *)
Fixpoint FindClosingQuotationMark_loop (n : nat) (str : string) (offset : nat)
  : option nat :=
  match n with
  | O => None
  | S n' =>
      match string_find dquote str offset with
      | None => None
      | Some endPos =>
          if negb (is_char backslash (get (endPos - 1) str)) then Some endPos
          else FindClosingQuotationMark_loop n' str (endPos + 1)
      end
  end.

Definition FindClosingQuotationMark (str : string) (offset : nat) : option nat :=
  FindClosingQuotationMark_loop (String.length str) str offset.

(** The for loop of [Lex]: the state is [pos] and the vector [tokens]. *)
Fixpoint Lex_loop (fuel : nat) (str : string) (pos : nat) (tokens : list string)
  : outcome (list string) :=
  match get pos str with
  | None => Ret tokens
  | Some c =>
      match fuel with
      | O => OutOfFuel
      | S fuel' =>
          if is_whitespace c then Lex_loop fuel' str (S pos) tokens
          else if is_structural c then
            Lex_loop fuel' str (S pos) (tokens ++ [substr str pos 1])
          else if Ascii.eqb c dquote then
            match FindClosingQuotationMark str (pos + 1) with
            | Some endPos =>
                Lex_loop fuel' str (S endPos)
                  (tokens ++ [substr str pos (endPos - pos + 1)])
            | None => Throw E_LEXING_ERR_INVALID_STRING
            end
          else
            match FindClosingCharacter str pos with
            | Some endPos =>
                Lex_loop fuel' str (S (endPos - 1))
                  (tokens ++ [substr str pos (endPos - pos)])
            | None => Throw E_LEXING_ERR_INVALID_VALUE
            end
      end
  end.

Definition Lex (str : string) : outcome (list string) :=
  Lex_loop (String.length str) str 0 [].


(** ** Integers of the C++ library *)

(** What a conversion of [<string>] does: it returns the value or throws. *)
Inductive conversion (A : Type) : Type :=
| Converted (a : A)
| Fails (x : StdException).

Arguments Converted {A} a.
Arguments Fails {A} x.

Definition LLONG_MAX : Z := 9223372036854775807.
Definition LLONG_MIN : Z := -9223372036854775808.

(** [isspace] in the C locale: space and the codes 9 to 13. *)
Definition isspace (c : ascii) : bool :=
  let n := nat_of_ascii c in
  ((n =? 32) || ((9 <=? n) && (n <=? 13)))%nat.

Definition isdigit (c : ascii) : bool :=
  let n := nat_of_ascii c in
  ((48 <=? n) && (n <=? 57))%nat.

Definition digit_value (c : ascii) : N := (N_of_ascii c - 48)%N.

Fixpoint skip_space (s : string) : string :=
  match s with
  | EmptyString => EmptyString
  | String c rest => if isspace c then skip_space rest else s
  end.

(** The value of the longest prefix of decimal digits, most significant
    digit first, continuing from [acc]. *)
Fixpoint digits_value (s : string) (acc : N) : N :=
  match s with
  | EmptyString => acc
  | String c rest =>
      if isdigit c then digits_value rest (10 * acc + digit_value c)%N else acc
  end.

Definition starts_with_digit (s : string) : bool :=
  match s with
  | EmptyString => false
  | String c _ => isdigit c
  end.

(** An optional sign: whether it is a minus, and what follows it. *)
Definition read_sign (s : string) : bool * string :=
  match s with
  | String c rest =>
      if Ascii.eqb c "-"%char then (true, rest)
      else if Ascii.eqb c "+"%char then (false, rest)
      else (false, s)
  | EmptyString => (false, s)
  end.

(** [std::stoll(str)], that is [strtoll] in base 10: white space is skipped,
    then an optional sign and the longest run of digits are read; what
    follows is ignored. No digit: [std::invalid_argument]. A value outside
    [long long]: [std::out_of_range]. *)
Definition stoll (str : string) : conversion Z :=
  let '(neg, s2) := read_sign (skip_space str) in
  if starts_with_digit s2 then
    let v := Z.of_N (digits_value s2 0) in
    let z := if neg then (- v)%Z else v in
    if ((LLONG_MIN <=? z) && (z <=? LLONG_MAX))%Z then Converted z
    else Fails std_out_of_range
  else Fails std_invalid_argument.

(** [std::to_string(long long)]: the decimal digits, after a minus sign for
    a negative value. *)
Definition to_string_ll (z : Z) : string :=
  DecimalString.NilZero.string_of_int (Z.to_int z).

(** ** A reference floating-point library: exact decimals

    Documents with decimal numbers are run with this implementation of the
    three floating-point routines. A value is kept as a sign, a mantissa and
    a power of ten, so a numeral is converted with no rounding, and the fixed
    notation rounds to the nearest, ties to even. It is no model of the
    binary rounding of a [long double]: what depends on the library is
    stated for every library, in the section [SSJ]. *)

Record Dec : Type := mkDec {
  dec_neg : bool;
  dec_mant : N;
  dec_exp : Z
}.

(** The longest prefix of digits, and what follows it. *)
Fixpoint take_digits (s : string) : string * string :=
  match s with
  | EmptyString => (EmptyString, EmptyString)
  | String c rest =>
      if isdigit c then
        let '(ds, r) := take_digits rest in (String c ds, r)
      else (EmptyString, s)
  end.

(** The exponent part: the letter e or E, an optional sign and digits;
    without digits there is no exponent. *)
Definition read_exponent (s : string) : Z :=
  match s with
  | String c rest =>
      if Ascii.eqb c "e"%char || Ascii.eqb c "E"%char then
        let '(eneg, r) := read_sign rest in
        if starts_with_digit r then
          let v := Z.of_N (digits_value r 0) in
          if eneg then (- v)%Z else v
        else 0%Z
      else 0%Z
  | EmptyString => 0%Z
  end.

(** [std::stold] on decimal numerals: white space, an optional sign, digits
    with an optional point among them, an optional exponent; what follows is
    ignored. No digit: [std::invalid_argument]. *)
Definition dec_stold (str : string) : conversion Dec :=
  let '(neg, s2) := read_sign (skip_space str) in
  let '(ip, s3) := take_digits s2 in
  let '(fp, s4) :=
    match s3 with
    | String c rest =>
        if Ascii.eqb c "."%char then take_digits rest else (EmptyString, s3)
    | EmptyString => (EmptyString, s3)
    end in
  if (String.length ip + String.length fp =? 0)%nat
  then Fails std_invalid_argument
  else
    Converted (mkDec neg (digits_value (ip ++ fp) 0)
           (read_exponent s4 - Z.of_nat (String.length fp))%Z).

(** [m / 10^k] rounded to the nearest natural number, ties to even. *)
Definition div_round_even (m : N) (k : N) : N :=
  let q := (m / 10 ^ k)%N in
  let r := (m mod 10 ^ k)%N in
  match (2 * r ?= 10 ^ k)%N with
  | Lt => q
  | Gt => (q + 1)%N
  | Eq => if N.even q then q else (q + 1)%N
  end.

Definition string_of_N (n : N) : string :=
  DecimalString.NilZero.string_of_uint (N.to_uint n).

(** The [w] low decimal digits of [n], the most significant first. *)
Fixpoint low_digits (w : nat) (n : N) : string :=
  match w with
  | O => EmptyString
  | S w' => low_digits w' (n / 10) ++ String (ascii_of_N (48 + n mod 10)) EmptyString
  end.

(** The sign, then the digits of [scaled] cut [w] places from the right by
    a point. *)
Definition fixed_text (neg : bool) (scaled : N) (w : nat) : string :=
  (if neg then "-" else "")
  ++ string_of_N (scaled / 10 ^ N.of_nat w)
  ++ String "."%char (low_digits w scaled).

(** The magnitude of [d] scaled by [10^p] and rounded to a natural number. *)
Definition dec_scaled (p : Z) (d : Dec) : N :=
  let shift := (dec_exp d + p)%Z in
  if (0 <=? shift)%Z then (dec_mant d * 10 ^ Z.to_N shift)%N
  else div_round_even (dec_mant d) (Z.to_N (- shift)).

(** [out.precision(p); out << std::fixed << d], for [0 < p]: the sign, the
    integer part, a point and [p] digits. *)
Definition dec_fixed (p : Z) (d : Dec) : string :=
  fixed_text (dec_neg d) (dec_scaled p d) (Z.to_nat p).

(** [std::to_string(long double)]: the format of [printf] with six digits
    after the point. *)
Definition dec_to_string (d : Dec) : string := dec_fixed 6 d.

(** ** The parser and the element tree, over the floating-point library *)

Section SSJ.

(** [long double], [std::stold], [out.precision(p); out << std::fixed << d]
    and [std::to_string(long double)]. *)
Variable LD : Type.
Variable stold : string -> conversion LD.
Variable fixed_ld : Z -> LD -> string.
Variable to_string_ld : LD -> string.

(** *** JSONElement.h *)

(** The number of a [NumberElement]: [m_Type] with the fields that it makes
    meaningful ([m_Integer]; [m_Decimal] and [m_DecimalPrecision]). *)
Inductive Number : Type :=
| TYPE_UNDEFINED
| TYPE_INTEGER (m_Integer : Z)
| TYPE_DECIMAL (m_Decimal : LD) (m_DecimalPrecision : Z).

(** The six subclasses of [JSONElement]; the first argument is [m_Key]. *)
Inductive Element : Type :=
| ObjectElement (m_Key : string) (m_Children : list Element)
| ArrayElement (m_Key : string) (m_Elements : list Element)
| StringElement (m_Key : string) (m_Value : string)
| NumberElement (m_Key : string) (m_Number : Number)
| BoolElement (m_Key : string) (m_bValue : bool)
| NullElement (m_Key : string).

Definition m_Key (e : Element) : string :=
  match e with
  | ObjectElement k _ | ArrayElement k _ | StringElement k _
  | NumberElement k _ | BoolElement k _ | NullElement k => k
  end.

Definition IsObject (e : Element) : bool :=
  match e with ObjectElement _ _ => true | _ => false end.

Definition IsArray (e : Element) : bool :=
  match e with ArrayElement _ _ => true | _ => false end.

Definition FormatKey (key : string) : string :=
  if (0 <? String.length key)%nat
  then String dquote key ++ String dquote ":"
  else "".

(** The loop [out << (bFirst ? empty : comma) << child->ToString()] over the
    texts of the children. *)
Fixpoint join_children (bFirst : bool) (texts : list string) : string :=
  match texts with
  | [] => ""
  | t :: rest => (if bFirst then "" else ",") ++ t ++ join_children false rest
  end.

Definition Number_ToString (n : Number) : string :=
  match n with
  | TYPE_INTEGER i => to_string_ll i
  | TYPE_DECIMAL d p => if (0 <? p)%Z then fixed_ld p d else to_string_ld d
  | TYPE_UNDEFINED => ""
  end.

Fixpoint ToString (e : Element) : string :=
  match e with
  | ObjectElement key cs =>
      FormatKey key ++ "{" ++ join_children true (map ToString cs) ++ "}"
  | ArrayElement key es =>
      FormatKey key ++ "[" ++ join_children true (map ToString es) ++ "]"
  | StringElement key v => FormatKey key ++ String dquote v ++ String dquote ""
  | NumberElement key n => FormatKey key ++ Number_ToString n
  | BoolElement key b => FormatKey key ++ (if b then "true" else "false")
  | NullElement key => FormatKey key ++ "null"
  end.

(** *** JSON.cpp: helpers (lines 339-375 and 414-430) *)

Definition validChars : string := "1234567890+-.eE".

Definition IsValidNumber (tok : string) : bool :=
  string_forallb (fun c1 => string_mem c1 validChars) tok.

Definition IsValidDecimal (tok : string) : bool :=
  string_mem "."%char tok.

Definition CharCompare (c1 c2 : ascii) : bool :=
  Ascii.eqb c1 c2 || Ascii.eqb (toupper c1) (toupper c2).

(** [std::equal(s1.begin(), s1.end(), s2.begin(), CharCompare)], called on
    strings of one size. *)
Fixpoint std_equal (s1 s2 : string) : bool :=
  match s1, s2 with
  | EmptyString, _ => true
  | String a r1, String b r2 => CharCompare a b && std_equal r1 r2
  | String _ _, EmptyString => false
  end.

Definition EqualIgnoreCase (s1 s2 : string) : bool :=
  (String.length s1 =? String.length s2)%nat && std_equal s1 s2.

(** The test of [ParseStringElement] and [ParseKey] on a token. *)
Definition quoted (tok : string) : bool :=
  (2 <? String.length tok)%nat && is_char dquote (front tok) && is_char dquote (back tok).

(** *** JSON.cpp: the productions (lines 118-337) *)

(** The productions dereference [it] at once: on [it == end] they have no
    defined behaviour. [Parse] calls them on a token. *)
Definition ParseStringElement (it : list string) (key : string)
  : outcome (list string * Element) :=
  match it with
  | [] => Undefined
  | tok :: _ =>
      if quoted tok
      then Ret (it, StringElement key (substr tok 1 (String.length tok - 2)))
      else Throw E_PARSE_ERR_INVALID_STRING
  end.

(** The [catch] of [ParseNumberElement] takes [std::invalid_argument] only:
    [std::out_of_range] leaves the function as it is. *)
Definition ParseNumberElement (it : list string) (key : string)
  : outcome (list string * Element) :=
  match it with
  | [] => Undefined
  | tok :: _ =>
      if IsValidDecimal tok then
        match stold tok with
        | Converted d =>
            let precision :=
              match find_last_of "."%char tok with
              | Some pos => Z.of_nat (String.length tok - pos - 1)
              | None => 0%Z
              end in
            Ret (it, NumberElement key (TYPE_DECIMAL d precision))
        | Fails std_invalid_argument => Throw E_PARSE_ERR_INVALID_NUMBER
        | Fails std_out_of_range => ThrowStd std_out_of_range
        end
      else
        match stoll tok with
        | Converted n => Ret (it, NumberElement key (TYPE_INTEGER n))
        | Fails std_invalid_argument => Throw E_PARSE_ERR_INVALID_NUMBER
        | Fails std_out_of_range => ThrowStd std_out_of_range
        end
  end.

(** Returns [next(it)], the tokens after the colon, and [outKey]. *)
Definition ParseKey (it : list string) : outcome (list string * string) :=
  match it with
  | tok :: it1 =>
      if quoted tok then
        let outKey := substr tok 1 (String.length tok - 2) in
        match it1 with
        | colon :: it2 =>
            if String.eqb colon ":" then Ret (it2, outKey)
            else Throw E_INVALID_JSON_KEY_COLON
        | [] => Throw E_INVALID_JSON_KEY_COLON
        end
      else Throw E_INVALID_JSON_KEY_STRING
  | [] => Throw E_INVALID_JSON_KEY_STRING
  end.

(** What [Parse] returns: the tokens from the last token of the parsed
    element on, and [pOutElement] ([None] is [nullptr]). *)
Definition parsed : Type := (list string * option Element)%type.

(** The while loop of [ParseObjectElement] (lines 207-225) with the test
    that follows it (line 227), entered with the iterator [it] before its
    increment and the children added so far. [parse] is [Parse]; every round
    moves [it] forward, [n] bounds the rounds.

    The code takes no care of the end of the vector at four places, where
    the run has no defined behaviour:
    - [++it] on [it == end] (the value that [Parse] returned was [end]);
    - [*it] at line 227 when the loop stopped on [it == end]: the throw of
      E_PARSE_ERR_OBJECT_CLOSING_BRACKET sits behind this dereference;
    - [pChild->SetParent] at line 217 when [Parse] left [pChild] null;
    - [*next(it)] at line 220 when the parsed value is the last token. *)
Fixpoint ObjectLoop (parse : list string -> string -> outcome parsed) (n : nat)
  (it : list string) (cs : list Element) : outcome (list string * list Element) :=
  match n with
  | O => OutOfFuel
  | S n' =>
      match it with
      | [] => Undefined
      | _ :: [] => Undefined
      | _ :: ((tok :: _) as it1) =>
          if String.eqb tok "}" then Ret (it1, cs)
          else if negb (String.eqb tok ",") then
            '(it2, childKey) <- ParseKey it1 ;;
            '(it3, pChild) <- parse it2 childKey ;;
            match pChild with
            | None => Undefined
            | Some child =>
                match it3 with
                | _ :: nx :: _ =>
                    if negb (String.eqb nx ",") && negb (String.eqb nx "}")
                    then Throw E_PARSE_ERR_INVALID_OBJECT
                    else ObjectLoop parse n' it3 (cs ++ [child])
                | _ => Undefined
                end
            end
          else ObjectLoop parse n' it1 cs
      end
  end.

Definition ParseObjectElement (parse : list string -> string -> outcome parsed)
  (it : list string) (key : string) : outcome (list string * Element) :=
  match it with
  | [] => Undefined
  | tok :: _ =>
      if negb (String.eqb tok "{") then Throw E_PARSE_ERR_OBJECT_OPENING_BRACKET
      else
        '(it', cs) <- ObjectLoop parse (List.length it) it [] ;;
        Ret (it', ObjectElement key cs)
  end.

(** The while loop of [ParseArrayElement] (lines 247-262) with the test that
    follows it (line 264); the end of the vector is met as in [ObjectLoop]. *)
Fixpoint ArrayLoop (parse : list string -> string -> outcome parsed) (n : nat)
  (it : list string) (es : list Element) : outcome (list string * list Element) :=
  match n with
  | O => OutOfFuel
  | S n' =>
      match it with
      | [] => Undefined
      | _ :: [] => Undefined
      | _ :: ((tok :: _) as it1) =>
          if String.eqb tok "]" then Ret (it1, es)
          else if negb (String.eqb tok ",") then
            '(it2, pItem) <- parse it1 "" ;;
            match pItem with
            | None => Undefined
            | Some item =>
                match it2 with
                | _ :: nx :: _ =>
                    if negb (String.eqb nx ",") && negb (String.eqb nx "]")
                    then Throw E_PARSE_ERR_INVALID_ARRAY
                    else ArrayLoop parse n' it2 (es ++ [item])
                | _ => Undefined
                end
            end
          else ArrayLoop parse n' it1 es
      end
  end.

Definition ParseArrayElement (parse : list string -> string -> outcome parsed)
  (it : list string) (key : string) : outcome (list string * Element) :=
  match it with
  | [] => Undefined
  | tok :: _ =>
      if negb (String.eqb tok "[") then Throw E_PARSE_ERR_ARRAY_OPENING_BRACKET
      else
        '(it', es) <- ArrayLoop parse (List.length it) it [] ;;
        Ret (it', ArrayElement key es)
  end.

Definition some_element (r : outcome (list string * Element)) : outcome parsed :=
  '(it, e) <- r ;; Ret (it, Some e).

(** [Parse] (lines 118-192). Every branch of the body of its for loop
    returns or throws, so the body runs once, on [*begin], or not at all.
    [bAccept] is [m_bAcceptCaseInsensitiveLiterals]; [depth] bounds the
    nesting of the recursion through the Object and Array productions. *)
Fixpoint Parse (bAccept : bool) (depth : nat) (it : list string) (key : string)
  : outcome parsed :=
  match it with
  | [] => Ret ([], None)
  | tok :: _ =>
      match depth with
      | O => OutOfFuel
      | S depth' =>
          if String.eqb tok "{" then
            some_element (ParseObjectElement (Parse bAccept depth') it key)
          else if String.eqb tok "[" then
            some_element (ParseArrayElement (Parse bAccept depth') it key)
          else if (0 <? String.length tok)%nat && is_char dquote (front tok) then
            some_element (ParseStringElement it key)
          else if EqualIgnoreCase tok "true" || EqualIgnoreCase tok "false" then
            if negb bAccept && (negb (String.eqb tok "true") && negb (String.eqb tok "false"))
            then Throw E_PARSE_ERROR_INVALID_LITERAL_CASE
            else Ret (it, Some (BoolElement key (is_char "t"%char (front tok))))
          else if EqualIgnoreCase tok "null" then
            if negb bAccept && negb (String.eqb tok "null")
            then Throw E_PARSE_ERROR_INVALID_LITERAL_CASE
            else Ret (it, Some (NullElement key))
          else if IsValidNumber tok then
            some_element (ParseNumberElement it key)
          else Throw E_PARSE_ERR_UNKNOWN_ELEMENT
      end
  end.

(** *** JSON.cpp: the constructor (lines 14-50) *)

(** The body of the [try] block; it returns the root that is stored in
    [m_pRootObject]. The flag is set to [true] before it. *)
Definition JSON_try (json : string) : outcome Element :=
  tokens <- Lex json ;;
  '(_, pRoot) <- Parse true (S (List.length tokens)) tokens "" ;;
  match pRoot with
  | Some root => if IsObject root then Ret root else Throw E_INVALID_JSON
  | None => Throw E_INVALID_JSON
  end.

(** The object after construction: [m_pRootObject] and what the slot
    [*pErr] holds when the caller passed one. *)
Record JSON : Type := mkJSON {
  m_pRootObject : option Element;
  pErr_slot : option Error
}.

(** [JSON::JSON(json, pErr)]; [with_slot] tells whether [pErr != nullptr]. *)
Definition JSON_new (json : string) (with_slot : bool) : outcome JSON :=
  match JSON_try json with
  | Ret root =>
      Ret (mkJSON (Some root) (if with_slot then Some E_NO_ERROR else None))
  | Throw e =>
      if with_slot then Ret (mkJSON None (Some e)) else Throw e
  | ThrowStd x => ThrowStd x
  | Undefined => Undefined
  | OutOfFuel => OutOfFuel
  end.

Definition GetRootObject (j : JSON) : option Element := m_pRootObject j.

(** What the slot [*pErr] holds when control leaves the constructor that
    was given one, by a return or by an exception: E_NO_ERROR from line 20,
    unless the handler of line 39 caught a code and wrote it (line 43).
    [None]: the run has no defined behaviour. *)
Definition slot_on_exit (json : string) : option Error :=
  match JSON_try json with
  | Ret _ => Some E_NO_ERROR
  | Throw e => Some e
  | ThrowStd _ => Some E_NO_ERROR
  | Undefined => None
  | OutOfFuel => None
  end.

(** *** Notions the properties are stated with *)

Definition is_closing (c : ascii) : bool := string_mem c closingChars.

(** [first_closing str pos endPos]: [endPos] is the first position from
    [pos] on that holds a closing character. *)
Definition first_closing (str : string) (pos endPos : nat) : Prop :=
  (pos <= endPos)%nat
  /\ (exists d, get endPos str = Some d /\ is_closing d = true)
  /\ (forall i x, (pos <= i < endPos)%nat -> get i str = Some x -> is_closing x = false).

Definition no_closing (str : string) (pos : nat) : Prop :=
  forall i x, (pos <= i)%nat -> get i str = Some x -> is_closing x = false.

(** [closing_quote str offset endPos]: [endPos] is the first position from
    [offset] on that holds a double quote not preceded by a backslash. *)
Definition closing_quote (str : string) (offset endPos : nat) : Prop :=
  (offset <= endPos)%nat
  /\ get endPos str = Some dquote
  /\ is_char backslash (get (endPos - 1) str) = false
  /\ (forall i, (offset <= i < endPos)%nat -> get i str = Some dquote ->
        is_char backslash (get (i - 1) str) = true).

Definition no_closing_quote (str : string) (offset : nat) : Prop :=
  forall i, (offset <= i)%nat -> get i str = Some dquote ->
    is_char backslash (get (i - 1) str) = true.

(** The for loop of [Lex] continued from [pos], with the budget that the
    rest of the buffer needs. *)
Definition Lex_from (str : string) (pos : nat) (tokens : list string)
  : outcome (list string) :=
  Lex_loop (String.length str - pos) str pos tokens.

(** The terminating characters in the words of the specification: white
    space and the structural characters, the colon among them. *)
Definition is_delimiter (c : ascii) : bool := is_whitespace c || is_structural c.

(** What a quoted token of the lexer is: it opens with a double quote, and
    the first double quote after it that no backslash precedes is its last
    character. *)
Definition string_token (tok : string) : Prop :=
  (2 <= String.length tok)%nat
  /\ get 0 tok = Some dquote
  /\ closing_quote tok 1 (String.length tok - 1).

Definition lex_token (tok : string) : Prop :=
  get 0 tok = Some dquote -> string_token tok.

(** The text of a key or of a string value: not empty, and between two
    double quotes it is a quoted token. *)
Definition text_ok (v : string) : Prop :=
  v <> "" /\ string_token (String dquote (v ++ String dquote "")).

(** Where an element stands: it is the root of the document, a member of an
    Object or an item of an Array. *)
Inductive position : Type :=
| AtRoot
| InObject
| InArray.

(** Every element of the tree of [e], with where it stands, [e] standing
    at [p]. *)
Fixpoint elements_at (p : position) (e : Element) : list (position * Element) :=
  (p, e) ::
  match e with
  | ObjectElement _ cs => flat_map (elements_at InObject) cs
  | ArrayElement _ es => flat_map (elements_at InArray) es
  | _ => []
  end.

Definition all_nodes (Q : position -> Element -> Prop) (p : position) (e : Element)
  : Prop :=
  forall p' e', In (p', e') (elements_at p e) -> Q p' e'.

Definition key_ok (p : position) (key : string) : Prop :=
  match p with
  | InObject => text_ok key
  | _ => key = ""
  end.

Definition value_ok (e : Element) : Prop :=
  match e with
  | StringElement _ v => text_ok v
  | NumberElement _ (TYPE_INTEGER n) => (LLONG_MIN <= n <= LLONG_MAX)%Z
  | NumberElement _ TYPE_UNDEFINED => False
  | _ => True
  end.

(** What parsing the tokens of the lexer establishes at every element. *)
Definition node_ok (p : position) (e : Element) : Prop :=
  key_ok p (m_Key e) /\ value_ok e.

(** The brackets of a token list are well nested: with the open brackets
    in [stack] (the innermost first, [true] for a brace), what is open after
    the list, if no bracket of the list closes another kind or nothing. *)
Fixpoint nesting (stack : list bool) (l : list string) : option (list bool) :=
  match l with
  | [] => Some stack
  | tok :: l' =>
      if String.eqb tok "{" then nesting (true :: stack) l'
      else if String.eqb tok "[" then nesting (false :: stack) l'
      else if String.eqb tok "}" then
        match stack with true :: st => nesting st l' | _ => None end
      else if String.eqb tok "]" then
        match stack with false :: st => nesting st l' | _ => None end
      else nesting stack l'
  end.

(** Every bracket of the list is closed in the list by a bracket of its
    kind, and nothing else is closed. *)
Definition balanced (l : list string) : Prop := nesting [] l = Some [].

Definition neutral (tok : string) : Prop :=
  tok <> "{" /\ tok <> "[" /\ tok <> "}" /\ tok <> "]".

(** What a successful call [Parse(it, end, pOutElement, key)] establishes:
    the element is made of the tokens up to the one that the returned
    iterator points to. *)
Definition parse_post (it : list string) (key : string) (r : parsed) : Prop :=
  match it with
  | [] => r = ([], None)
  | _ :: _ =>
      exists e consumed last rest,
        r = (last :: rest, Some e)
        /\ it = (consumed ++ last :: rest)%list
        /\ balanced (consumed ++ [last])
        /\ m_Key e = key
        /\ (Forall lex_token it -> forall p, key_ok p key -> all_nodes node_ok p e)
  end.

(** The precision that [ParseNumberElement] records for a token: the number
    of characters after its last point. *)
Definition chars_after_last_dot (tok : string) : nat :=
  match find_last_of "."%char tok with
  | Some pos => (String.length tok - pos - 1)%nat
  | None => 0%nat
  end.

Fixpoint count_digits (s : string) : nat :=
  match s with
  | EmptyString => 0%nat
  | String c rest => ((if isdigit c then 1 else 0) + count_digits rest)%nat
  end.

(** What follows the last point of a token. *)
Definition after_last_dot (tok : string) : string :=
  match find_last_of "."%char tok with
  | Some pos => substr tok (pos + 1) (String.length tok - pos - 1)
  | None => EmptyString
  end.

(** The precision in the words of the specification: the count of digits
    that follow the last point of the token. *)
Definition digits_after_last_dot (tok : string) : nat :=
  count_digits (after_last_dot tok).

(** The loop of the lexer standing after the text [pre] of a buffer, before
    its rest. *)
Definition Lex_at (pre rest : string) (tokens : list string) : outcome (list string) :=
  Lex_from (pre ++ rest) (String.length pre) tokens.

(** A character of a bare value that cannot be taken for anything else. *)
Definition bare_char (c : ascii) : bool :=
  negb (is_whitespace c) && negb (is_structural c) && negb (Ascii.eqb c dquote).

(** The text begins with a character that ends a bare value. *)
Definition starts_closing (rest : string) : Prop :=
  exists c r, rest = String c r /\ is_closing c = true.

(** *** The serialization as tokens, and what its numbers must satisfy *)

(** A text between two double quotes. *)
Definition quote (v : string) : string := String dquote (v ++ String dquote "").

(** The serialization of an element after its key prefix. *)
Definition body_text (e : Element) : string :=
  match e with
  | ObjectElement _ cs => "{" ++ join_children true (map ToString cs) ++ "}"
  | ArrayElement _ es => "[" ++ join_children true (map ToString es) ++ "]"
  | StringElement _ v => quote v
  | NumberElement _ n => Number_ToString n
  | BoolElement _ b => if b then "true" else "false"
  | NullElement _ => "null"
  end.

(** The tokens of a serialization: of a key prefix, of a list of children
    with its commas, of an element after its key prefix, of an element. *)
Definition key_tokens (key : string) : list string :=
  if (0 <? String.length key)%nat then [quote key; ":"] else [].

Fixpoint join_tokens (bFirst : bool) (tss : list (list string)) : list string :=
  match tss with
  | [] => []
  | ts :: rest => (if bFirst then [] else [","]) ++ ts ++ join_tokens false rest
  end%list.

Fixpoint value_tokens (e : Element) : list string :=
  match e with
  | ObjectElement _ cs =>
      "{" :: join_tokens true
               (map (fun c => key_tokens (m_Key c) ++ value_tokens c)%list cs)
          ++ ["}"]
  | ArrayElement _ es =>
      "[" :: join_tokens true
               (map (fun c => key_tokens (m_Key c) ++ value_tokens c)%list es)
          ++ ["]"]
  | StringElement _ v => [quote v]
  | NumberElement _ n => [Number_ToString n]
  | BoolElement _ b => [if b then "true" else "false"]
  | NullElement _ => ["null"]
  end%list.

Definition element_tokens (e : Element) : list string :=
  (key_tokens (m_Key e) ++ value_tokens e)%list.

(** The text [s] of a decimal number reads back to a number with the same
    text: it is a numeral with a point, the library converts it, and the
    value read, at the precision read, prints as [s]. *)
Definition reread_stable (s : string) : Prop :=
  IsValidNumber s = true /\ IsValidDecimal s = true
  /\ exists d, stold s = Converted d
       /\ Number_ToString (TYPE_DECIMAL d (Z.of_nat (chars_after_last_dot s))) = s.

Definition decimal_stable (p : position) (e : Element) : Prop :=
  match e with
  | NumberElement _ (TYPE_DECIMAL d prec) =>
      reread_stable (Number_ToString (TYPE_DECIMAL d prec))
  | _ => True
  end.

(** The decimal numbers of a tree read back to numbers with the same text. *)
Definition decimals_stable (root : Element) : Prop :=
  all_nodes decimal_stable AtRoot root.

Definition node_good (p : position) (e : Element) : Prop :=
  node_ok p e /\ decimal_stable p e.

(** Induction on a tree, with the property at hand for all the children of
    an Object or an Array. *)
Fixpoint Element_induction (P : Element -> Prop)
  (Hobject : forall key cs, Forall P cs -> P (ObjectElement key cs))
  (Harray : forall key es, Forall P es -> P (ArrayElement key es))
  (Hstring : forall key v, P (StringElement key v))
  (Hnumber : forall key n, P (NumberElement key n))
  (Hbool : forall key b, P (BoolElement key b))
  (Hnull : forall key, P (NullElement key))
  (e : Element) {struct e} : P e :=
  let all := fix all (l : list Element) : Forall P l :=
    match l with
    | [] => Forall_nil P
    | c :: l' =>
        Forall_cons c
          (Element_induction P Hobject Harray Hstring Hnumber Hbool Hnull c)
          (all l')
    end in
  match e with
  | ObjectElement key cs => Hobject key cs (all cs)
  | ArrayElement key es => Harray key es (all es)
  | StringElement key v => Hstring key v
  | NumberElement key n => Hnumber key n
  | BoolElement key b => Hbool key b
  | NullElement key => Hnull key
  end.

(** The tokens of [e], whatever follows them, parse with any key to an
    element with the text of [e], and [Parse] returns at their last token. *)
Definition reparses (e : Element) : Prop :=
  forall depth rest key,
    (List.length (value_tokens e ++ rest) < depth)%nat ->
    exists e' last,
      Parse true depth (value_tokens e ++ rest) key = Ret (last :: rest, Some e')
      /\ body_text e' = body_text e /\ m_Key e' = key /\ IsObject e' = IsObject e.

(** *** Notions of the further properties *)

(** The text is white space only. *)
Definition blank (s : string) : bool := string_forallb is_whitespace s.

(** The tokens in their order, each after its gap. *)
Fixpoint weave (gaps tokens : list string) : string :=
  match gaps, tokens with
  | g :: gs, t :: ts => g ++ t ++ weave gs ts
  | _, _ => ""
  end.

(** The three kinds of token: one structural character; a quoted token; a
    bare value, which opens with a character that is no white space, no
    structural character and no double quote, and holds no closing
    character. *)
Definition token_shape (tok : string) : Prop :=
  (exists c, tok = String c "" /\ is_structural c = true)
  \/ string_token tok
  \/ (exists c r, tok = String c r /\ bare_char c = true
                  /\ string_forallb (fun x => negb (is_closing x)) tok = true).

(** The error codes that a run of the constructor with defined behaviour
    throws. *)
Definition constructor_error (e : Error) : bool :=
  match e with
  | E_INVALID_JSON
  | E_LEXING_ERR_INVALID_VALUE | E_LEXING_ERR_INVALID_STRING
  | E_INVALID_JSON_KEY_STRING | E_INVALID_JSON_KEY_COLON
  | E_PARSE_ERR_INVALID_STRING | E_PARSE_ERR_UNKNOWN_ELEMENT
  | E_PARSE_ERR_INVALID_NUMBER
  | E_PARSE_ERR_INVALID_OBJECT | E_PARSE_ERR_INVALID_ARRAY => true
  | _ => false
  end.

(** What a call throws, if it throws, is one of these codes or
    [std::out_of_range]. *)
Definition regular {A : Type} (m : outcome A) : Prop :=
  match m with
  | Throw e => constructor_error e = true
  | ThrowStd x => x = std_out_of_range
  | _ => True
  end.

(** The text with [std::toupper] on every character. *)
Fixpoint upper (s : string) : string :=
  match s with
  | EmptyString => EmptyString
  | String c rest => String (toupper c) (upper rest)
  end.

(** Every double quote of the text follows a backslash, and the text does
    not end with a backslash. *)
Definition escaped_quotes (v : string) : Prop :=
  (forall i, get i v = Some dquote -> (1 <= i)%nat /\ get (i - 1) v = Some backslash)
  /\ get (String.length v - 1) v <> Some backslash.

(** * Properties *)

(** ** Strings: positions, substrings, concatenation *)

Lemma get_length_None (s : string) (n : nat) :
  (String.length s <= n)%nat -> get n s = None.
Proof.
  revert n; induction s as [|a s IH]; intros [|n] H; simpl in *; auto; try lia.
  apply IH; lia.
Qed.

Lemma get_length_Some (s : string) (n : nat) :
  (n < String.length s)%nat -> exists c, get n s = Some c.
Proof.
  revert n; induction s as [|a s IH]; intros [|n] H; simpl in *; try lia; eauto.
  apply IH; lia.
Qed.

Lemma get_Some_length (s : string) (n : nat) (c : ascii) :
  get n s = Some c -> (n < String.length s)%nat.
Proof.
  intros H. destruct (Nat.lt_ge_cases n (String.length s)) as [L|L]; auto.
  rewrite (get_length_None s n L) in H; discriminate.
Qed.

Lemma length_append (s t : string) :
  String.length (s ++ t) = (String.length s + String.length t)%nat.
Proof. induction s; simpl; auto. Qed.

Lemma append_assoc (s t u : string) : (s ++ t) ++ u = s ++ (t ++ u).
Proof. induction s; simpl; congruence. Qed.

Lemma append_nil_r (s : string) : s ++ "" = s.
Proof. induction s; simpl; congruence. Qed.

Lemma get_append_r (s t : string) (n : nat) :
  get (String.length s + n) (s ++ t) = get n t.
Proof. induction s; simpl; auto. Qed.

Lemma substring_append_r (s t : string) (n m : nat) :
  substring (String.length s + n) m (s ++ t) = substring n m t.
Proof. induction s; simpl; auto. Qed.

Lemma substring_0_append (s t : string) :
  substring 0 (String.length s) (s ++ t) = s.
Proof.
  induction s as [|a s IH]; simpl.
  - destruct t; reflexivity.
  - now rewrite IH.
Qed.

Lemma string_forallb_app (p : ascii -> bool) (a b : string) :
  string_forallb p (a ++ b) = string_forallb p a && string_forallb p b.
Proof. induction a as [|c a IH]; simpl; [reflexivity|]. now rewrite IH, andb_assoc. Qed.

Lemma string_mem_app (c : ascii) (a b : string) :
  string_mem c (a ++ b) = string_mem c a || string_mem c b.
Proof. induction a as [|x a IH]; simpl; [reflexivity|]. now rewrite IH, orb_assoc. Qed.

(** ** The closing characters *)

(** The closing characters are the white space and the structural characters
    but the colon. *)
Lemma is_closing_spec (c : ascii) :
  is_closing c = is_whitespace c || (is_structural c && negb (Ascii.eqb c ":"%char)).
Proof.
  unfold is_closing, is_whitespace, is_structural, closingChars. simpl.
  destruct (Ascii.eqb_spec c "{"%char) as [->|]; [reflexivity|].
  destruct (Ascii.eqb_spec c "}"%char) as [->|]; [reflexivity|].
  destruct (Ascii.eqb_spec c "["%char) as [->|]; [reflexivity|].
  destruct (Ascii.eqb_spec c "]"%char) as [->|]; [reflexivity|].
  destruct (Ascii.eqb_spec c ","%char) as [->|]; [reflexivity|].
  destruct (Ascii.eqb_spec c " "%char) as [->|]; [reflexivity|].
  destruct (Ascii.eqb_spec c "013"%char) as [->|]; [reflexivity|].
  destruct (Ascii.eqb_spec c "010"%char) as [->|]; [reflexivity|].
  destruct (Ascii.eqb_spec c "009"%char) as [->|]; [reflexivity|].
  destruct (Ascii.eqb_spec c ":"%char) as [->|]; reflexivity.
Qed.

Lemma FindClosingCharacter_loop_Some (n : nat) (str : string) (pos e : nat) :
  FindClosingCharacter_loop n str pos = Some e -> first_closing str pos e.
Proof.
  revert pos; induction n as [|n IH]; intros pos H; cbn [FindClosingCharacter_loop] in H; [discriminate|].
  destruct (get pos str) as [c|] eqn:G; [|discriminate].
  fold (is_closing c) in H.
  destruct (is_closing c) eqn:C.
  - injection H as <-. repeat split; eauto. intros; lia.
  - destruct (IH _ H) as (L & D & B). repeat split; auto; try lia.
    intros i x Hi Gi. destruct (Nat.eq_dec i pos) as [->|].
    + congruence.
    + apply (B i x); auto; lia.
Qed.

Lemma FindClosingCharacter_loop_None (n : nat) (str : string) (pos : nat) :
  (String.length str - pos <= n)%nat ->
  FindClosingCharacter_loop n str pos = None -> no_closing str pos.
Proof.
  revert pos; induction n as [|n IH]; intros pos L H i x Hi Gi.
  - apply get_Some_length in Gi. lia.
  - cbn [FindClosingCharacter_loop] in H. destruct (get pos str) as [c|] eqn:G.
    + fold (is_closing c) in H. destruct (is_closing c) eqn:C; [discriminate|].
      destruct (Nat.eq_dec i pos) as [->|]; [congruence|].
      apply (IH (S pos)) with (i := i); auto; lia.
    + destruct (Nat.lt_ge_cases pos (String.length str)) as [L'|L'].
      * destruct (get_length_Some _ _ L') as [c G']. congruence.
      * apply get_Some_length in Gi. lia.
Qed.

Lemma first_closing_unique (str : string) (pos e1 e2 : nat) :
  first_closing str pos e1 -> first_closing str pos e2 -> e1 = e2.
Proof.
  intros (L1 & (d1 & G1 & C1) & B1) (L2 & (d2 & G2 & C2) & B2).
  destruct (Nat.lt_trichotomy e1 e2) as [H|[H|H]]; auto.
  - specialize (B2 e1 d1 (conj L1 H) G1). congruence.
  - specialize (B1 e2 d2 (conj L2 H) G2). congruence.
Qed.

Lemma FindClosingCharacter_Some (str : string) (pos e : nat) :
  FindClosingCharacter str pos = Some e <-> first_closing str pos e.
Proof.
  unfold FindClosingCharacter. split.
  - apply FindClosingCharacter_loop_Some.
  - intros F.
    destruct (FindClosingCharacter_loop (String.length str - pos) str pos) as [e'|] eqn:E.
    + f_equal. eapply first_closing_unique; eauto.
      now apply FindClosingCharacter_loop_Some in E.
    + apply FindClosingCharacter_loop_None in E; [|lia].
      destruct F as (L & (d & G & C) & _). rewrite (E e d L G) in C. discriminate.
Qed.

Lemma FindClosingCharacter_None (str : string) (pos : nat) :
  FindClosingCharacter str pos = None <-> no_closing str pos.
Proof.
  split.
  - apply FindClosingCharacter_loop_None. lia.
  - intros N. destruct (FindClosingCharacter str pos) as [e|] eqn:E; auto.
    apply FindClosingCharacter_Some in E. destruct E as (L & (d & G & C) & _).
    rewrite (N e d L G) in C. discriminate.
Qed.

(** ** The closing quotation mark *)

Lemma string_find_Some (c : ascii) (str : string) (offset e : nat) :
  string_find c str offset = Some e ->
  (offset <= e)%nat /\ get e str = Some c
  /\ (forall i, (offset <= i < e)%nat -> get i str <> Some c).
Proof.
  revert offset e; induction str as [|a str IH]; intros offset e H; simpl in H.
  - discriminate.
  - destruct offset as [|k].
    + destruct (Ascii.eqb_spec a c) as [->|N].
      * injection H as <-. repeat split; auto. intros; lia.
      * destruct (string_find c str 0) as [e'|] eqn:E; [|discriminate].
        injection H as <-. destruct (IH 0%nat e' E) as (L & G & B).
        repeat split; auto; try lia.
        intros [|i] Hi; simpl; [congruence|]. apply B; lia.
    + destruct (string_find c str k) as [e'|] eqn:E; [|discriminate].
      injection H as <-. destruct (IH k e' E) as (L & G & B).
      repeat split; auto; try lia.
      intros [|i] Hi; simpl; [lia|]. apply B; lia.
Qed.

Lemma string_find_None (c : ascii) (str : string) (offset : nat) :
  string_find c str offset = None ->
  forall i, (offset <= i)%nat -> get i str <> Some c.
Proof.
  revert offset; induction str as [|a str IH]; intros offset H i Hi; simpl in H.
  - destruct i; discriminate.
  - destruct offset as [|k].
    + destruct (Ascii.eqb_spec a c) as [->|N]; [discriminate|].
      destruct (string_find c str 0) eqn:E; [discriminate|].
      destruct i as [|i]; simpl; [congruence|]. apply (IH 0%nat E); lia.
    + destruct (string_find c str k) eqn:E; [discriminate|].
      destruct i as [|i]; simpl; [lia|]. apply (IH k E); lia.
Qed.

Lemma FindClosingQuotationMark_loop_Some (n : nat) (str : string) (offset e : nat) :
  FindClosingQuotationMark_loop n str offset = Some e -> closing_quote str offset e.
Proof.
  revert offset; induction n as [|n IH]; intros offset H; simpl in H; [discriminate|].
  destruct (string_find dquote str offset) as [p|] eqn:F; [|discriminate].
  destruct (string_find_Some _ _ _ _ F) as (L & G & B).
  destruct (is_char backslash (get (p - 1) str)) eqn:Esc; simpl in H.
  - destruct (IH _ H) as (L' & G' & E' & B').
    repeat split; auto; try lia.
    intros i Hi Gi. destruct (Nat.lt_trichotomy i p) as [Lt|[->|Gt]].
    + exfalso. apply (B i); auto; lia.
    + exact Esc.
    + apply B'; auto; lia.
  - injection H as <-. repeat split; auto.
    intros i Hi Gi. exfalso. apply (B i); auto.
Qed.

Lemma FindClosingQuotationMark_loop_None (n : nat) (str : string) (offset : nat) :
  (String.length str - offset <= n)%nat ->
  FindClosingQuotationMark_loop n str offset = None -> no_closing_quote str offset.
Proof.
  revert offset; induction n as [|n IH]; intros offset L H i Hi Gi.
  - apply get_Some_length in Gi. lia.
  - simpl in H. destruct (string_find dquote str offset) as [p|] eqn:F.
    + destruct (string_find_Some _ _ _ _ F) as (Lp & Gp & Bp).
      pose proof (get_Some_length _ _ _ Gp) as Lt.
      destruct (is_char backslash (get (p - 1) str)) eqn:Esc; simpl in H; [|discriminate].
      destruct (Nat.lt_trichotomy i p) as [Lt'|[->|Gt]].
      * exfalso. apply (Bp i); auto; lia.
      * exact Esc.
      * apply (IH (p + 1)%nat); auto; lia.
    + exfalso. apply (string_find_None _ _ _ F i Hi Gi).
Qed.

Lemma closing_quote_unique (str : string) (offset e1 e2 : nat) :
  closing_quote str offset e1 -> closing_quote str offset e2 -> e1 = e2.
Proof.
  intros (L1 & G1 & E1 & B1) (L2 & G2 & E2 & B2).
  destruct (Nat.lt_trichotomy e1 e2) as [H|[H|H]]; auto.
  - rewrite (B2 e1 (conj L1 H) G1) in E1. discriminate.
  - rewrite (B1 e2 (conj L2 H) G2) in E2. discriminate.
Qed.

Lemma FindClosingQuotationMark_Some (str : string) (offset e : nat) :
  FindClosingQuotationMark str offset = Some e <-> closing_quote str offset e.
Proof.
  unfold FindClosingQuotationMark. split.
  - apply FindClosingQuotationMark_loop_Some.
  - intros C.
    destruct (FindClosingQuotationMark_loop (String.length str) str offset) as [e'|] eqn:E.
    + f_equal. eapply closing_quote_unique; eauto.
      now apply FindClosingQuotationMark_loop_Some in E.
    + apply FindClosingQuotationMark_loop_None in E; [|lia].
      destruct C as (L & G & Esc & _). rewrite (E e L G) in Esc. discriminate.
Qed.

Lemma FindClosingQuotationMark_None (str : string) (offset : nat) :
  FindClosingQuotationMark str offset = None <-> no_closing_quote str offset.
Proof.
  split.
  - apply FindClosingQuotationMark_loop_None. lia.
  - intros N. destruct (FindClosingQuotationMark str offset) as [e|] eqn:E; auto.
    apply FindClosingQuotationMark_Some in E. destruct E as (L & G & Esc & _).
    rewrite (N e L G) in Esc. discriminate.
Qed.

(** ** The loop of the lexer: one round, and its budget *)

(** A character that opens a bare value is no closing character. *)
Lemma bare_not_closing (c : ascii) :
  is_whitespace c = false -> is_structural c = false -> is_closing c = false.
Proof. intros W S. rewrite is_closing_spec, W, S. reflexivity. Qed.

Lemma first_closing_after (str : string) (pos e : nat) (c : ascii) :
  get pos str = Some c -> is_closing c = false -> first_closing str pos e ->
  (pos < e)%nat.
Proof.
  intros G C (L & (d & Gd & Cd) & _).
  destruct (Nat.eq_dec pos e) as [->|]; [congruence|lia].
Qed.

(** With a budget that covers the rest of the buffer the loop does not
    depend on the budget. *)
Lemma Lex_loop_budget (fuel1 fuel2 : nat) (str : string) (pos : nat) (tokens : list string) :
  (String.length str - pos <= fuel1)%nat -> (String.length str - pos <= fuel2)%nat ->
  Lex_loop fuel1 str pos tokens = Lex_loop fuel2 str pos tokens.
Proof.
  revert fuel2 pos tokens; induction fuel1 as [|f1 IH]; intros fuel2 pos tokens L1 L2.
  - destruct fuel2; simpl; rewrite (get_length_None str pos) by lia; reflexivity.
  - destruct fuel2 as [|f2].
    + simpl. rewrite (get_length_None str pos) by lia. reflexivity.
    + simpl. destruct (get pos str) as [c|] eqn:G; [|reflexivity].
      pose proof (get_Some_length _ _ _ G) as Lt.
      destruct (is_whitespace c) eqn:W; [apply IH; lia|].
      destruct (is_structural c) eqn:St; [apply IH; lia|].
      destruct (Ascii.eqb c dquote).
      * destruct (FindClosingQuotationMark str (pos + 1)) as [e|] eqn:F; [|reflexivity].
        apply FindClosingQuotationMark_Some in F. destruct F as (Le & _).
        apply IH; lia.
      * destruct (FindClosingCharacter str pos) as [e|] eqn:F; [|reflexivity].
        apply FindClosingCharacter_Some in F.
        pose proof (first_closing_after _ _ _ _ G (bare_not_closing _ W St) F).
        apply IH; lia.
Qed.

Lemma Lex_loop_from (fuel : nat) (str : string) (pos : nat) (tokens : list string) :
  (String.length str - pos <= fuel)%nat ->
  Lex_loop fuel str pos tokens = Lex_from str pos tokens.
Proof. intros L. apply Lex_loop_budget; lia. Qed.

Lemma Lex_is_Lex_from (str : string) : Lex str = Lex_from str 0 [].
Proof. unfold Lex. apply Lex_loop_from. lia. Qed.

(** One round of the loop, free of the budget. *)
Lemma Lex_from_step (str : string) (pos : nat) (tokens : list string) :
  Lex_from str pos tokens =
  match get pos str with
  | None => Ret tokens
  | Some c =>
      if is_whitespace c then Lex_from str (S pos) tokens
      else if is_structural c then Lex_from str (S pos) (tokens ++ [substr str pos 1])
      else if Ascii.eqb c dquote then
        match FindClosingQuotationMark str (pos + 1) with
        | Some endPos =>
            Lex_from str (S endPos) (tokens ++ [substr str pos (endPos - pos + 1)])
        | None => Throw E_LEXING_ERR_INVALID_STRING
        end
      else
        match FindClosingCharacter str pos with
        | Some endPos => Lex_from str endPos (tokens ++ [substr str pos (endPos - pos)])
        | None => Throw E_LEXING_ERR_INVALID_VALUE
        end
  end.
Proof.
  unfold Lex_from at 1.
  destruct (get pos str) as [c|] eqn:G.
  - pose proof (get_Some_length _ _ _ G) as Lt.
    destruct (String.length str - pos)%nat as [|f] eqn:E; [lia|].
    simpl. rewrite G.
    destruct (is_whitespace c) eqn:W; [apply Lex_loop_from; lia|].
    destruct (is_structural c) eqn:St; [apply Lex_loop_from; lia|].
    destruct (Ascii.eqb c dquote).
    + destruct (FindClosingQuotationMark str (pos + 1)) as [e|] eqn:F; [|reflexivity].
      apply FindClosingQuotationMark_Some in F. destruct F as (Le & _).
      apply Lex_loop_from; lia.
    + destruct (FindClosingCharacter str pos) as [e|] eqn:F; [|reflexivity].
      apply FindClosingCharacter_Some in F.
      pose proof (first_closing_after _ _ _ _ G (bare_not_closing _ W St) F).
      replace (S (e - 1)) with e by lia.
      apply Lex_loop_from; lia.
  - destruct (String.length str - pos)%nat; simpl; rewrite G; reflexivity.
Qed.

(** ** Bare values (C7) *)

(** C7, as amended. Where the lexer begins a bare value (a character that
    is no white space, no structural character and no double quote), the scan
    stops at the next closing character, and the closing characters are the
    white space and the structural characters except the colon: the token is
    the substring up to that character, not including it, and the loop goes
    on from that character. When no closing character follows before the
    buffer ends, lexing fails with E_LEXING_ERR_INVALID_VALUE. *)
Theorem C7_bare_value_scan (str : string) (pos : nat) (c : ascii) (tokens : list string) :
  get pos str = Some c ->
  is_whitespace c = false -> is_structural c = false -> c <> dquote ->
  (forall d, is_closing d = true <->
             is_whitespace d = true \/ (is_structural d = true /\ d <> ":"%char))
  /\ (forall endPos, first_closing str pos endPos ->
        FindClosingCharacter str pos = Some endPos
        /\ Lex_from str pos tokens
           = Lex_from str endPos (tokens ++ [substr str pos (endPos - pos)]))
  /\ (no_closing str pos ->
        FindClosingCharacter str pos = None
        /\ Lex_from str pos tokens = Throw E_LEXING_ERR_INVALID_VALUE).
Proof.
  intros G W St Q.
  assert (Eq : Ascii.eqb c dquote = false) by now apply Ascii.eqb_neq.
  split; [|split].
  - intros d. rewrite is_closing_spec.
    destruct (is_whitespace d), (is_structural d), (Ascii.eqb_spec d ":"%char);
      simpl; split; intros H; auto; try discriminate;
      destruct H as [H|[H1 H2]]; try discriminate; congruence.
  - intros endPos F. apply FindClosingCharacter_Some in F. split; [exact F|].
    rewrite Lex_from_step, G, W, St, Eq, F. reflexivity.
  - intros N. apply FindClosingCharacter_None in N. split; [exact N|].
    rewrite Lex_from_step, G, W, St, Eq, N. reflexivity.
Qed.

(** ** Tokens of the lexer *)

Lemma length_substring (s : string) (n m : nat) :
  (n + m <= String.length s)%nat -> String.length (substring n m s) = m.
Proof.
  revert n m; induction s as [|a s IH]; intros [|n] [|m] H; simpl in *; auto; try lia.
  - f_equal. apply IH. simpl. lia.
  - apply IH. lia.
  - apply IH. lia.
Qed.

Lemma get_substring (s : string) (n m i : nat) :
  (i < m)%nat -> get i (substring n m s) = get (n + i) s.
Proof.
  intros H. rewrite (substring_correct1 s n m i H). f_equal. lia.
Qed.

Lemma closing_quote_substring (str : string) (pos e : nat) :
  get pos str = Some dquote -> closing_quote str (pos + 1) e ->
  string_token (substr str pos (e - pos + 1)).
Proof.
  intros G (L & Ge & Esc & B).
  pose proof (get_Some_length _ _ _ Ge) as Lt.
  unfold substr, string_token.
  rewrite length_substring by lia.
  split; [lia|]. split.
  - rewrite get_substring by lia. now rewrite Nat.add_0_r.
  - unfold closing_quote. replace (e - pos + 1 - 1)%nat with (e - pos)%nat by lia.
    split; [lia|]. split; [|split].
    + rewrite get_substring by lia. now replace (pos + (e - pos))%nat with e by lia.
    + rewrite get_substring by lia.
      now replace (pos + (e - pos - 1))%nat with (e - 1)%nat by lia.
    + intros i Hi Gi. rewrite get_substring in Gi by lia.
      rewrite get_substring by lia.
      replace (pos + (i - 1))%nat with (pos + i - 1)%nat by lia.
      apply B; auto; lia.
Qed.

Lemma Lex_loop_tokens (fuel : nat) (str : string) (pos : nat) (acc tokens : list string) :
  Lex_loop fuel str pos acc = Ret tokens ->
  Forall lex_token acc -> Forall lex_token tokens.
Proof.
  revert pos acc; induction fuel as [|fuel IH]; intros pos acc H A; simpl in H.
  - destruct (get pos str); [discriminate|]. now injection H as <-.
  - destruct (get pos str) as [c|] eqn:G; [|now injection H as <-].
    destruct (is_whitespace c) eqn:W; [eapply IH; eauto|].
    assert (first_other : forall n d, (0 < n)%nat -> d <> dquote -> get pos str = Some d ->
              lex_token (substr str pos n)).
    { intros n d Hn Hd Gd T. unfold substr in T. rewrite get_substring in T by lia.
      rewrite Nat.add_0_r in T. congruence. }
    destruct (is_structural c) eqn:St.
    { eapply IH; eauto. apply Forall_app. split; auto. constructor; auto.
      apply (first_other 1%nat c); auto. intros ->. discriminate. }
    destruct (Ascii.eqb_spec c dquote) as [->|N].
    + destruct (FindClosingQuotationMark str (pos + 1)) as [e|] eqn:F; [|discriminate].
      apply FindClosingQuotationMark_Some in F.
      eapply IH; eauto. apply Forall_app. split; auto. constructor; auto.
      intros _. now apply closing_quote_substring.
    + destruct (FindClosingCharacter str pos) as [e|] eqn:F; [|discriminate].
      apply FindClosingCharacter_Some in F.
      pose proof (first_closing_after _ _ _ _ G (bare_not_closing _ W St) F).
      eapply IH; eauto. apply Forall_app. split; auto. constructor; auto.
      apply (first_other (e - pos)%nat c); auto. lia.
Qed.

Lemma Lex_tokens (str : string) (tokens : list string) :
  Lex str = Ret tokens -> Forall lex_token tokens.
Proof. intros H. eapply Lex_loop_tokens; eauto. Qed.

(** A token that passes the test of the String and Key productions is its
    inner text between two double quotes. *)
Lemma string_last (t : string) :
  (0 < String.length t)%nat ->
  exists c, get (String.length t - 1) t = Some c
            /\ t = substring 0 (String.length t - 1) t ++ String c "".
Proof.
  induction t as [|a t IH]; simpl; intros H; [lia|].
  destruct t as [|b t].
  - exists a. auto.
  - destruct IH as (c & G & E); [simpl; lia|].
    exists c. simpl in *. rewrite Nat.sub_0_r in *. split; auto.
    f_equal. exact E.
Qed.

Lemma quoted_shape (tok : string) :
  quoted tok = true ->
  tok = String dquote (substr tok 1 (String.length tok - 2) ++ String dquote "")
  /\ substr tok 1 (String.length tok - 2) <> "".
Proof.
  unfold quoted, front, back, substr. intros H.
  apply andb_prop in H as [H B]. apply andb_prop in H as [L F].
  apply Nat.ltb_lt in L.
  destruct tok as [|a t]; [simpl in L; lia|].
  cbn [get] in F. cbn [is_char] in F.
  destruct (Ascii.eqb_spec a dquote) as [->|]; [|discriminate].
  cbn [String.length] in *.
  destruct (string_last t) as (c & G & E); [lia|].
  replace (S (String.length t) - 1)%nat with (S (String.length t - 1)) in B by lia.
  cbn [get] in B. rewrite G in B. cbn [is_char] in B.
  apply Ascii.eqb_eq in B. subst c.
  replace (S (String.length t) - 2)%nat with (String.length t - 1)%nat by lia.
  cbn [substring].
  split.
  - f_equal. exact E.
  - intros Z. rewrite Z in E. rewrite E in L. simpl in L. lia.
Qed.

Lemma quoted_text_ok (tok : string) :
  quoted tok = true -> lex_token tok ->
  text_ok (substr tok 1 (String.length tok - 2)).
Proof.
  intros Q T. destruct (quoted_shape tok Q) as (E & N).
  split; auto. rewrite <- E. apply T.
  unfold quoted in Q. apply andb_prop in Q as [Q _]. apply andb_prop in Q as [_ F].
  unfold front in F. destruct (get 0 tok) as [a|]; simpl in F; [|discriminate].
  apply Ascii.eqb_eq in F. now subst a.
Qed.

(** ** What a successful parse establishes *)

Lemma all_nodes_leaf (Q : position -> Element -> Prop) (p : position) (e : Element) :
  IsObject e = false -> IsArray e = false -> Q p e -> all_nodes Q p e.
Proof.
  intros O A H p' e' I. destruct e; try discriminate;
    simpl in I; destruct I as [I|[]]; now injection I as <- <-.
Qed.

Lemma all_nodes_flat_map (Q : position -> Element -> Prop) (q : position)
  (cs : list Element) :
  Forall (all_nodes Q q) cs <->
  (forall p' e', In (p', e') (flat_map (elements_at q) cs) -> Q p' e').
Proof.
  split.
  - intros F p' e' I. apply in_flat_map in I as (c & Ic & I).
    rewrite Forall_forall in F. exact (F c Ic p' e' I).
  - intros H. apply Forall_forall. intros c Ic p' e' I.
    apply H. apply in_flat_map. eauto.
Qed.

Lemma all_nodes_object (Q : position -> Element -> Prop) (p : position)
  (key : string) (cs : list Element) :
  all_nodes Q p (ObjectElement key cs) <->
  Q p (ObjectElement key cs) /\ Forall (all_nodes Q InObject) cs.
Proof.
  rewrite all_nodes_flat_map. unfold all_nodes. simpl. split.
  - intros H. split; [apply H; now left|]. intros p' e' I. apply H. now right.
  - intros [H F] p' e' [I|I]; [now injection I as <- <-|]. now apply F.
Qed.

Lemma all_nodes_array (Q : position -> Element -> Prop) (p : position)
  (key : string) (es : list Element) :
  all_nodes Q p (ArrayElement key es) <->
  Q p (ArrayElement key es) /\ Forall (all_nodes Q InArray) es.
Proof.
  rewrite all_nodes_flat_map. unfold all_nodes. simpl. split.
  - intros H. split; [apply H; now left|]. intros p' e' I. apply H. now right.
  - intros [H F] p' e' [I|I]; [now injection I as <- <-|]. now apply F.
Qed.

Lemma all_nodes_root (Q : position -> Element -> Prop) (p : position) (e : Element) :
  all_nodes Q p e -> Q p e.
Proof. intros H. apply H. destruct e; simpl; now left. Qed.

Lemma bind_Ret {A B : Type} (m : outcome A) (k : A -> outcome B) (b : B) :
  bind m k = Ret b -> exists a, m = Ret a /\ k a = Ret b.
Proof. destruct m; simpl; intros H; try discriminate. eauto. Qed.

Lemma some_element_Ret (r : outcome (list string * Element)) (x : parsed) :
  some_element r = Ret x -> exists it e, r = Ret (it, e) /\ x = (it, Some e).
Proof.
  unfold some_element. intros H. apply bind_Ret in H as ([it e] & -> & H).
  injection H as <-. eauto.
Qed.

Lemma ParseKey_Ret (it it2 : list string) (key : string) :
  ParseKey it = Ret (it2, key) ->
  exists tok, it = tok :: ":" :: it2 /\ quoted tok = true
              /\ key = substr tok 1 (String.length tok - 2).
Proof.
  unfold ParseKey. intros H.
  destruct it as [|tok [|colon it2']]; try discriminate;
    destruct (quoted tok) eqn:Q; try discriminate.
  destruct (String.eqb_spec colon ":") as [->|]; [|discriminate].
  injection H as <- <-. eauto.
Qed.

Lemma stoll_range (s : string) (n : Z) :
  stoll s = Converted n -> (LLONG_MIN <= n <= LLONG_MAX)%Z.
Proof.
  unfold stoll. intros H.
  destruct (read_sign (skip_space s)) as [neg s2].
  destruct (starts_with_digit s2); [|discriminate].
  match type of H with (if ?c then _ else _) = _ => destruct c eqn:R end;
    [|discriminate].
  injection H as <-. apply andb_prop in R as [R1 R2].
  apply Z.leb_le in R1, R2. lia.
Qed.


Lemma nesting_app (st : list bool) (l1 l2 : list string) :
  nesting st (l1 ++ l2) =
  match nesting st l1 with Some st' => nesting st' l2 | None => None end.
Proof.
  revert st; induction l1 as [|tok l1 IH]; intros st; simpl; auto.
  destruct (String.eqb tok "{"); auto.
  destruct (String.eqb tok "["); auto.
  destruct (String.eqb tok "}"); [destruct st as [|[] st]; auto|].
  destruct (String.eqb tok "]"); [destruct st as [|[] st]; auto|].
  auto.
Qed.

Lemma nesting_frame (base st st' : list bool) (l : list string) :
  nesting st l = Some st' -> nesting (st ++ base) l = Some (st' ++ base)%list.
Proof.
  revert st; induction l as [|tok l IH]; intros st H; simpl in *.
  - now injection H as <-.
  - destruct (String.eqb tok "{"); [exact (IH (true :: st) H)|].
    destruct (String.eqb tok "["); [exact (IH (false :: st) H)|].
    destruct (String.eqb tok "}");
      [destruct st as [|[] st]; try discriminate; simpl; exact (IH _ H)|].
    destruct (String.eqb tok "]");
      [destruct st as [|[] st]; try discriminate; simpl; exact (IH _ H)|].
    auto.
Qed.

Lemma balanced_app (l1 l2 : list string) :
  balanced l1 -> balanced l2 -> balanced (l1 ++ l2).
Proof. unfold balanced. intros H1 H2. now rewrite nesting_app, H1. Qed.

Lemma balanced_neutral (tok : string) : neutral tok -> balanced [tok].
Proof.
  intros (A & B & C & D). unfold balanced. simpl.
  apply String.eqb_neq in A, B, C, D. now rewrite A, B, C, D.
Qed.

Lemma balanced_cons (tok : string) (l : list string) :
  neutral tok -> balanced l -> balanced (tok :: l).
Proof. intros N B. apply (balanced_app [tok] l); auto. now apply balanced_neutral. Qed.

Lemma balanced_braces (inner : list string) :
  balanced inner -> balanced ("{" :: inner ++ ["}"]).
Proof.
  unfold balanced. intros H. simpl. rewrite nesting_app.
  pose proof (nesting_frame [true] [] [] inner H) as F. simpl in F.
  now rewrite F.
Qed.

Lemma balanced_squares (inner : list string) :
  balanced inner -> balanced ("[" :: inner ++ ["]"]).
Proof.
  unfold balanced. intros H. simpl. rewrite nesting_app.
  pose proof (nesting_frame [false] [] [] inner H) as F. simpl in F.
  now rewrite F.
Qed.

Lemma quoted_neutral (tok : string) : quoted tok = true -> neutral tok.
Proof.
  intros Q. unfold quoted in Q. apply andb_prop in Q as [Q _].
  apply andb_prop in Q as [L _]. apply Nat.ltb_lt in L.
  repeat split; intros ->; simpl in L; lia.
Qed.

Lemma EqualIgnoreCase_length (s t : string) :
  EqualIgnoreCase s t = true -> String.length s = String.length t.
Proof.
  unfold EqualIgnoreCase. intros H. apply andb_prop in H as [H _].
  now apply Nat.eqb_eq.
Qed.

Lemma IsValidNumber_neutral (tok : string) : IsValidNumber tok = true -> neutral tok.
Proof. intros V. repeat split; intros ->; discriminate. Qed.

Lemma ObjectLoop_sound (parse : list string -> string -> outcome parsed) :
  (forall it key r, parse it key = Ret r -> parse_post it key r) ->
  forall (n : nat) (it : list string) (cs : list Element) (it' : list string)
         (cs' : list Element),
    ObjectLoop parse n it cs = Ret (it', cs') ->
    exists inner rest new,
      tl it = (inner ++ "}" :: rest)%list /\ it' = "}" :: rest /\ balanced inner
      /\ cs' = (cs ++ new)%list
      /\ (Forall lex_token it -> Forall (all_nodes node_ok InObject) new).
Proof.
  intros Hp. induction n as [|n IH]; intros it cs it' cs' H;
    cbn [ObjectLoop] in H; [discriminate|].
  destruct it as [|t0 [|tok it1]]; try discriminate.
  destruct (String.eqb_spec tok "}") as [->|NB].
  { injection H as <- <-. exists [], it1, []. rewrite List.app_nil_r.
    split; [reflexivity|]. split; [reflexivity|]. split; [reflexivity|].
    split; [reflexivity|]. intros _. constructor. }
  destruct (String.eqb_spec tok ",") as [->|NC]; cbn [negb] in H.
  { destruct (IH _ _ _ _ H) as (inner & rest & new & E & -> & B & -> & F).
    simpl in E. subst it1.
    exists ("," :: inner), rest, new.
    split; [reflexivity|]. split; [reflexivity|]. split; [|split; [reflexivity|]].
    - apply balanced_cons; auto. repeat split; discriminate.
    - intros T. apply F. now inversion T. }
  apply bind_Ret in H as ([it2 childKey] & K & H).
  apply ParseKey_Ret in K as (ktok & Eit & Q & ->).
  injection Eit as -> ->.
  apply bind_Ret in H as ([it3 pChild] & P & H).
  destruct pChild as [child|]; [|discriminate].
  apply Hp in P. unfold parse_post in P.
  destruct it2 as [|v it2']; [discriminate|].
  destruct P as (e & consumed & last & rest3 & Er & Ei & Bc & Ke & Te).
  injection Er as -> <-.
  destruct rest3 as [|nx it3']; [discriminate|].
  match type of H with (if ?c then _ else _) = _ => destruct c end; [discriminate|].
  destruct (IH _ _ _ _ H) as (inner & rest & new & E & -> & B & -> & F).
  simpl in E.
  exists (ktok :: ":" :: (consumed ++ [last]) ++ inner)%list, rest, (child :: new).
  split; [|split; [reflexivity|split; [|split]]].
  - simpl. rewrite Ei, E. f_equal. f_equal. rewrite <- !List.app_assoc. reflexivity.
  - apply balanced_cons; [now apply quoted_neutral|].
    apply balanced_cons; [repeat split; discriminate|].
    now apply balanced_app.
  - now rewrite <- List.app_assoc.
  - intros T. inversion T as [|? ? _ T1]; subst.
    inversion T1 as [|? ? Hk T2]; subst. inversion T2 as [|? ? _ T3]; subst.
    constructor.
    + apply Te; auto. simpl. now apply quoted_text_ok.
    + apply F. rewrite Ei in T3. now apply Forall_app in T3.
Qed.

Lemma ArrayLoop_sound (parse : list string -> string -> outcome parsed) :
  (forall it key r, parse it key = Ret r -> parse_post it key r) ->
  forall (n : nat) (it : list string) (es : list Element) (it' : list string)
         (es' : list Element),
    ArrayLoop parse n it es = Ret (it', es') ->
    exists inner rest new,
      tl it = (inner ++ "]" :: rest)%list /\ it' = "]" :: rest /\ balanced inner
      /\ es' = (es ++ new)%list
      /\ (Forall lex_token it -> Forall (all_nodes node_ok InArray) new).
Proof.
  intros Hp. induction n as [|n IH]; intros it es it' es' H;
    cbn [ArrayLoop] in H; [discriminate|].
  destruct it as [|t0 [|tok it1]]; try discriminate.
  destruct (String.eqb_spec tok "]") as [->|NB].
  { injection H as <- <-. exists [], it1, []. rewrite List.app_nil_r.
    split; [reflexivity|]. split; [reflexivity|]. split; [reflexivity|].
    split; [reflexivity|]. intros _. constructor. }
  destruct (String.eqb_spec tok ",") as [->|NC]; cbn [negb] in H.
  { destruct (IH _ _ _ _ H) as (inner & rest & new & E & -> & B & -> & F).
    simpl in E. subst it1.
    exists ("," :: inner), rest, new.
    split; [reflexivity|]. split; [reflexivity|]. split; [|split; [reflexivity|]].
    - apply balanced_cons; auto. repeat split; discriminate.
    - intros T. apply F. now inversion T. }
  apply bind_Ret in H as ([it2 pItem] & P & H).
  destruct pItem as [item|]; [|discriminate].
  apply Hp in P. unfold parse_post in P.
  destruct P as (e & consumed & last & rest2 & Er & Ei & Bc & Ke & Te).
  injection Er as -> <-.
  destruct rest2 as [|nx it2']; [discriminate|].
  match type of H with (if ?c then _ else _) = _ => destruct c end; [discriminate|].
  destruct (IH _ _ _ _ H) as (inner & rest & new & E & -> & B & -> & F).
  simpl in E.
  exists ((consumed ++ [last]) ++ inner)%list, rest, (item :: new).
  split; [|split; [reflexivity|split; [|split]]].
  - simpl. rewrite Ei, E. rewrite <- !List.app_assoc. reflexivity.
  - now apply balanced_app.
  - now rewrite <- List.app_assoc.
  - intros T. inversion T as [|? ? _ T1]; subst.
    constructor.
    + apply Te; auto. reflexivity.
    + apply F. rewrite Ei in T1. now apply Forall_app in T1.
Qed.

Lemma Parse_sound (bAccept : bool) (depth : nat) (it : list string) (key : string)
  (r : parsed) :
  Parse bAccept depth it key = Ret r -> parse_post it key r.
Proof.
  revert it key r. induction depth as [|depth IH]; intros it key r H;
    destruct it as [|tok it0]; cbn [Parse] in H; try discriminate;
    try (now injection H as <-).
  unfold parse_post.
  destruct (String.eqb_spec tok "{") as [->|NO].
  { apply some_element_Ret in H as (it' & e & H & ->).
    unfold ParseObjectElement in H. rewrite String.eqb_refl in H. cbn [negb] in H.
    apply bind_Ret in H as ([it1 cs] & L & H). injection H as <- <-.
    apply (ObjectLoop_sound _ IH) in L as (inner & rest & new & E & -> & B & -> & F).
    simpl in E. subst it0.
    exists (ObjectElement key new), ("{" :: inner), "}", rest.
    split; [reflexivity|]. split; [reflexivity|]. split; [|split; [reflexivity|]].
    - now apply balanced_braces.
    - intros T p Kp. apply all_nodes_object. split; [split; simpl; auto|auto]. }
  destruct (String.eqb_spec tok "[") as [->|NA].
  { apply some_element_Ret in H as (it' & e & H & ->).
    unfold ParseArrayElement in H. rewrite String.eqb_refl in H. cbn [negb] in H.
    apply bind_Ret in H as ([it1 es] & L & H). injection H as <- <-.
    apply (ArrayLoop_sound _ IH) in L as (inner & rest & new & E & -> & B & -> & F).
    simpl in E. subst it0.
    exists (ArrayElement key new), ("[" :: inner), "]", rest.
    split; [reflexivity|]. split; [reflexivity|]. split; [|split; [reflexivity|]].
    - now apply balanced_squares.
    - intros T p Kp. apply all_nodes_array. split; [split; simpl; auto|auto]. }
  assert (leaf : forall e, IsObject e = false -> IsArray e = false -> m_Key e = key ->
            neutral tok -> (lex_token tok -> value_ok e) ->
            exists e0 consumed last rest,
              (tok :: it0, Some e) = (last :: rest, Some e0)
              /\ tok :: it0 = (consumed ++ last :: rest)%list
              /\ balanced (consumed ++ [last])
              /\ m_Key e0 = key
              /\ (Forall lex_token (tok :: it0) ->
                  forall p, key_ok p key -> all_nodes node_ok p e0)).
  { intros e O A K N V. exists e, [], tok, it0.
    split; [reflexivity|]. split; [reflexivity|]. split; [|split; [exact K|]].
    - now apply balanced_neutral.
    - intros T p Kp. apply all_nodes_leaf; auto. split; [now rewrite K|].
      apply V. now inversion T. }
  destruct ((0 <? String.length tok)%nat && is_char dquote (front tok)) eqn:QS.
  { apply some_element_Ret in H as (it' & e & H & ->).
    unfold ParseStringElement in H. destruct (quoted tok) eqn:Q; [|discriminate].
    injection H as <- <-. apply leaf; auto.
    - now apply quoted_neutral.
    - intros T. simpl. now apply quoted_text_ok. }
  destruct (EqualIgnoreCase tok "true" || EqualIgnoreCase tok "false") eqn:TF.
  { match type of H with (if ?c then _ else _) = _ => destruct c end; [discriminate|].
    injection H as <-. apply leaf; simpl; auto.
    apply orb_prop in TF as [TF|TF]; apply EqualIgnoreCase_length in TF;
      repeat split; intros ->; discriminate. }
  destruct (EqualIgnoreCase tok "null") eqn:NL.
  { match type of H with (if ?c then _ else _) = _ => destruct c end; [discriminate|].
    injection H as <-. apply leaf; simpl; auto.
    apply EqualIgnoreCase_length in NL; repeat split; intros ->; discriminate. }
  destruct (IsValidNumber tok) eqn:VN; [|discriminate].
  apply IsValidNumber_neutral in VN.
  apply some_element_Ret in H as (it' & e & H & ->).
  unfold ParseNumberElement in H.
  destruct (IsValidDecimal tok).
  - destruct (stold tok) as [d|[]]; try discriminate.
    injection H as <- <-. apply leaf; simpl; auto.
  - destruct (stoll tok) as [n|[]] eqn:St; try discriminate.
    injection H as <- <-. apply leaf; simpl; auto.
    intros _. now apply stoll_range in St.
Qed.

(** ** The budgets of the loops are never exhausted *)

Lemma Lex_loop_total (fuel : nat) (str : string) (pos : nat) (tokens : list string) :
  (String.length str - pos <= fuel)%nat ->
  Lex_loop fuel str pos tokens <> OutOfFuel.
Proof.
  revert pos tokens; induction fuel as [|fuel IH]; intros pos tokens L; simpl.
  - rewrite (get_length_None str pos) by lia. discriminate.
  - destruct (get pos str) as [c|] eqn:G; [|discriminate].
    pose proof (get_Some_length _ _ _ G) as Lt.
    destruct (is_whitespace c) eqn:W; [apply IH; lia|].
    destruct (is_structural c) eqn:St; [apply IH; lia|].
    destruct (Ascii.eqb c dquote).
    + destruct (FindClosingQuotationMark str (pos + 1)) as [e|] eqn:F; [|discriminate].
      apply FindClosingQuotationMark_Some in F. destruct F as (Le & _).
      apply IH; lia.
    + destruct (FindClosingCharacter str pos) as [e|] eqn:F; [|discriminate].
      apply FindClosingCharacter_Some in F.
      pose proof (first_closing_after _ _ _ _ G (bare_not_closing _ W St) F).
      apply IH; lia.
Qed.

Lemma Lex_total (str : string) : Lex str <> OutOfFuel.
Proof. apply Lex_loop_total. lia. Qed.

Lemma bind_total {A B : Type} (m : outcome A) (k : A -> outcome B) :
  m <> OutOfFuel -> (forall a, m = Ret a -> k a <> OutOfFuel) ->
  bind m k <> OutOfFuel.
Proof. destruct m; simpl; intros H K; auto; discriminate. Qed.

Lemma ParseKey_total (it : list string) : ParseKey it <> OutOfFuel.
Proof.
  unfold ParseKey. destruct it as [|tok [|colon it2]]; try discriminate;
    destruct (quoted tok); try discriminate.
  destruct (String.eqb colon ":"); discriminate.
Qed.

Lemma ObjectLoop_total (parse : list string -> string -> outcome parsed) (depth : nat) :
  (forall it key r, parse it key = Ret r -> parse_post it key r) ->
  (forall it key, (List.length it < depth)%nat -> parse it key <> OutOfFuel) ->
  forall (n : nat) (it : list string) (cs : list Element),
    (1 <= List.length it <= n)%nat -> (List.length it <= depth)%nat ->
    ObjectLoop parse n it cs <> OutOfFuel.
Proof.
  intros Hp Ht. induction n as [|n IH]; intros it cs Ln Ld; [lia|].
  cbn [ObjectLoop].
  destruct it as [|t0 [|tok it1]]; try discriminate.
  destruct (String.eqb tok "}"); [discriminate|].
  destruct (String.eqb tok ","); cbn [negb].
  { apply IH; simpl in *; lia. }
  apply bind_total; [apply ParseKey_total|].
  intros [it2 childKey] K. apply ParseKey_Ret in K as (ktok & Eit & _ & _).
  injection Eit as -> ->.
  apply bind_total; [apply Ht; simpl in *; lia|].
  intros [it3 pChild] P. destruct pChild as [child|]; [|discriminate].
  apply Hp in P. unfold parse_post in P.
  destruct it2 as [|v it2']; [discriminate|].
  destruct P as (e & consumed & last & rest3 & Er & Ei & _).
  injection Er as -> _.
  destruct rest3 as [|nx it3']; [discriminate|].
  match goal with |- (if ?c then _ else _) <> _ => destruct c end; [discriminate|].
  assert (List.length (last :: nx :: it3') <= List.length (v :: it2'))%nat.
  { rewrite Ei, List.length_app. lia. }
  apply IH; simpl in *; lia.
Qed.

Lemma ArrayLoop_total (parse : list string -> string -> outcome parsed) (depth : nat) :
  (forall it key r, parse it key = Ret r -> parse_post it key r) ->
  (forall it key, (List.length it < depth)%nat -> parse it key <> OutOfFuel) ->
  forall (n : nat) (it : list string) (es : list Element),
    (1 <= List.length it <= n)%nat -> (List.length it <= depth)%nat ->
    ArrayLoop parse n it es <> OutOfFuel.
Proof.
  intros Hp Ht. induction n as [|n IH]; intros it es Ln Ld; [lia|].
  cbn [ArrayLoop].
  destruct it as [|t0 [|tok it1]]; try discriminate.
  destruct (String.eqb tok "]"); [discriminate|].
  destruct (String.eqb tok ","); cbn [negb].
  { apply IH; simpl in *; lia. }
  apply bind_total; [apply Ht; simpl in *; lia|].
  intros [it2 pItem] P. destruct pItem as [item|]; [|discriminate].
  apply Hp in P. unfold parse_post in P.
  destruct P as (e & consumed & last & rest2 & Er & Ei & _).
  injection Er as -> _.
  destruct rest2 as [|nx it2']; [discriminate|].
  match goal with |- (if ?c then _ else _) <> _ => destruct c end; [discriminate|].
  assert (List.length (last :: nx :: it2') <= List.length (tok :: it1))%nat.
  { rewrite Ei, List.length_app. lia. }
  apply IH; simpl in *; lia.
Qed.

(** [Parse] with a depth above the number of tokens does not run out of
    it. *)
Lemma Parse_total (bAccept : bool) (depth : nat) (it : list string) (key : string) :
  (List.length it < depth)%nat -> Parse bAccept depth it key <> OutOfFuel.
Proof.
  revert it key. induction depth as [|depth IH]; intros it key L; [lia|].
  destruct it as [|tok it0]; cbn [Parse]; [discriminate|].
  assert (Hp := Parse_sound bAccept depth).
  destruct (String.eqb_spec tok "{") as [->|_].
  { unfold some_element, ParseObjectElement. rewrite String.eqb_refl. cbn [negb].
    apply bind_total; [|intros [? ?] _; discriminate].
    apply bind_total; [|intros [? ?] _; discriminate].
    apply (ObjectLoop_total _ depth Hp IH); simpl in *; lia. }
  destruct (String.eqb_spec tok "[") as [->|_].
  { unfold some_element, ParseArrayElement. rewrite String.eqb_refl. cbn [negb].
    apply bind_total; [|intros [? ?] _; discriminate].
    apply bind_total; [|intros [? ?] _; discriminate].
    apply (ArrayLoop_total _ depth Hp IH); simpl in *; lia. }
  destruct ((0 <? String.length tok)%nat && is_char dquote (front tok)).
  { unfold some_element, ParseStringElement. destruct (quoted tok); discriminate. }
  destruct (EqualIgnoreCase tok "true" || EqualIgnoreCase tok "false").
  { match goal with |- (if ?c then _ else _) <> _ => destruct c end; discriminate. }
  destruct (EqualIgnoreCase tok "null").
  { match goal with |- (if ?c then _ else _) <> _ => destruct c end; discriminate. }
  destruct (IsValidNumber tok); [|discriminate].
  unfold some_element, ParseNumberElement.
  destruct (IsValidDecimal tok).
  - destruct (stold tok) as [d|[]]; discriminate.
  - destruct (stoll tok) as [n|[]]; discriminate.
Qed.

(** The body of the constructor never ends on an exhausted budget. *)
Lemma JSON_try_total (json : string) : JSON_try json <> OutOfFuel.
Proof.
  unfold JSON_try.
  apply bind_total; [apply Lex_total|]. intros tokens _.
  apply bind_total; [apply Parse_total; auto|].
  intros [it [root|]] _; [destruct (IsObject root)|]; discriminate.
Qed.

(** ** The document *)

Lemma JSON_try_Ret (json : string) (root : Element) :
  JSON_try json = Ret root ->
  exists tokens it,
    Lex json = Ret tokens
    /\ Parse true (S (List.length tokens)) tokens "" = Ret (it, Some root)
    /\ IsObject root = true.
Proof.
  unfold JSON_try. intros H.
  apply bind_Ret in H as (tokens & L & H).
  apply bind_Ret in H as ([it pRoot] & P & H).
  destruct pRoot as [r|]; [|discriminate].
  destruct (IsObject r) eqn:O; [|discriminate].
  injection H as <-. eauto.
Qed.

Lemma JSON_try_nodes (json : string) (root : Element) :
  JSON_try json = Ret root -> all_nodes node_ok AtRoot root.
Proof.
  intros H. apply JSON_try_Ret in H as (tokens & it & L & P & _).
  apply Lex_tokens in L. apply Parse_sound in P. unfold parse_post in P.
  destruct tokens as [|t tokens]; [discriminate|].
  destruct P as (e & consumed & last & rest & Er & _ & _ & K & T).
  injection Er as _ <-. apply T; auto. reflexivity.
Qed.

(** ** The lexer on a text that is known piece by piece *)

Lemma get_append_l (s t : string) (i : nat) :
  (i < String.length s)%nat -> get i (s ++ t) = get i s.
Proof.
  revert i; induction s as [|a s IH]; intros i H; simpl in *; [lia|].
  destruct i; auto. apply IH. lia.
Qed.

Lemma get_middle (pre s rest : string) (i : nat) :
  (i < String.length s)%nat ->
  get (String.length pre + i) (pre ++ s ++ rest) = get i s.
Proof. intros H. rewrite get_append_r. now apply get_append_l. Qed.

Lemma get_after (pre s : string) (c : ascii) (rest : string) :
  get (String.length pre + String.length s) (pre ++ s ++ String c rest) = Some c.
Proof.
  rewrite get_append_r. replace (String.length s) with (String.length s + 0)%nat by lia.
  now rewrite get_append_r.
Qed.

Lemma substr_middle (pre s rest : string) :
  substr (pre ++ s ++ rest) (String.length pre) (String.length s) = s.
Proof.
  unfold substr. replace (String.length pre) with (String.length pre + 0)%nat by lia.
  rewrite substring_append_r. apply substring_0_append.
Qed.

Lemma Lex_at_end (pre : string) (tokens : list string) :
  Lex_at pre "" tokens = Ret tokens.
Proof.
  unfold Lex_at. rewrite Lex_from_step, append_nil_r.
  now rewrite get_length_None by lia.
Qed.

Lemma Lex_at_move (pre s rest : string) (tokens : list string) :
  Lex_from (pre ++ s ++ rest) (String.length pre + String.length s) tokens
  = Lex_at (pre ++ s) rest tokens.
Proof. unfold Lex_at. now rewrite append_assoc, length_append. Qed.

Lemma Lex_at_structural (pre : string) (c : ascii) (rest : string) (tokens : list string) :
  is_structural c = true ->
  Lex_at pre (String c rest) tokens
  = Lex_at (pre ++ String c "") rest (tokens ++ [String c ""]).
Proof.
  intros St. unfold Lex_at at 1. rewrite Lex_from_step.
  pose proof (get_after pre "" c rest) as G. simpl in G. rewrite Nat.add_0_r in G.
  rewrite G.
  assert (W : is_whitespace c = false).
  { unfold is_structural in St. unfold is_whitespace.
    repeat (apply orb_prop in St as [St|St]);
      apply Ascii.eqb_eq in St; subst c; reflexivity. }
  rewrite W, St.
  pose proof (substr_middle pre (String c "") rest) as E. simpl in E. rewrite E.
  pose proof (Lex_at_move pre (String c "") rest) as M. simpl in M.
  rewrite <- M. now replace (String.length pre + 1)%nat with (S (String.length pre)) by lia.
Qed.

Lemma closing_quote_embed (pre tok rest : string) (o e : nat) :
  (1 <= o)%nat -> (e < String.length tok)%nat ->
  closing_quote tok o e ->
  closing_quote (pre ++ tok ++ rest) (String.length pre + o) (String.length pre + e).
Proof.
  intros Ho He (L & G & Esc & B). unfold closing_quote.
  split; [lia|]. split; [|split].
  - rewrite get_middle by lia. exact G.
  - replace (String.length pre + e - 1)%nat with (String.length pre + (e - 1))%nat by lia.
    rewrite get_middle by lia. exact Esc.
  - intros i Hi Gi.
    replace i with (String.length pre + (i - String.length pre))%nat in Gi by lia.
    rewrite get_middle in Gi by lia.
    replace (i - 1)%nat with (String.length pre + (i - String.length pre - 1))%nat by lia.
    rewrite get_middle by lia.
    replace (i - String.length pre - 1)%nat with (i - String.length pre - 1)%nat by lia.
    apply B; auto. lia.
Qed.

Lemma Lex_at_string (pre v rest : string) (tokens : list string) :
  string_token (String dquote (v ++ String dquote "")) ->
  Lex_at pre (String dquote (v ++ String dquote "") ++ rest) tokens
  = Lex_at (pre ++ String dquote (v ++ String dquote "")) rest
      (tokens ++ [String dquote (v ++ String dquote "")]).
Proof.
  intros (L & _ & C). set (tok := String dquote (v ++ String dquote "")) in *.
  unfold Lex_at at 1. rewrite Lex_from_step.
  assert (G : get (String.length pre) (pre ++ tok ++ rest) = Some dquote).
  { replace (String.length pre) with (String.length pre + 0)%nat by lia.
    rewrite get_middle by lia. reflexivity. }
  rewrite G. change (is_whitespace dquote) with false.
  change (is_structural dquote) with false. rewrite Ascii.eqb_refl.
  apply (closing_quote_embed pre tok rest) in C; [|lia|lia].
  apply FindClosingQuotationMark_Some in C. rewrite C.
  replace (String.length pre + (String.length tok - 1) - String.length pre + 1)%nat
    with (String.length tok) by lia.
  rewrite substr_middle.
  replace (S (String.length pre + (String.length tok - 1)))
    with (String.length pre + String.length tok)%nat by lia.
  apply Lex_at_move.
Qed.

Lemma bare_char_not_closing (c : ascii) : bare_char c = true -> is_closing c = false.
Proof.
  unfold bare_char. intros H. apply andb_prop in H as [H _].
  apply andb_prop in H as [W St]. apply negb_true_iff in W, St.
  now apply bare_not_closing.
Qed.

Lemma string_forallb_get (p : ascii -> bool) (s : string) (i : nat) (x : ascii) :
  string_forallb p s = true -> get i s = Some x -> p x = true.
Proof.
  revert i; induction s as [|a s IH]; intros i H G; simpl in *; [discriminate|].
  apply andb_prop in H as [Ha H]. destruct i.
  - now injection G as <-.
  - eauto.
Qed.

Lemma Lex_at_bare (pre tok rest : string) (tokens : list string) :
  tok <> "" -> string_forallb bare_char tok = true -> starts_closing rest ->
  Lex_at pre (tok ++ rest) tokens = Lex_at (pre ++ tok) rest (tokens ++ [tok]).
Proof.
  intros N B (c & r & -> & C).
  destruct tok as [|a tok'] eqn:Et; [congruence|]. rewrite <- Et in *.
  assert (Ba : bare_char a = true).
  { rewrite Et in B. simpl in B. now apply andb_prop in B as [B _]. }
  unfold Lex_at at 1. rewrite Lex_from_step.
  assert (G : get (String.length pre) (pre ++ tok ++ String c r) = Some a).
  { replace (String.length pre) with (String.length pre + 0)%nat by lia.
    rewrite get_middle; rewrite Et; simpl; auto; lia. }
  rewrite G. unfold bare_char in Ba.
  apply andb_prop in Ba as [Ba Q]. apply andb_prop in Ba as [W St].
  apply negb_true_iff in W, St, Q. rewrite W, St, Q.
  assert (F : first_closing (pre ++ tok ++ String c r) (String.length pre)
                (String.length pre + String.length tok)).
  { split; [lia|]. split.
    - exists c. split; auto. apply get_after.
    - intros i x Hi Gi.
      replace i with (String.length pre + (i - String.length pre))%nat in Gi by lia.
      rewrite get_middle in Gi by lia.
      apply bare_char_not_closing. eapply string_forallb_get; eauto. }
  apply FindClosingCharacter_Some in F. rewrite F.
  replace (String.length pre + String.length tok - String.length pre)%nat
    with (String.length tok) by lia.
  rewrite substr_middle. apply Lex_at_move.
Qed.

(** ** The text of an integer, and numeral tokens *)

Lemma valid_char_elim (P : ascii -> Prop) :
  P "1"%char -> P "2"%char -> P "3"%char -> P "4"%char -> P "5"%char ->
  P "6"%char -> P "7"%char -> P "8"%char -> P "9"%char -> P "0"%char ->
  P "+"%char -> P "-"%char -> P "."%char -> P "e"%char -> P "E"%char ->
  forall c, string_mem c validChars = true -> P c.
Proof.
  intros. unfold validChars in *. cbn [string_mem] in *.
  repeat match goal with
         | H : (_ || _) = true |- _ => apply orb_prop in H as [H|H]
         | H : Ascii.eqb _ _ = true |- _ => apply Ascii.eqb_eq in H; subst c; assumption
         end.
  discriminate.
Qed.

Lemma valid_char_not_space (c : ascii) :
  string_mem c validChars = true -> isspace c = false.
Proof. revert c. apply valid_char_elim; reflexivity. Qed.

Lemma valid_number_skip_space (tok : string) :
  IsValidNumber tok = true -> skip_space tok = tok.
Proof.
  destruct tok as [|c tok]; auto. unfold IsValidNumber. cbn [string_forallb].
  intros H. apply andb_prop in H as [H _]. cbn [skip_space].
  now rewrite (valid_char_not_space c H).
Qed.

Lemma string_forallb_impl (p q : ascii -> bool) (s : string) :
  (forall c, p c = true -> q c = true) ->
  string_forallb p s = true -> string_forallb q s = true.
Proof.
  intros I. induction s as [|a s IH]; simpl; auto. intros H.
  apply andb_prop in H as [Ha H]. now rewrite (I a Ha), IH.
Qed.

Lemma valid_number_bare (s : string) :
  IsValidNumber s = true -> string_forallb bare_char s = true.
Proof.
  apply string_forallb_impl. apply valid_char_elim; reflexivity.
Qed.

(** A numeral token is taken for nothing but a number by [Parse]. *)
Lemma Parse_number (bAccept : bool) (depth : nat) (tok : string) (rest : list string)
  (key : string) :
  IsValidNumber tok = true ->
  Parse bAccept (S depth) (tok :: rest) key
  = some_element (ParseNumberElement (tok :: rest) key).
Proof.
  intros V. cbn [Parse]. rewrite V.
  destruct tok as [|c tok]; [reflexivity|].
  unfold IsValidNumber in V. cbn [string_forallb] in V. apply andb_prop in V as [V _].
  revert c V. apply valid_char_elim;
    cbn [String.eqb Ascii.eqb Bool.eqb andb String.length Nat.ltb Nat.leb front get is_char];
    unfold EqualIgnoreCase; cbn [std_equal];
    rewrite ?andb_false_r; reflexivity.
Qed.

Lemma uint_forallb (p : ascii -> bool) (d : Decimal.uint) :
  p "0"%char = true -> p "1"%char = true -> p "2"%char = true -> p "3"%char = true ->
  p "4"%char = true -> p "5"%char = true -> p "6"%char = true -> p "7"%char = true ->
  p "8"%char = true -> p "9"%char = true ->
  string_forallb p (NilEmpty.string_of_uint d) = true.
Proof.
  intros. induction d; simpl; auto; rewrite IHd; simpl;
    try rewrite andb_true_r; assumption.
Qed.

Lemma digits_value_uint (d : Decimal.uint) (acc : N) :
  digits_value (NilEmpty.string_of_uint d) acc
  = (Unsigned.of_lu (Decimal.rev d) + acc * 10 ^ Unsigned.usize d)%N.
Proof.
  revert acc. induction d; intros acc;
    [simpl; now rewrite N.mul_1_r|..];
    unfold Decimal.rev; cbn [Decimal.revapp NilEmpty.string_of_uint digits_value];
    rewrite Unsigned.of_lu_revapp;
    match goal with
    | |- context [isdigit ?c] => change (isdigit c) with true
    end; cbn iota;
    match goal with
    | |- context [digit_value ?c] =>
        let v := eval vm_compute in (digit_value c) in change (digit_value c) with v
    end;
    rewrite IHd; cbn [Unsigned.of_lu Unsigned.usize];
    rewrite N.pow_succ_r'; lia.
Qed.

Lemma digits_value_to_uint (p : positive) :
  digits_value (NilEmpty.string_of_uint (Pos.to_uint p)) 0 = Npos p.
Proof.
  rewrite digits_value_uint, N.mul_0_l, N.add_0_r, <- Unsigned.of_uint_alt.
  apply Unsigned.of_to.
Qed.

Lemma to_string_ll_pos (p : positive) :
  to_string_ll (Zpos p) = NilEmpty.string_of_uint (Pos.to_uint p).
Proof.
  unfold to_string_ll. simpl. unfold NilZero.string_of_uint.
  pose proof (Unsigned.to_uint_nonnil p). now destruct (Pos.to_uint p).
Qed.

Lemma to_string_ll_neg (p : positive) :
  to_string_ll (Zneg p) = String "-"%char (NilEmpty.string_of_uint (Pos.to_uint p)).
Proof.
  unfold to_string_ll. simpl. unfold NilZero.string_of_uint.
  pose proof (Unsigned.to_uint_nonnil p). now destruct (Pos.to_uint p).
Qed.

Lemma uint_text_nonempty (p : positive) :
  exists c s, NilEmpty.string_of_uint (Pos.to_uint p) = String c s.
Proof.
  pose proof (Unsigned.to_uint_nonnil p). destruct (Pos.to_uint p); simpl; eauto.
  congruence.
Qed.

Lemma to_string_ll_valid (z : Z) :
  IsValidNumber (to_string_ll z) = true /\ IsValidDecimal (to_string_ll z) = false.
Proof.
  assert (D : forall d, string_mem "."%char (NilEmpty.string_of_uint d) = false).
  { induction d; simpl; auto. }
  unfold IsValidNumber, IsValidDecimal. destruct z as [|p|p].
  - split; reflexivity.
  - rewrite to_string_ll_pos. split; [apply uint_forallb; reflexivity|apply D].
  - rewrite to_string_ll_neg. cbn [string_forallb string_mem]. split.
    + rewrite uint_forallb; reflexivity.
    + now rewrite D.
Qed.

Lemma stoll_to_string_ll (z : Z) :
  (LLONG_MIN <= z <= LLONG_MAX)%Z -> stoll (to_string_ll z) = Converted z.
Proof.
  intros [R1 R2]. apply Z.leb_le in R1, R2.
  unfold stoll. rewrite (valid_number_skip_space _ (proj1 (to_string_ll_valid z))).
  destruct z as [|p|p].
  - reflexivity.
  - rewrite to_string_ll_pos.
    destruct (uint_text_nonempty p) as (c & s & E).
    assert (Dg : isdigit c = true).
    { pose proof (uint_forallb isdigit (Pos.to_uint p)) as F. rewrite E in F.
      simpl in F. assert (T : isdigit c && string_forallb isdigit s = true)
        by (apply F; reflexivity).
      now apply andb_prop in T. }
    assert (Sg : read_sign (String c s) = (false, String c s)).
    { unfold read_sign. unfold isdigit in Dg. apply andb_prop in Dg as [D1 D2].
      apply Nat.leb_le in D1, D2.
      destruct (Ascii.eqb_spec c "-"%char) as [->|];
        [change (nat_of_ascii "-"%char) with 45%nat in D1; lia|].
      destruct (Ascii.eqb_spec c "+"%char) as [->|];
        [change (nat_of_ascii "+"%char) with 43%nat in D1; lia|].
      reflexivity. }
    rewrite E, Sg. cbn [starts_with_digit]. rewrite Dg, <- E, digits_value_to_uint.
    change (Z.of_N (N.pos p)) with (Z.pos p). now rewrite R1, R2.
  - rewrite to_string_ll_neg. cbn [read_sign]. simpl Ascii.eqb. cbn iota.
    destruct (uint_text_nonempty p) as (c & s & E).
    assert (Dg : isdigit c = true).
    { pose proof (uint_forallb isdigit (Pos.to_uint p)) as F. rewrite E in F.
      simpl in F. assert (T : isdigit c && string_forallb isdigit s = true)
        by (apply F; reflexivity).
      now apply andb_prop in T. }
    rewrite E. cbn [starts_with_digit]. rewrite Dg, <- E, digits_value_to_uint.
    change (- Z.of_N (N.pos p))%Z with (Z.neg p). now rewrite R1, R2.
Qed.

Lemma find_last_of_mem (c : ascii) (s : string) :
  string_mem c s = true -> exists pos, find_last_of c s = Some pos.
Proof.
  induction s as [|a s IH]; simpl; [discriminate|]. intros H.
  destruct (find_last_of c s) as [p|]; [eauto|].
  rewrite Ascii.eqb_sym. destruct (Ascii.eqb c a); [eauto|].
  simpl in H. destruct (IH H) as [p E]. discriminate.
Qed.

Lemma find_last_of_lt (c : ascii) (s : string) (pos : nat) :
  find_last_of c s = Some pos -> (pos < String.length s)%nat.
Proof.
  revert pos. induction s as [|a s IH]; simpl; intros pos F; [discriminate|].
  destruct (find_last_of c s) as [q|].
  - injection F as <-. specialize (IH q eq_refl). lia.
  - destruct (Ascii.eqb a c); [injection F as <-; lia|discriminate].
Qed.

Lemma count_digits_all (s : string) :
  string_forallb isdigit s = true -> count_digits s = String.length s.
Proof.
  induction s as [|c s IH]; simpl; auto. intros H.
  apply andb_prop in H as [-> H]. now rewrite IH.
Qed.

Lemma length_after_last_dot (tok : string) :
  String.length (after_last_dot tok) = chars_after_last_dot tok.
Proof.
  unfold after_last_dot, chars_after_last_dot, substr.
  destruct (find_last_of "."%char tok) as [pos|] eqn:F; [|reflexivity].
  apply find_last_of_lt in F. apply length_substring. lia.
Qed.

(** ** The lexer on a serialization *)

Lemma ToString_body (e : Element) : ToString e = FormatKey (m_Key e) ++ body_text e.
Proof. destruct e; reflexivity. Qed.

Lemma FormatKey_quote (key : string) :
  key <> "" -> FormatKey key = quote key ++ ":" /\ key_tokens key = [quote key; ":"].
Proof.
  intros N. unfold FormatKey, key_tokens, quote.
  destruct key as [|a key]; [congruence|]. simpl. rewrite append_assoc. auto.
Qed.

Lemma starts_closing_join (texts : list string) (rest : string) :
  starts_closing rest -> starts_closing (join_children false texts ++ rest).
Proof.
  intros C. destruct texts as [|t texts]; simpl; auto.
  exists ","%char. eexists. split; reflexivity.
Qed.

Lemma Lex_FormatKey (p : position) (key : string) (pre rest : string)
  (tokens : list string) :
  key_ok p key ->
  Lex_at pre (FormatKey key ++ rest) tokens
  = Lex_at (pre ++ FormatKey key) rest (tokens ++ key_tokens key).
Proof.
  intros K.
  assert (E : key = "" -> Lex_at pre (FormatKey key ++ rest) tokens
                          = Lex_at (pre ++ FormatKey key) rest (tokens ++ key_tokens key)).
  { intros ->. simpl. now rewrite append_nil_r, List.app_nil_r. }
  destruct p; simpl in K; auto.
  destruct K as (N & T). destruct (FormatKey_quote key N) as [-> ->].
  rewrite append_assoc. unfold quote at 1. rewrite (Lex_at_string _ _ _ _ T).
  change (":" ++ rest) with (String ":"%char rest).
  rewrite Lex_at_structural by reflexivity.
  now rewrite !append_assoc, <- !List.app_assoc.
Qed.

Lemma Lex_children (cs : list Element) :
  Forall (fun c => forall pre rest tokens, starts_closing rest ->
            Lex_at pre (ToString c ++ rest) tokens
            = Lex_at (pre ++ ToString c) rest (tokens ++ element_tokens c)) cs ->
  forall bFirst pre rest tokens, starts_closing rest ->
    Lex_at pre (join_children bFirst (map ToString cs) ++ rest) tokens
    = Lex_at (pre ++ join_children bFirst (map ToString cs)) rest
        (tokens ++ join_tokens bFirst (map element_tokens cs)).
Proof.
  induction 1 as [|c cs Hc Hcs IH]; intros bFirst pre rest tokens C.
  - simpl. now rewrite append_nil_r, List.app_nil_r.
  - cbn [map join_children join_tokens].
    assert (step : forall pre tokens,
              Lex_at pre ((ToString c ++ join_children false (map ToString cs)) ++ rest)
                tokens
              = Lex_at (pre ++ ToString c ++ join_children false (map ToString cs)) rest
                  (tokens ++ element_tokens c
                     ++ join_tokens false (map element_tokens cs))).
    { intros pre' tokens'. rewrite append_assoc.
      rewrite Hc by now apply starts_closing_join.
      rewrite IH by assumption.
      now rewrite !append_assoc, <- !List.app_assoc. }
    destruct bFirst.
    + simpl. apply step.
    + change (("," ++ ToString c ++ join_children false (map ToString cs)) ++ rest)
        with (String ","%char
                ((ToString c ++ join_children false (map ToString cs)) ++ rest)).
      rewrite Lex_at_structural by reflexivity. rewrite step.
      rewrite !append_assoc, <- !List.app_assoc. reflexivity.
Qed.

Lemma to_string_ll_nonempty (z : Z) : to_string_ll z <> "".
Proof.
  destruct z as [|p|p].
  - discriminate.
  - rewrite to_string_ll_pos. destruct (uint_text_nonempty p) as (c & s & ->).
    discriminate.
  - rewrite to_string_ll_neg. discriminate.
Qed.

Lemma valid_decimal_nonempty (s : string) : IsValidDecimal s = true -> s <> "".
Proof. intros D ->. discriminate. Qed.

(** The text of an element that parsing produced is lexed into the tokens
    of the element, whatever stands before it; after the text of a String, a
    Number, a Bool or a Null must come a character that ends a bare value. *)
Lemma Lex_ToString (e : Element) :
  forall p, all_nodes node_good p e ->
  forall pre rest tokens,
    IsObject e = true \/ IsArray e = true \/ starts_closing rest ->
    Lex_at pre (ToString e ++ rest) tokens
    = Lex_at (pre ++ ToString e) rest (tokens ++ element_tokens e).
Proof.
  induction e as [key cs IH|key es IH|key v|key n|key b|key] using Element_induction;
    intros p W pre rest tokens C;
    pose proof (all_nodes_root _ _ _ W) as [[K V] D];
    rewrite ToString_body; unfold element_tokens;
    rewrite append_assoc, (Lex_FormatKey p) by exact K;
    cbn [m_Key body_text value_tokens].
  - apply all_nodes_object in W as [_ W].
    assert (F : Forall (fun c => forall pre rest tokens, starts_closing rest ->
                  Lex_at pre (ToString c ++ rest) tokens
                  = Lex_at (pre ++ ToString c) rest (tokens ++ element_tokens c)) cs).
    { rewrite Forall_forall in *. intros c I pre' rest' tokens' C'.
      apply (IH c I InObject); auto. }
    change (("{" ++ join_children true (map ToString cs) ++ "}") ++ rest)
      with (String "{"%char ((join_children true (map ToString cs) ++ "}") ++ rest)).
    rewrite Lex_at_structural by reflexivity.
    rewrite (append_assoc (join_children true (map ToString cs)) "}" rest).
    rewrite (Lex_children cs F) by (exists "}"%char; eexists; split; reflexivity).
    change ("}" ++ rest) with (String "}"%char rest).
    rewrite Lex_at_structural by reflexivity.
    change (map (fun c => key_tokens (m_Key c) ++ value_tokens c)%list cs)
      with (map element_tokens cs).
    cbn [app]. rewrite !append_assoc, <- !List.app_assoc. reflexivity.
  - apply all_nodes_array in W as [_ W].
    assert (F : Forall (fun c => forall pre rest tokens, starts_closing rest ->
                  Lex_at pre (ToString c ++ rest) tokens
                  = Lex_at (pre ++ ToString c) rest (tokens ++ element_tokens c)) es).
    { rewrite Forall_forall in *. intros c I pre' rest' tokens' C'.
      apply (IH c I InArray); auto. }
    change (("[" ++ join_children true (map ToString es) ++ "]") ++ rest)
      with (String "["%char ((join_children true (map ToString es) ++ "]") ++ rest)).
    rewrite Lex_at_structural by reflexivity.
    rewrite (append_assoc (join_children true (map ToString es)) "]" rest).
    rewrite (Lex_children es F) by (exists "]"%char; eexists; split; reflexivity).
    change ("]" ++ rest) with (String "]"%char rest).
    rewrite Lex_at_structural by reflexivity.
    change (map (fun c => key_tokens (m_Key c) ++ value_tokens c)%list es)
      with (map element_tokens es).
    cbn [app]. rewrite !append_assoc, <- !List.app_assoc. reflexivity.
  - destruct C as [C|[C|C]]; try discriminate.
    simpl in V. destruct V as [_ T]. unfold quote at 1.
    rewrite (Lex_at_string _ _ _ _ T). fold (quote v).
    now rewrite !append_assoc, <- !List.app_assoc.
  - destruct C as [C|[C|C]]; try discriminate.
    assert (B : Number_ToString n <> ""
                /\ string_forallb bare_char (Number_ToString n) = true).
    { destruct n as [|i|d prec]; simpl in V, D.
      - contradiction.
      - split; [apply to_string_ll_nonempty|].
        apply valid_number_bare, to_string_ll_valid.
      - destruct D as (VN & VD & _). split.
        + now apply valid_decimal_nonempty.
        + now apply valid_number_bare. }
    destruct B as [N B]. rewrite Lex_at_bare by assumption.
    now rewrite !append_assoc, <- !List.app_assoc.
  - destruct C as [C|[C|C]]; try discriminate.
    rewrite Lex_at_bare; [|now destruct b|now destruct b|assumption].
    now rewrite !append_assoc, <- !List.app_assoc.
  - destruct C as [C|[C|C]]; try discriminate.
    rewrite Lex_at_bare; [|discriminate|reflexivity|assumption].
    now rewrite !append_assoc, <- !List.app_assoc.
Qed.

(** ** The parser on the tokens of a serialization *)

Lemma quoted_quote (v : string) :
  v <> "" ->
  quoted (quote v) = true /\ substr (quote v) 1 (String.length (quote v) - 2) = v.
Proof.
  intros N. unfold quoted, quote, front, back, substr.
  assert (L : String.length (String dquote (v ++ String dquote "")) = S (S (String.length v))).
  { simpl. rewrite length_append. simpl. lia. }
  rewrite L. split.
  - destruct v as [|a v]; [congruence|].
    replace (2 <? S (S (String.length (String a v))))%nat with true
      by (symmetry; apply Nat.ltb_lt; simpl; lia).
    cbn [get is_char andb]. rewrite Ascii.eqb_refl.
    replace (S (S (String.length (String a v))) - 1)%nat
      with (S (String.length (String a v))) by lia.
    cbn [get]. pose proof (get_after "" (String a v) dquote "") as G.
    change (String.length "" + String.length (String a v))%nat
      with (String.length (String a v)) in G.
    change ("" ++ String a v ++ String dquote "") with (String a v ++ String dquote "") in G.
    rewrite G. cbn [is_char andb]. apply Ascii.eqb_refl.
  - replace (S (S (String.length v)) - 2)%nat with (String.length v) by lia.
    cbn [substring]. apply substring_0_append.
Qed.

Lemma quote_not_separator (v : string) :
  String.eqb (quote v) "}" = false /\ String.eqb (quote v) "," = false
  /\ String.eqb (quote v) "{" = false /\ String.eqb (quote v) "[" = false
  /\ String.eqb (quote v) "]" = false.
Proof. repeat split. Qed.

Lemma ParseKey_quote (key : string) (it : list string) :
  key <> "" -> ParseKey (quote key :: ":" :: it) = Ret (it, key).
Proof.
  intros N. destruct (quoted_quote key N) as [Q E].
  unfold ParseKey. now rewrite Q, E.
Qed.

Lemma Parse_string (bAccept : bool) (depth : nat) (v : string) (rest : list string)
  (key : string) :
  v <> "" ->
  Parse bAccept (S depth) (quote v :: rest) key
  = Ret (quote v :: rest, Some (StringElement key v)).
Proof.
  intros N. destruct (quoted_quote v N) as [Q E].
  cbn [Parse]. destruct (quote_not_separator v) as (_ & _ & -> & -> & _).
  change ((0 <? String.length (quote v))%nat && is_char dquote (front (quote v)))
    with true. cbn iota.
  unfold some_element, ParseStringElement. now rewrite Q, E.
Qed.

Lemma ParseNumberElement_integer (z : Z) (rest : list string) (key : string) :
  (LLONG_MIN <= z <= LLONG_MAX)%Z ->
  ParseNumberElement (to_string_ll z :: rest) key
  = Ret (to_string_ll z :: rest, NumberElement key (TYPE_INTEGER z)).
Proof.
  intros R. unfold ParseNumberElement.
  rewrite (proj2 (to_string_ll_valid z)). now rewrite stoll_to_string_ll.
Qed.

Lemma ParseNumberElement_decimal (s : string) (d : LD) (rest : list string)
  (key : string) :
  IsValidDecimal s = true -> stold s = Converted d ->
  ParseNumberElement (s :: rest) key
  = Ret (s :: rest,
         NumberElement key (TYPE_DECIMAL d (Z.of_nat (chars_after_last_dot s)))).
Proof.
  intros D S. unfold ParseNumberElement, chars_after_last_dot. rewrite D, S.
  destruct (find_last_of_mem "."%char s D) as [pos F]. now rewrite F.
Qed.

Lemma Parse_separator_fails (bAccept : bool) (depth : nat) (tok : string)
  (rest : list string) (key : string) (r : parsed) :
  tok = "}" \/ tok = "]" \/ tok = "," ->
  Parse bAccept depth (tok :: rest) key <> Ret r.
Proof.
  intros [->|[->| ->]]; destruct depth; discriminate.
Qed.

Lemma join_tokens_head (tss : list (list string)) (closer : string) (rest : list string) :
  exists nx R, (join_tokens false tss ++ closer :: rest)%list = nx :: R
               /\ (nx = "," \/ nx = closer).
Proof.
  destruct tss as [|ts tss]; simpl; eauto.
Qed.

Lemma ObjectLoop_tokens (cs : list Element) :
  Forall (fun c => text_ok (m_Key c) /\ reparses c) cs ->
  forall bFirst t0 acc rest n depth,
    let it := (t0 :: join_tokens bFirst (map element_tokens cs) ++ "}" :: rest)%list in
    (List.length it <= n)%nat -> (List.length it <= depth)%nat ->
    exists cs',
      ObjectLoop (Parse true depth) n it acc = Ret ("}" :: rest, (acc ++ cs')%list)
      /\ map ToString cs' = map ToString cs.
Proof.
  induction 1 as [|c cs [[Nk _] Hc] Hcs IH]; intros bFirst t0 acc rest n depth it Ln Ld;
    subst it.
  - simpl in *. destruct n as [|n]; [lia|]. exists []. rewrite List.app_nil_r. auto.
  - cbn [map join_tokens] in *.
    set (R := (join_tokens false (map element_tokens cs) ++ "}" :: rest)%list) in *.
    assert (member : forall t0' n' acc',
      (List.length (t0' :: quote (m_Key c) :: ":" :: value_tokens c ++ R) <= n')%nat ->
      (List.length (t0' :: quote (m_Key c) :: ":" :: value_tokens c ++ R) <= depth)%nat ->
      exists cs',
        ObjectLoop (Parse true depth) n'
          (t0' :: quote (m_Key c) :: ":" :: value_tokens c ++ R)%list acc'
        = Ret ("}" :: rest, (acc' ++ cs')%list)
        /\ map ToString cs' = ToString c :: map ToString cs).
    { intros t0' n' acc' Ln' Ld'. destruct n' as [|n']; [simpl in Ln'; lia|].
      cbn [ObjectLoop].
      destruct (quote_not_separator (m_Key c)) as (-> & -> & _). cbn [negb].
      rewrite (ParseKey_quote _ _ Nk). cbn [bind].
      destruct (Hc depth R (m_Key c)) as (c' & last & P & B & K & _);
        [simpl in Ld'; lia|].
      rewrite P. cbn [bind].
      destruct (join_tokens_head (map element_tokens cs) "}" rest)
        as (nx & R' & ER & Hnx). fold R in ER.
      assert (LR : (List.length (last :: R) <= List.length (value_tokens c ++ R))%nat).
      { apply Parse_sound in P. unfold parse_post in P.
        destruct (value_tokens c ++ R)%list as [|x xs] eqn:Ev; [discriminate|].
        destruct P as (? & consumed & ? & ? & Er & Ei & _). injection Er as <- <- _.
        rewrite Ei, List.length_app. simpl. lia. }
      rewrite ER.
      replace (negb (String.eqb nx ",") && negb (String.eqb nx "}")) with false
        by (destruct Hnx as [-> | ->]; reflexivity).
      rewrite <- ER.
      destruct (IH false last (acc' ++ [c'])%list rest n' depth) as (cs' & L & M);
        [fold R; simpl in *; lia|fold R; simpl in *; lia|].
      fold R in L. rewrite L. exists (c' :: cs').
      rewrite <- List.app_assoc. split; [reflexivity|].
      cbn [map]. rewrite M. f_equal.
      now rewrite !ToString_body, K, B. }
    destruct (FormatKey_quote _ Nk) as [_ Ek].
    unfold element_tokens at 1. rewrite Ek.
    destruct bFirst.
    + cbn [app]. rewrite <- List.app_assoc. apply member.
      * cbn [app] in Ln. rewrite <- List.app_assoc in Ln.
        unfold element_tokens in Ln at 1. rewrite Ek in Ln. exact Ln.
      * cbn [app] in Ld. rewrite <- List.app_assoc in Ld.
        unfold element_tokens in Ld at 1. rewrite Ek in Ld. exact Ld.
    + cbn [app]. rewrite <- List.app_assoc.
      cbn [app] in Ln, Ld. rewrite <- List.app_assoc in Ln, Ld.
      unfold element_tokens in Ln at 1. unfold element_tokens in Ld at 1.
      rewrite Ek in Ln, Ld. cbn [app] in Ln, Ld.
      destruct n as [|n]; [simpl in Ln; lia|].
      cbn [ObjectLoop]. cbn [String.eqb Ascii.eqb Bool.eqb negb].
      apply member; unfold R; cbn [List.length] in *; lia.
Qed.

Lemma ArrayLoop_tokens (es : list Element) :
  Forall (fun c => m_Key c = "" /\ reparses c) es ->
  forall bFirst t0 acc rest n depth,
    let it := (t0 :: join_tokens bFirst (map element_tokens es) ++ "]" :: rest)%list in
    (List.length it <= n)%nat -> (List.length it <= depth)%nat ->
    exists es',
      ArrayLoop (Parse true depth) n it acc = Ret ("]" :: rest, (acc ++ es')%list)
      /\ map ToString es' = map ToString es.
Proof.
  induction 1 as [|c es [Ek Hc] Hes IH]; intros bFirst t0 acc rest n depth it Ln Ld;
    subst it.
  - simpl in *. destruct n as [|n]; [lia|]. exists []. rewrite List.app_nil_r. auto.
  - cbn [map join_tokens] in *.
    set (R := (join_tokens false (map element_tokens es) ++ "]" :: rest)%list) in *.
    assert (Et : element_tokens c = value_tokens c).
    { unfold element_tokens. now rewrite Ek. }
    rewrite Et in *.
    assert (item : forall t0' n' acc',
      (List.length (t0' :: value_tokens c ++ R) <= n')%nat ->
      (List.length (t0' :: value_tokens c ++ R) <= depth)%nat ->
      exists es',
        ArrayLoop (Parse true depth) n' (t0' :: value_tokens c ++ R)%list acc'
        = Ret ("]" :: rest, (acc' ++ es')%list)
        /\ map ToString es' = ToString c :: map ToString es).
    { intros t0' n' acc' Ln' Ld'. destruct n' as [|n']; [simpl in Ln'; lia|].
      destruct (Hc depth R "") as (c' & last & P & B & K & _);
        [simpl in Ld'; lia|].
      assert (LR : (List.length (last :: R) <= List.length (value_tokens c ++ R))%nat).
      { pose proof P as P'. apply Parse_sound in P'. unfold parse_post in P'.
        destruct (value_tokens c ++ R)%list as [|x xs] eqn:Ev;
          [cbn in P'; discriminate|].
        destruct P' as (? & consumed & ? & ? & Er & Ei & _). injection Er as <- <- _.
        rewrite Ei, List.length_app. simpl. lia. }
      destruct (value_tokens c ++ R)%list as [|tok it1] eqn:Ev;
        [destruct depth; discriminate|].
      cbn [ArrayLoop].
      destruct (String.eqb_spec tok "]") as [->|_].
      { exfalso. eapply Parse_separator_fails; [|exact P]. auto. }
      destruct (String.eqb_spec tok ",") as [->|_].
      { exfalso. eapply Parse_separator_fails; [|exact P]. auto. }
      cbn [negb]. rewrite P. cbn [bind].
      destruct (join_tokens_head (map element_tokens es) "]" rest)
        as (nx & R' & ER & Hnx). fold R in ER.
      rewrite ER.
      replace (negb (String.eqb nx ",") && negb (String.eqb nx "]")) with false
        by (destruct Hnx as [-> | ->]; reflexivity).
      rewrite <- ER.
      destruct (IH false last (acc' ++ [c'])%list rest n' depth) as (es' & L & M);
        [fold R; simpl in *; lia|fold R; simpl in *; lia|].
      fold R in L. rewrite L. exists (c' :: es').
      rewrite <- List.app_assoc. split; [reflexivity|].
      cbn [map]. rewrite M. f_equal.
      now rewrite !ToString_body, K, Ek, B. }
    destruct bFirst.
    + cbn [app]. rewrite <- List.app_assoc. apply item.
      * cbn [app] in Ln. rewrite <- List.app_assoc in Ln. exact Ln.
      * cbn [app] in Ld. rewrite <- List.app_assoc in Ld. exact Ld.
    + cbn [app]. rewrite <- List.app_assoc.
      cbn [app] in Ln, Ld. rewrite <- List.app_assoc in Ln, Ld.
      destruct n as [|n]; [simpl in Ln; lia|].
      cbn [ArrayLoop]. cbn [String.eqb Ascii.eqb Bool.eqb negb].
      apply item; unfold R; cbn [List.length] in *; lia.
Qed.

(** The tokens of an element that parsing produced, whose decimal numbers
    read back, parse to an element with the same text. *)
Lemma Parse_tokens (e : Element) :
  forall p, all_nodes node_good p e -> reparses e.
Proof.
  induction e as [key0 cs IH|key0 es IH|key0 v|key0 n|key0 b|key0]
    using Element_induction;
    intros p W depth rest key L;
    pose proof (all_nodes_root _ _ _ W) as [[K V] D];
    (destruct depth as [|depth]; [lia|]).
  - apply all_nodes_object in W as [_ W].
    assert (F : Forall (fun c => text_ok (m_Key c) /\ reparses c) cs).
    { rewrite Forall_forall in *. intros c I. split.
      - exact (proj1 (proj1 (all_nodes_root _ _ _ (W c I)))).
      - exact (IH c I InObject (W c I)). }
    cbn [value_tokens] in *.
    change (map (fun c => key_tokens (m_Key c) ++ value_tokens c)%list cs)
      with (map element_tokens cs) in *.
    cbn [app] in *. rewrite <- List.app_assoc in *. cbn [app] in *.
    cbn [Parse String.eqb Ascii.eqb Bool.eqb].
    unfold some_element, ParseObjectElement.
    cbn [String.eqb Ascii.eqb Bool.eqb negb].
    destruct (ObjectLoop_tokens cs F true "{" [] rest
                (List.length ("{" :: join_tokens true (map element_tokens cs)
                                ++ "}" :: rest)) depth) as (cs' & E & M);
      [lia|lia|].
    rewrite E. cbn [bind app]. exists (ObjectElement key cs'), "}".
    split; [reflexivity|]. split; [|split; reflexivity].
    cbn [body_text]. now rewrite M.
  - apply all_nodes_array in W as [_ W].
    assert (F : Forall (fun c => m_Key c = "" /\ reparses c) es).
    { rewrite Forall_forall in *. intros c I. split.
      - exact (proj1 (proj1 (all_nodes_root _ _ _ (W c I)))).
      - exact (IH c I InArray (W c I)). }
    cbn [value_tokens] in *.
    change (map (fun c => key_tokens (m_Key c) ++ value_tokens c)%list es)
      with (map element_tokens es) in *.
    cbn [app] in *. rewrite <- List.app_assoc in *. cbn [app] in *.
    cbn [Parse String.eqb Ascii.eqb Bool.eqb].
    unfold some_element, ParseArrayElement.
    cbn [String.eqb Ascii.eqb Bool.eqb negb].
    destruct (ArrayLoop_tokens es F true "[" [] rest
                (List.length ("[" :: join_tokens true (map element_tokens es)
                                ++ "]" :: rest)) depth) as (es' & E & M);
      [lia|lia|].
    rewrite E. cbn [bind app]. exists (ArrayElement key es'), "]".
    split; [reflexivity|]. split; [|split; reflexivity].
    cbn [body_text]. now rewrite M.
  - simpl in V. destruct V as [N _]. cbn [value_tokens app].
    rewrite (Parse_string _ _ _ _ _ N). eexists _, _. repeat split.
  - cbn [value_tokens app]. destruct n as [|i|d prec]; simpl in V, D.
    + contradiction.
    + rewrite Parse_number by apply to_string_ll_valid.
      cbn [Number_ToString]. rewrite (ParseNumberElement_integer _ _ _ V).
      eexists _, _. repeat split.
    + destruct D as (VN & VD & d' & S & T).
      rewrite Parse_number by exact VN.
      rewrite (ParseNumberElement_decimal _ _ _ _ VD S).
      eexists _, _. split; [reflexivity|]. split; [|split; reflexivity].
      cbn [body_text]. exact T.
  - cbn [value_tokens app]. destruct b; eexists _, _; repeat split.
  - cbn [value_tokens app]. eexists _, _; repeat split.
Qed.

(** ** The round trip *)

(** When a document parses and the decimal numbers of its tree read back to
    numbers with the same text, the serialization of the tree parses, to a
    tree with the same serialization. *)
Lemma round_trip (json : string) (root : Element) :
  JSON_try json = Ret root -> decimals_stable root ->
  exists root',
    JSON_try (ToString root) = Ret root' /\ ToString root' = ToString root.
Proof.
  intros H D.
  pose proof (JSON_try_nodes _ _ H) as W.
  apply JSON_try_Ret in H as (_ & _ & _ & _ & O).
  assert (G : all_nodes node_good AtRoot root).
  { intros p e I. split; [exact (W p e I)|exact (D p e I)]. }
  assert (Lx : Lex (ToString root) = Ret (value_tokens root)).
  { rewrite Lex_is_Lex_from. change (Lex_from (ToString root) 0 [])
      with (Lex_at "" (ToString root) []).
    rewrite <- (append_nil_r (ToString root)) at 1.
    rewrite (Lex_ToString root AtRoot G) by auto.
    rewrite Lex_at_end. unfold element_tokens.
    destruct (all_nodes_root _ _ _ W) as [K _]. simpl in K. now rewrite K. }
  destruct (Parse_tokens root AtRoot G (S (List.length (value_tokens root))) [] "")
    as (root' & last & P & B & K & O').
  { rewrite List.app_nil_r. lia. }
  rewrite List.app_nil_r in P.
  exists root'. unfold JSON_try. rewrite Lx. cbn [bind]. rewrite P. cbn [bind].
  rewrite O', O. split; [reflexivity|].
  destruct (all_nodes_root _ _ _ W) as [Kr _]. simpl in Kr.
  now rewrite !ToString_body, K, Kr, B.
Qed.

(** ** The properties of the specification *)

(** C2, on the code: with case-insensitive literals accepted, as the
    constructor sets it, the document with the member a : True parses, and
    the Bool element it produces stores false. [Parse] accepts the token
    with [EqualIgnoreCase] and then compares its first character with the
    lower-case letter t alone. *)
Theorem C2_True_is_stored_as_false :
  JSON_try (json_text "{'a':True}")
  = Ret (ObjectElement "" [BoolElement "a" false])
  /\ (forall (tok key : string) (it : list string) (depth : nat),
        EqualIgnoreCase tok "true" = true ->
        Parse true (S depth) (tok :: it) key
        = Ret (tok :: it, Some (BoolElement key (is_char "t"%char (front tok))))).
Proof.
  split; [reflexivity|].
  intros tok key it depth E. cbn [Parse].
  pose proof (EqualIgnoreCase_length _ _ E) as L.
  destruct (String.eqb_spec tok "{") as [->|_]; [discriminate|].
  destruct (String.eqb_spec tok "[") as [->|_]; [discriminate|].
  destruct tok as [|a tok]; [discriminate|].
  replace ((0 <? String.length (String a tok))%nat && is_char dquote (front (String a tok)))
    with false.
  - now rewrite E.
  - unfold EqualIgnoreCase in E. apply andb_prop in E as [_ E].
    simpl in E. apply andb_prop in E as [E _].
    unfold front. simpl.
    destruct (Ascii.eqb_spec a dquote) as [->|]; [discriminate|reflexivity].
Qed.

(** C5, on the code. Whenever the lexer and the parser succeed and the
    top-level element is no Object (or there is none), the body of the
    constructor throws E_INVALID_JSON, as for the document [1,2,3]; whenever
    the body throws an error code, the constructor called with an error slot
    returns with the code in the slot and a null root, and the constructor
    called without a slot throws the code. But not every failure is an error
    code. When an exception of the library leaves the body, it leaves the
    constructor too, slot or no slot, and the slot is left with E_NO_ERROR:
    so it is for the member a : 99999999999999999999, whose numeral makes
    [std::stoll] throw [std::out_of_range]. When the body steps over the end
    of the token vector, as on the lone opening brace, the constructor has no
    defined behaviour, slot or no slot. *)
Theorem C5_document_failures :
  (forall json tokens it pRoot,
      Lex json = Ret tokens ->
      Parse true (S (List.length tokens)) tokens "" = Ret (it, pRoot) ->
      (forall root, pRoot = Some root -> IsObject root = false) ->
      JSON_try json = Throw E_INVALID_JSON)
  /\ (forall json e,
        JSON_try json = Throw e ->
        (exists j, JSON_new json true = Ret j
                   /\ pErr_slot j = Some e /\ GetRootObject j = None)
        /\ JSON_new json false = Throw e)
  /\ JSON_try "[1,2,3]" = Throw E_INVALID_JSON
  /\ (forall json x,
        JSON_try json = ThrowStd x ->
        (forall with_slot, JSON_new json with_slot = ThrowStd x)
        /\ slot_on_exit json = Some E_NO_ERROR)
  /\ (forall json,
        JSON_try json = Undefined ->
        (forall with_slot, JSON_new json with_slot = Undefined)
        /\ slot_on_exit json = None)
  /\ JSON_new (json_text "{'a':99999999999999999999}") true = ThrowStd std_out_of_range
  /\ slot_on_exit (json_text "{'a':99999999999999999999}") = Some E_NO_ERROR
  /\ JSON_new "{" true = Undefined
  /\ JSON_new (json_text "{'a':1 ") true = Undefined.
Proof.
  split; [|split; [|split; [reflexivity|split; [|split; [|repeat split]]]]].
  - intros json tokens it pRoot L P N. unfold JSON_try. rewrite L. cbn [bind].
    rewrite P. cbn [bind]. destruct pRoot as [root|]; auto.
    now rewrite (N root eq_refl).
  - intros json e H. unfold JSON_new. rewrite H. split; eauto.
  - intros json x H. unfold JSON_new, slot_on_exit. rewrite H. auto.
  - intros json H. unfold JSON_new, slot_on_exit. rewrite H. auto.
Qed.

Lemma bind_never {A B : Type} (e0 : Error) (m : outcome A) (k : A -> outcome B) :
  m <> Throw e0 -> (forall a, k a <> Throw e0) -> bind m k <> Throw e0.
Proof.
  intros M K. destruct m as [a|e|x| |]; simpl; auto; try discriminate.
  intros H. apply M. injection H as ->. reflexivity.
Qed.

(** No production throws the closing-bracket code of the Object production:
    the one throw of it, at line 229, stands behind the dereference of
    [end()] at line 227. *)
Lemma ObjectLoop_never_closing (parse : list string -> string -> outcome parsed) :
  (forall it key, parse it key <> Throw E_PARSE_ERR_OBJECT_CLOSING_BRACKET) ->
  forall n it cs, ObjectLoop parse n it cs <> Throw E_PARSE_ERR_OBJECT_CLOSING_BRACKET.
Proof.
  intros Hp. induction n as [|n IH]; intros it cs; cbn [ObjectLoop]; [discriminate|].
  destruct it as [|t0 [|tok it1]]; try discriminate.
  destruct (String.eqb tok "}"); [discriminate|].
  destruct (negb (String.eqb tok ",")); [|apply IH].
  apply bind_never.
  { unfold ParseKey. destruct (quoted tok); [|discriminate].
    destruct it1 as [|colon it2]; [discriminate|].
    destruct (String.eqb colon ":"); discriminate. }
  intros [it2 childKey]. apply bind_never; [apply Hp|]. intros [it3 pChild].
  destruct pChild; [|discriminate]. destruct it3 as [|t [|nx it3']]; try discriminate.
  match goal with |- (if ?c then _ else _) <> _ => destruct c end;
    [discriminate|apply IH].
Qed.

Lemma ArrayLoop_never_closing (parse : list string -> string -> outcome parsed) :
  (forall it key, parse it key <> Throw E_PARSE_ERR_OBJECT_CLOSING_BRACKET) ->
  forall n it es, ArrayLoop parse n it es <> Throw E_PARSE_ERR_OBJECT_CLOSING_BRACKET.
Proof.
  intros Hp. induction n as [|n IH]; intros it es; cbn [ArrayLoop]; [discriminate|].
  destruct it as [|t0 [|tok it1]]; try discriminate.
  destruct (String.eqb tok "]"); [discriminate|].
  destruct (negb (String.eqb tok ",")); [|apply IH].
  apply bind_never; [apply Hp|]. intros [it2 pItem].
  destruct pItem; [|discriminate]. destruct it2 as [|t [|nx it2']]; try discriminate.
  match goal with |- (if ?c then _ else _) <> _ => destruct c end;
    [discriminate|apply IH].
Qed.

Lemma ParseObjectElement_never_closing (parse : list string -> string -> outcome parsed)
  (it : list string) (key : string) :
  (forall it key, parse it key <> Throw E_PARSE_ERR_OBJECT_CLOSING_BRACKET) ->
  ParseObjectElement parse it key <> Throw E_PARSE_ERR_OBJECT_CLOSING_BRACKET.
Proof.
  intros Hp. unfold ParseObjectElement. destruct it as [|tok it0]; [discriminate|].
  destruct (negb (String.eqb tok "{")); [discriminate|].
  apply bind_never; [now apply ObjectLoop_never_closing|]. intros [? ?]. discriminate.
Qed.

Lemma Parse_never_closing (bAccept : bool) (depth : nat) (it : list string) (key : string) :
  Parse bAccept depth it key <> Throw E_PARSE_ERR_OBJECT_CLOSING_BRACKET.
Proof.
  revert it key. induction depth as [|depth IH]; intros it key;
    destruct it as [|tok it0]; cbn [Parse]; try discriminate.
  destruct (String.eqb tok "{").
  { unfold some_element. apply bind_never; [|intros [? ?]; discriminate].
    now apply ParseObjectElement_never_closing. }
  destruct (String.eqb tok "[").
  { unfold some_element. apply bind_never; [|intros [? ?]; discriminate].
    unfold ParseArrayElement. destruct (negb (String.eqb tok "[")); [discriminate|].
    apply bind_never; [now apply ArrayLoop_never_closing|]. intros [? ?]. discriminate. }
  destruct ((0 <? String.length tok)%nat && is_char dquote (front tok)).
  { unfold ParseStringElement. destruct (quoted tok); discriminate. }
  destruct (EqualIgnoreCase tok "true" || EqualIgnoreCase tok "false").
  { match goal with |- (if ?c then _ else _) <> _ => destruct c end; discriminate. }
  destruct (EqualIgnoreCase tok "null").
  { match goal with |- (if ?c then _ else _) <> _ => destruct c end; discriminate. }
  destruct (IsValidNumber tok); [|discriminate].
  unfold some_element. apply bind_never; [|intros [? ?]; discriminate].
  unfold ParseNumberElement. destruct (IsValidDecimal tok).
  - destruct (stold tok) as [d|[]]; discriminate.
  - destruct (stoll tok) as [n|[]]; discriminate.
Qed.

(** C6, on the code. When the Object production returns, the tokens it was
    given are an opening brace, a run of tokens whose brackets are balanced,
    and a closing brace, and it returns at that closing brace: the one that
    matches the opening brace. When the tokens hold no closing brace it does
    not return; but it does not throw E_PARSE_ERR_OBJECT_CLOSING_BRACKET
    either, on these tokens or on any: it throws another code, or an
    exception of the library leaves it, or it steps over the end of the
    token vector. It steps over the end on the lone opening brace, on the
    brace and a comma, and on the tokens of the text that stops after the
    member a : 1; that text itself, with no character after the 1, fails in
    the lexer, and followed by a space it takes the constructor over the
    end. On an opening brace and a key the failure is the key-colon
    failure. *)
Theorem C6_object_ends_at_its_brace (bAccept : bool) (depth : nat)
  (it : list string) (key : string) :
  (forall it' obj,
      ParseObjectElement (Parse bAccept depth) it key = Ret (it', obj) ->
      exists inner rest cs,
        it = ("{" :: inner ++ "}" :: rest)%list /\ it' = "}" :: rest
        /\ balanced inner /\ obj = ObjectElement key cs)
  /\ ((forall tok, In tok it -> tok <> "}") ->
      forall r, ParseObjectElement (Parse bAccept depth) it key <> Ret r)
  /\ ParseObjectElement (Parse bAccept depth) it key
     <> Throw E_PARSE_ERR_OBJECT_CLOSING_BRACKET
  /\ ((forall tok, In tok it -> tok <> "}") -> (List.length it <= depth)%nat ->
      ParseObjectElement (Parse bAccept depth) it key = Undefined
      \/ (exists e, ParseObjectElement (Parse bAccept depth) it key = Throw e
                    /\ e <> E_PARSE_ERR_OBJECT_CLOSING_BRACKET)
      \/ (exists x, ParseObjectElement (Parse bAccept depth) it key = ThrowStd x))
  /\ ParseObjectElement (Parse bAccept depth) ["{"] key = Undefined
  /\ ParseObjectElement (Parse bAccept depth) ["{"; ","] key = Undefined
  /\ ParseObjectElement (Parse bAccept (S depth)) ["{"; json_text "'a'"; ":"; "1"] key
     = Undefined
  /\ ParseObjectElement (Parse bAccept depth) ["{"; json_text "'a'"] key
     = Throw E_INVALID_JSON_KEY_COLON
  /\ Lex (json_text "{'a':1") = Throw E_LEXING_ERR_INVALID_VALUE
  /\ JSON_try "{" = Undefined
  /\ JSON_try (json_text "{'a':1 ") = Undefined.
Proof.
  assert (A : forall it' obj,
      ParseObjectElement (Parse bAccept depth) it key = Ret (it', obj) ->
      exists inner rest cs,
        it = ("{" :: inner ++ "}" :: rest)%list /\ it' = "}" :: rest
        /\ balanced inner /\ obj = ObjectElement key cs).
  { intros it' obj H. unfold ParseObjectElement in H.
    destruct it as [|tok it0]; [discriminate|].
    destruct (String.eqb_spec tok "{") as [->|]; [|discriminate]. cbn [negb] in H.
    apply bind_Ret in H as ([it1 cs] & L & H). injection H as <- <-.
    apply (ObjectLoop_sound _ (Parse_sound bAccept depth)) in L
      as (inner & rest & new & E & -> & B & -> & _).
    simpl in E. subst it0. exists inner, rest, new. auto. }
  assert (B : (forall tok, In tok it -> tok <> "}") ->
              forall r, ParseObjectElement (Parse bAccept depth) it key <> Ret r).
  { intros N [it' obj] H. apply A in H as (inner & rest & cs & -> & _).
    apply (N "}"); auto. right. apply in_or_app. right. now left. }
  assert (C : ParseObjectElement (Parse bAccept depth) it key
              <> Throw E_PARSE_ERR_OBJECT_CLOSING_BRACKET).
  { apply ParseObjectElement_never_closing. intros. apply Parse_never_closing. }
  split; [exact A|]. split; [exact B|]. split; [exact C|].
  split; [|destruct bAccept; repeat split].
  intros N L.
  assert (T : ParseObjectElement (Parse bAccept depth) it key <> OutOfFuel).
  { unfold ParseObjectElement. destruct it as [|tok it0]; [discriminate|].
    destruct (negb (String.eqb tok "{")); [discriminate|].
    apply bind_total.
    - apply (ObjectLoop_total (Parse bAccept depth) depth).
      + intros. now apply (Parse_sound bAccept depth).
      + intros. now apply Parse_total.
      + simpl. lia.
      + exact L.
    - intros [? ?] _. discriminate. }
  destruct (ParseObjectElement (Parse bAccept depth) it key) as [r|e|x| |] eqn:E.
  - now destruct (B N r).
  - right. left. exists e. split; [reflexivity|]. intros ->. now apply C.
  - right. right. eauto.
  - now left.
  - now destruct T.
Qed.

(** The runs on which the Object production steps over the end of the token
    vector: the lone opening brace, the brace and a comma, and a member that
    is the last token. *)
Lemma object_runs_over_the_end :
  JSON_try "{" = Undefined
  /\ JSON_try "{," = Undefined
  /\ ParseObjectElement (Parse true 2) ["{"; json_text "'a'"; ":"; "1"] "" = Undefined.
Proof. repeat split. Qed.

(** C8. In the tree of a document that parsed, the key of an element is
    not empty exactly when the element is a member of an Object; the root
    and the items of an Array have the empty key. *)
Theorem C8_key_invariant (json : string) (root : Element) :
  JSON_try json = Ret root ->
  forall p e, In (p, e) (elements_at AtRoot root) ->
    (m_Key e <> "" <-> p = InObject)
    /\ (p = AtRoot \/ p = InArray -> m_Key e = "").
Proof.
  intros H p e I. apply JSON_try_nodes in H. destruct (H p e I) as [K _].
  destruct p; simpl in K.
  - split; [split; [congruence|discriminate]|auto].
  - destruct K as [N _]. split; [tauto|]. intros [|]; discriminate.
  - split; [split; [congruence|discriminate]|auto].
Qed.

(** C9. A comma at member position or at item position is skipped: the
    loop moves on to it and goes round again with the children it has. So a
    leading comma and consecutive commas are accepted: the three documents
    parse, the last to an empty Object, and so does the Array with two
    commas in a row, alone or in a document. What is checked is the token
    after a parsed value: two members, or two items, with no comma between
    them are refused. *)
Theorem C9_commas_are_skipped :
  (forall parse n t0 it cs,
      ObjectLoop parse (S n) (t0 :: "," :: it) cs = ObjectLoop parse n ("," :: it) cs)
  /\ (forall parse n t0 it es,
        ArrayLoop parse (S n) (t0 :: "," :: it) es = ArrayLoop parse n ("," :: it) es)
  /\ JSON_try (json_text "{,'a':1}")
     = Ret (ObjectElement "" [NumberElement "a" (TYPE_INTEGER 1)])
  /\ JSON_try (json_text "{'a':1,,'b':2,}")
     = Ret (ObjectElement "" [NumberElement "a" (TYPE_INTEGER 1);
                              NumberElement "b" (TYPE_INTEGER 2)])
  /\ JSON_try "{,}" = Ret (ObjectElement "" [])
  /\ Lex "[1,,2]" = Ret ["["; "1"; ","; ","; "2"; "]"]
  /\ Parse true 7 ["["; "1"; ","; ","; "2"; "]"] ""
     = Ret (["]"], Some (ArrayElement "" [NumberElement "" (TYPE_INTEGER 1);
                                          NumberElement "" (TYPE_INTEGER 2)]))
  /\ JSON_try (json_text "{'x':[1,,2]}")
     = Ret (ObjectElement ""
              [ArrayElement "x" [NumberElement "" (TYPE_INTEGER 1);
                                 NumberElement "" (TYPE_INTEGER 2)]])
  /\ JSON_try (json_text "{'a':1 'b':2}") = Throw E_PARSE_ERR_INVALID_OBJECT
  /\ JSON_try (json_text "{'x':[1 2]}") = Throw E_PARSE_ERR_INVALID_ARRAY.
Proof. repeat split. Qed.

(** C10. On a token of two characters or fewer, as the empty string token
    of two double quotes is, the String production throws
    E_PARSE_ERR_INVALID_STRING and the Key production throws
    E_INVALID_JSON_KEY_STRING. So in the tree of a document that parsed no
    String element has the empty value and no member of an Object has the
    empty key. *)
Theorem C10_short_quoted_tokens (tok : string) (it : list string) (key : string) :
  (String.length tok <= 2)%nat ->
  ParseStringElement (tok :: it) key = Throw E_PARSE_ERR_INVALID_STRING
  /\ ParseKey (tok :: it) = Throw E_INVALID_JSON_KEY_STRING
  /\ (forall json root p e,
        JSON_try json = Ret root -> In (p, e) (elements_at AtRoot root) ->
        (forall k, e <> StringElement k "") /\ (p = InObject -> m_Key e <> "")).
Proof.
  intros L.
  assert (Q : quoted tok = false).
  { unfold quoted. destruct (Nat.ltb_spec 2 (String.length tok)); [lia|reflexivity]. }
  unfold ParseStringElement, ParseKey. rewrite Q.
  split; [reflexivity|]. split; [reflexivity|].
  intros json root p e H I. apply JSON_try_nodes in H. destruct (H p e I) as [K V].
  split.
  - intros k ->. simpl in V. now destruct V.
  - intros ->. simpl in K. now destruct K.
Qed.

(** ** Numbers (C3, C4) *)

(** A run of digits outside [long long]: the exception of the library is not
    the one that [ParseNumberElement] catches, and the constructor catches
    error codes only. It leaves the constructor, with or without a slot. *)
Lemma overflowing_integer_leaves_the_constructor (with_slot : bool) :
  JSON_new (json_text "{'a':99999999999999999999}") with_slot
  = ThrowStd std_out_of_range.
Proof. now destruct with_slot. Qed.

(** C3, on the code. A numeral token without a point is converted with
    [std::stoll], which skips nothing in such a token, reads an optional
    sign and the longest run of digits after it, and ignores what follows:
    when no digit follows the optional sign the production throws
    E_PARSE_ERR_INVALID_NUMBER; when one does and the value fits a
    [long long] the production returns the Number with that integer, what
    follows the digits being lost; when the value does not fit,
    [std::out_of_range] leaves the production, which catches
    [std::invalid_argument] only. So the token 1e10 is the integer 1: the
    document with the member a : 1e10 parses, serializes with the member
    a : 1, and no failure is raised; so is the token 1-2. The document with
    the member a : 99999999999999999999 lets [std::out_of_range] leave the
    constructor, slot or no slot. *)
Theorem C3_integer_tokens :
  (forall (tok : string) (it : list string) (key : string),
      IsValidNumber tok = true -> IsValidDecimal tok = false ->
      let body := snd (read_sign tok) in
      let v := Z.of_N (digits_value body 0) in
      let z := if fst (read_sign tok) then (- v)%Z else v in
      (starts_with_digit body = false ->
         ParseNumberElement (tok :: it) key = Throw E_PARSE_ERR_INVALID_NUMBER)
      /\ (starts_with_digit body = true -> (LLONG_MIN <= z <= LLONG_MAX)%Z ->
            ParseNumberElement (tok :: it) key
            = Ret (tok :: it, NumberElement key (TYPE_INTEGER z)))
      /\ (starts_with_digit body = true -> ~ (LLONG_MIN <= z <= LLONG_MAX)%Z ->
            ParseNumberElement (tok :: it) key = ThrowStd std_out_of_range))
  /\ (forall (it : list string) (key : string),
        ParseNumberElement ("1e10" :: it) key
        = Ret ("1e10" :: it, NumberElement key (TYPE_INTEGER 1)))
  /\ JSON_try (json_text "{'a':1e10}")
     = Ret (ObjectElement "" [NumberElement "a" (TYPE_INTEGER 1)])
  /\ ToString (ObjectElement "" [NumberElement "a" (TYPE_INTEGER 1)])
     = json_text "{'a':1}"
  /\ JSON_try (json_text "{'a':1-2}")
     = Ret (ObjectElement "" [NumberElement "a" (TYPE_INTEGER 1)])
  /\ JSON_try (json_text "{'a':99999999999999999999}") = ThrowStd std_out_of_range
  /\ (forall with_slot,
        JSON_new (json_text "{'a':99999999999999999999}") with_slot
        = ThrowStd std_out_of_range).
Proof.
  split; [|split; [reflexivity|split; [reflexivity|split; [reflexivity|
           split; [reflexivity|split; [reflexivity|intros []; reflexivity]]]]]].
  intros tok it key V D body v z. unfold ParseNumberElement. rewrite D.
  unfold stoll. rewrite (valid_number_skip_space tok V).
  subst body v z. destruct (read_sign tok) as [neg body]. cbn [fst snd].
  split; [|split].
  - intros ->. reflexivity.
  - intros -> [R1 R2]. apply Z.leb_le in R1, R2. now rewrite R1, R2.
  - intros -> R.
    destruct ((LLONG_MIN <=? (if neg then - Z.of_N (digits_value body 0)
                              else Z.of_N (digits_value body 0)))%Z
              && ((if neg then - Z.of_N (digits_value body 0)
                   else Z.of_N (digits_value body 0)) <=? LLONG_MAX)%Z) eqn:E;
      [|reflexivity].
    apply andb_prop in E as [R1 R2]. apply Z.leb_le in R1, R2. now destruct R.
Qed.

(** C4, as amended. For a numeral token with a point that the library
    converts, the production records as decimal precision the number of
    characters that follow the last point of the token; that is the count of
    digits after the point when only digits follow it. A decimal Number with
    a precision above zero serializes as its key prefix and the fixed
    notation of the library at that precision. So with a library that reads
    3.1400 to a number whose fixed notation with four digits is 3.1400, the
    document with the member a : 3.1400 parses to a Number of precision 4,
    which serializes to the text of the member. *)
Theorem C4_decimal_precision :
  (forall (tok : string) (it : list string) (key : string) (d : LD),
      IsValidDecimal tok = true -> stold tok = Converted d ->
      ParseNumberElement (tok :: it) key
      = Ret (tok :: it,
             NumberElement key (TYPE_DECIMAL d (Z.of_nat (chars_after_last_dot tok))))
      /\ chars_after_last_dot tok = String.length (after_last_dot tok)
      /\ (string_forallb isdigit (after_last_dot tok) = true ->
          chars_after_last_dot tok = digits_after_last_dot tok)
      /\ (forall p, (0 < p)%Z ->
            ToString (NumberElement key (TYPE_DECIMAL d p))
            = FormatKey key ++ fixed_ld p d))
  /\ (forall d : LD,
        stold "3.1400" = Converted d -> fixed_ld 4 d = "3.1400" ->
        JSON_try (json_text "{'a':3.1400}")
        = Ret (ObjectElement "" [NumberElement "a" (TYPE_DECIMAL d 4)])
        /\ ToString (NumberElement "a" (TYPE_DECIMAL d 4)) = json_text "'a':3.1400").
Proof.
  split.
  - intros tok it key d D S. split; [|split; [|split]].
    + now apply ParseNumberElement_decimal.
    + symmetry. apply length_after_last_dot.
    + intros A. unfold digits_after_last_dot. rewrite (count_digits_all _ A).
      symmetry. apply length_after_last_dot.
    + intros p Hp. simpl. apply Z.ltb_lt in Hp. now rewrite Hp.
  - intros d Cv F. split.
    + unfold JSON_try.
      change (Lex (json_text "{'a':3.1400}"))
        with (Ret (A := list string) ["{"; json_text "'a'"; ":"; "3.1400"; "}"]).
      cbn [bind List.length Parse]. cbn - [ParseNumberElement].
      unfold ParseNumberElement.
      change (IsValidDecimal "3.1400") with true. cbv iota. rewrite Cv. reflexivity.
    + cbn. rewrite F. reflexivity.
Qed.

(** ** Further properties of the code *)

(** *** The lexer *)

(** X1. Where the lexer stands on a double quote, the token runs to the
    first double quote after it that no backslash precedes, both quotes
    included, and the loop goes on after that quote; the token is a quoted
    token. When every later double quote follows a backslash, or there is
    none, lexing fails with E_LEXING_ERR_INVALID_STRING. *)
Theorem X1_quoted_token_scan (str : string) (pos : nat) (tokens : list string) :
  get pos str = Some dquote ->
  (forall endPos, closing_quote str (pos + 1) endPos ->
      FindClosingQuotationMark str (pos + 1) = Some endPos
      /\ Lex_from str pos tokens
         = Lex_from str (S endPos) (tokens ++ [substr str pos (endPos - pos + 1)])
      /\ string_token (substr str pos (endPos - pos + 1)))
  /\ (no_closing_quote str (pos + 1) ->
        FindClosingQuotationMark str (pos + 1) = None
        /\ Lex_from str pos tokens = Throw E_LEXING_ERR_INVALID_STRING).
Proof.
  intros G. split.
  - intros endPos C. pose proof C as F. apply FindClosingQuotationMark_Some in F.
    split; [exact F|]. split; [|now apply closing_quote_substring].
    rewrite Lex_from_step, G. cbn [is_whitespace is_structural]. now rewrite F.
  - intros N. apply FindClosingQuotationMark_None in N. split; [exact N|].
    rewrite Lex_from_step, G. cbn [is_whitespace is_structural]. now rewrite N.
Qed.

Lemma Lex_loop_errors (fuel : nat) (str : string) (pos : nat) (acc : list string) (e : Error) :
  Lex_loop fuel str pos acc = Throw e ->
  e = E_LEXING_ERR_INVALID_VALUE \/ e = E_LEXING_ERR_INVALID_STRING.
Proof.
  revert pos acc; induction fuel as [|fuel IH]; intros pos acc H; simpl in H.
  - destruct (get pos str); discriminate.
  - destruct (get pos str) as [c|]; [|discriminate].
    destruct (is_whitespace c); [eapply IH; eauto|].
    destruct (is_structural c); [eapply IH; eauto|].
    destruct (Ascii.eqb c dquote).
    + destruct (FindClosingQuotationMark str (pos + 1)); [eapply IH; eauto|].
      injection H as <-. now right.
    + destruct (FindClosingCharacter str pos); [eapply IH; eauto|].
      injection H as <-. now left.
Qed.

Lemma Lex_loop_defined (fuel : nat) (str : string) (pos : nat) (acc : list string) :
  Lex_loop fuel str pos acc <> Undefined
  /\ forall x, Lex_loop fuel str pos acc <> ThrowStd x.
Proof.
  revert pos acc; induction fuel as [|fuel IH]; intros pos acc; simpl.
  - destruct (get pos str); split; try intros x; discriminate.
  - destruct (get pos str) as [c|]; [|split; try intros x; discriminate].
    destruct (is_whitespace c); [apply IH|].
    destruct (is_structural c); [apply IH|].
    destruct (Ascii.eqb c dquote).
    + destruct (FindClosingQuotationMark str (pos + 1)); [apply IH|].
      split; try intros x; discriminate.
    + destruct (FindClosingCharacter str pos); [apply IH|].
      split; try intros x; discriminate.
Qed.

(** X2. The lexer returns its tokens or throws one of its two errors, on
    every buffer: it throws no other code, lets no exception of the library
    escape, and every step of it is defined. *)
Theorem X2_lexer_outcomes (str : string) :
  (exists tokens, Lex str = Ret tokens)
  \/ Lex str = Throw E_LEXING_ERR_INVALID_VALUE
  \/ Lex str = Throw E_LEXING_ERR_INVALID_STRING.
Proof.
  pose proof (Lex_total str) as T.
  pose proof (Lex_loop_defined (String.length str) str 0 []) as [U X].
  pose proof (Lex_loop_errors (String.length str) str 0 []) as E.
  fold (Lex str) in U, X, E.
  destruct (Lex str) as [tokens|e| x| |].
  - left. eauto.
  - right. destruct (E e eq_refl) as [->| ->]; auto.
  - destruct (X x eq_refl).
  - now destruct U.
  - now destruct T.
Qed.

Lemma substring_forallb (p : ascii -> bool) (str : string) (pos n : nat) :
  (forall i x, (pos <= i < pos + n)%nat -> get i str = Some x -> p x = true) ->
  string_forallb p (substring pos n str) = true.
Proof.
  revert pos n; induction str as [|a str IH]; intros pos n H.
  - destruct pos, n; reflexivity.
  - destruct pos as [|pos].
    + destruct n as [|n]; [reflexivity|]. cbn [substring string_forallb].
      rewrite (H 0%nat a) by (simpl; auto; lia). cbn [andb].
      apply IH. intros i x Hi Gi. apply (H (S i)); [lia|exact Gi].
    + cbn [substring]. apply IH. intros i x Hi Gi. apply (H (S i)); [lia|exact Gi].
Qed.

Lemma substring_first (str : string) (pos n : nat) (c : ascii) :
  get pos str = Some c -> (0 < n)%nat ->
  exists r, substring pos n str = String c r.
Proof.
  revert pos n; induction str as [|a str IH]; intros pos n G Hn.
  - destruct pos; discriminate.
  - destruct pos as [|pos].
    + destruct n as [|n]; [lia|]. cbn [get] in G. injection G as ->.
      cbn [substring]. eauto.
    + cbn [substring]. apply IH; auto.
Qed.

Lemma substring_one (str : string) (pos : nat) (c : ascii) :
  get pos str = Some c -> substring pos 1 str = String c "".
Proof.
  revert pos; induction str as [|a str IH]; intros pos G.
  - destruct pos; discriminate.
  - destruct pos as [|pos].
    + cbn [get] in G. injection G as ->. cbn [substring]. now destruct str.
    + cbn [substring]. now apply IH.
Qed.

Lemma Lex_loop_shapes (fuel : nat) (str : string) (pos : nat) (acc tokens : list string) :
  Lex_loop fuel str pos acc = Ret tokens ->
  Forall token_shape acc -> Forall token_shape tokens.
Proof.
  revert pos acc; induction fuel as [|fuel IH]; intros pos acc H A; simpl in H.
  - destruct (get pos str); [discriminate|]. now injection H as <-.
  - destruct (get pos str) as [c|] eqn:G; [|now injection H as <-].
    destruct (is_whitespace c) eqn:W; [eapply IH; eauto|].
    destruct (is_structural c) eqn:St.
    { eapply IH; eauto. apply Forall_app. split; auto. constructor; auto.
      left. exists c. unfold substr. now rewrite (substring_one _ _ _ G). }
    destruct (Ascii.eqb_spec c dquote) as [->|N].
    + destruct (FindClosingQuotationMark str (pos + 1)) as [e|] eqn:F; [|discriminate].
      apply FindClosingQuotationMark_Some in F.
      eapply IH; eauto. apply Forall_app. split; auto. constructor; auto.
      right. left. now apply closing_quote_substring.
    + destruct (FindClosingCharacter str pos) as [e|] eqn:F; [|discriminate].
      apply FindClosingCharacter_Some in F.
      pose proof (first_closing_after _ _ _ _ G (bare_not_closing _ W St) F) as Lt.
      eapply IH; eauto. apply Forall_app. split; auto. constructor; auto.
      right. right. unfold substr.
      destruct (substring_first str pos (e - pos) c G) as [r E]; [lia|].
      exists c, r. split; [exact E|]. split.
      * unfold bare_char. rewrite W, St. apply Ascii.eqb_neq in N. now rewrite N.
      * apply substring_forallb. intros i x Hi Gi.
        destruct F as (_ & _ & B). rewrite (B i x); auto. lia.
Qed.

(** X3. Every token of the lexer is one structural character, or a quoted
    token (from a double quote to the first later double quote that no
    backslash precedes), or a bare value: a text that opens with a character
    that is no white space, no structural character and no double quote, and
    that holds no closing character. No token is empty. *)
Theorem X3_token_shapes (str : string) (tokens : list string) :
  Lex str = Ret tokens ->
  Forall token_shape tokens /\ Forall (fun tok => tok <> "") tokens.
Proof.
  intros H.
  assert (S : Forall token_shape tokens) by (eapply Lex_loop_shapes; eauto).
  split; [exact S|]. eapply Forall_impl; [|exact S].
  intros tok [(c & -> & _)|[(L & _)|(c & r & -> & _)]]; try discriminate.
  intros ->. simpl in L. lia.
Qed.

Lemma substring_full (s : string) : substring 0 (String.length s) s = s.
Proof. induction s as [|a s IH]; simpl; [reflexivity|now rewrite IH]. Qed.

Lemma substring_split (str : string) (pos n : nat) :
  (pos + n <= String.length str)%nat ->
  substring 0 (pos + n) str = substring 0 pos str ++ substring pos n str.
Proof.
  revert pos n; induction str as [|a str IH]; intros pos n H.
  - simpl in H. assert (pos = 0 /\ n = 0)%nat as [-> ->] by lia. reflexivity.
  - destruct pos as [|pos].
    + cbn [Nat.add]. destruct n; reflexivity.
    + cbn [Nat.add substring append]. f_equal. apply IH. simpl in H. lia.
Qed.

Lemma get_None_length (s : string) (n : nat) :
  get n s = None -> (String.length s <= n)%nat.
Proof.
  intros G. destruct (Nat.le_gt_cases (String.length s) n) as [|Lt]; [assumption|].
  destruct (get_length_Some s n Lt) as [c E]. congruence.
Qed.

Lemma weave_snoc (gaps acc : list string) (g t : string) :
  List.length gaps = List.length acc ->
  weave (gaps ++ [g]) (acc ++ [t]) = weave gaps acc ++ g ++ t.
Proof.
  revert acc; induction gaps as [|x gaps IH]; intros [|y acc] L; try discriminate L.
  - simpl. now rewrite append_nil_r.
  - cbn [app weave]. injection L as L. now rewrite (IH acc L), !append_assoc.
Qed.

Lemma blank_snoc (g : string) (c : ascii) :
  blank g = true -> is_whitespace c = true -> blank (g ++ String c "") = true.
Proof.
  unfold blank. intros G W. rewrite string_forallb_app. cbn [string_forallb].
  now rewrite G, W.
Qed.

Lemma Lex_loop_weave (fuel : nat) (str : string) :
  forall (pos : nat) (acc tokens gaps : list string) (g : string),
    Lex_loop fuel str pos acc = Ret tokens ->
    (pos <= String.length str)%nat ->
    List.length gaps = List.length acc ->
    Forall (fun s => blank s = true) gaps -> blank g = true ->
    substring 0 pos str = weave gaps acc ++ g ->
    exists gaps' last,
      List.length gaps' = List.length tokens
      /\ Forall (fun s => blank s = true) gaps' /\ blank last = true
      /\ str = weave gaps' tokens ++ last.
Proof.
  induction fuel as [|fuel IH]; intros pos acc tokens gaps g H Lp Lg Bg Bl E;
    simpl in H.
  - destruct (get pos str) eqn:G; [discriminate|]. injection H as <-.
    apply get_None_length in G. assert (pos = String.length str) as -> by lia.
    rewrite substring_full in E. exists gaps, g. auto.
  - destruct (get pos str) as [c|] eqn:G.
    2:{ injection H as <-.
        apply get_None_length in G. assert (pos = String.length str) as -> by lia.
        rewrite substring_full in E. exists gaps, g. auto. }
    pose proof (get_Some_length _ _ _ G) as Lt.
    assert (token : forall n tokens',
              (0 < n)%nat -> (pos + n <= String.length str)%nat ->
              Lex_loop fuel str (pos + n) (acc ++ [substr str pos n]) = Ret tokens' ->
              exists gaps' last,
                List.length gaps' = List.length tokens'
                /\ Forall (fun s => blank s = true) gaps' /\ blank last = true
                /\ str = weave gaps' tokens' ++ last).
    { intros n tokens' Hn Ln H'.
      apply (IH (pos + n)%nat (acc ++ [substr str pos n])%list tokens' (gaps ++ [g])%list "");
        auto.
      - rewrite !List.length_app. simpl. lia.
      - apply Forall_app. split; auto.
      - rewrite substring_split by lia. rewrite E, weave_snoc by assumption.
        unfold substr. now rewrite append_nil_r, !append_assoc. }
    destruct (is_whitespace c) eqn:W.
    { apply (IH (S pos) acc tokens gaps (g ++ String c "")); auto.
      - now apply blank_snoc.
      - replace (S pos) with (pos + 1)%nat by lia. rewrite substring_split by lia.
        rewrite E, (substring_one _ _ _ G). now rewrite append_assoc. }
    destruct (is_structural c) eqn:St.
    { apply (token 1%nat tokens); [lia|lia|].
      now replace (pos + 1)%nat with (S pos) by lia. }
    destruct (Ascii.eqb c dquote).
    + destruct (FindClosingQuotationMark str (pos + 1)) as [e|] eqn:F; [|discriminate].
      apply FindClosingQuotationMark_Some in F. destruct F as (Le & Ge & _).
      apply get_Some_length in Ge.
      apply (token (e - pos + 1)%nat tokens); [lia|lia|].
      now replace (pos + (e - pos + 1))%nat with (S e) by lia.
    + destruct (FindClosingCharacter str pos) as [e|] eqn:F; [|discriminate].
      apply FindClosingCharacter_Some in F.
      pose proof (first_closing_after _ _ _ _ G (bare_not_closing _ W St) F) as Lt'.
      destruct F as (_ & (d & Gd & _) & _). apply get_Some_length in Gd.
      apply (token (e - pos)%nat tokens); [lia|lia|].
      now replace (pos + (e - pos))%nat with (S (e - 1)) by lia.
Qed.

(** X4. The lexer drops white space and nothing else: the tokens of a
    buffer, in their order, each after a gap of white space, and a last gap
    make up the buffer. *)
Theorem X4_tokens_and_gaps_make_up_the_buffer (str : string) (tokens : list string) :
  Lex str = Ret tokens ->
  exists gaps last,
    List.length gaps = List.length tokens
    /\ Forall (fun s => blank s = true) gaps /\ blank last = true
    /\ str = weave gaps tokens ++ last.
Proof.
  intros H. apply (Lex_loop_weave _ _ 0%nat [] tokens [] "" H); auto;
    [lia|now destruct str].
Qed.

Lemma substring_append_l (s t : string) (n m : nat) :
  (n + m <= String.length s)%nat -> substring n m (s ++ t) = substring n m s.
Proof.
  revert n m; induction s as [|a s IH]; intros n m H.
  - simpl in H. assert (n = 0 /\ m = 0)%nat as [-> ->] by lia. now destruct t.
  - destruct n as [|n].
    + destruct m as [|m]; [reflexivity|]. cbn [append substring]. f_equal.
      apply IH. simpl in H. lia.
    + cbn [append substring]. apply IH. simpl in H. lia.
Qed.

Lemma get_shift (pre rest : string) (j : nat) :
  (String.length pre <= j)%nat ->
  get j (pre ++ rest) = get (j - String.length pre) rest.
Proof.
  intros H. rewrite <- (get_append_r pre rest). f_equal. lia.
Qed.

Lemma first_closing_prefix (pre rest : string) (pos e : nat) :
  first_closing pre pos e -> first_closing (pre ++ rest) pos e.
Proof.
  intros (L & (d & Gd & Cd) & B). pose proof (get_Some_length _ _ _ Gd) as Lt.
  split; [exact L|]. split.
  - exists d. split; [|exact Cd]. now rewrite get_append_l.
  - intros i x Hi Gi. rewrite get_append_l in Gi by lia. eauto.
Qed.

Lemma closing_quote_prefix (pre rest : string) (o e : nat) :
  (1 <= o)%nat -> closing_quote pre o e -> closing_quote (pre ++ rest) o e.
Proof.
  intros Ho C. pose proof C as (_ & Ge & _). apply get_Some_length in Ge.
  exact (closing_quote_embed "" pre rest o e Ho Ge C).
Qed.

Lemma first_closing_shift (pre rest : string) (i e : nat) :
  first_closing rest i e ->
  first_closing (pre ++ rest) (String.length pre + i) (String.length pre + e).
Proof.
  intros (L & (d & Gd & Cd) & B). split; [lia|]. split.
  - exists d. split; [|exact Cd]. now rewrite get_append_r.
  - intros j x Hj Gj. rewrite get_shift in Gj by lia.
    apply (B (j - String.length pre)%nat); [lia|exact Gj].
Qed.

Lemma no_closing_shift (pre rest : string) (i : nat) :
  no_closing rest i -> no_closing (pre ++ rest) (String.length pre + i).
Proof.
  intros N j x Hj Gj. rewrite get_shift in Gj by lia.
  apply (N (j - String.length pre)%nat); [lia|exact Gj].
Qed.

Lemma closing_quote_shift (pre rest : string) (o e : nat) :
  (1 <= o)%nat -> closing_quote rest o e ->
  closing_quote (pre ++ rest) (String.length pre + o) (String.length pre + e).
Proof.
  intros Ho C. pose proof C as (_ & Ge & _). apply get_Some_length in Ge.
  pose proof (closing_quote_embed pre rest "" o e Ho Ge C) as Q.
  now rewrite append_nil_r in Q.
Qed.

Lemma no_closing_quote_shift (pre rest : string) (o : nat) :
  (1 <= o)%nat -> no_closing_quote rest o ->
  no_closing_quote (pre ++ rest) (String.length pre + o).
Proof.
  intros Ho N j Hj Gj. rewrite get_shift in Gj by lia. rewrite get_shift by lia.
  replace (j - 1 - String.length pre)%nat with (j - String.length pre - 1)%nat by lia.
  apply N; [lia|exact Gj].
Qed.

(** The loop on a buffer that goes on after [pre]: while it stands in [pre]
    it does what it does on [pre] alone, when that ends well. *)
Lemma Lex_from_prefix (pre rest : string) (t1 : list string) :
  forall (fuel pos : nat) (acc : list string),
    (String.length pre - pos <= fuel)%nat -> (pos <= String.length pre)%nat ->
    Lex_from pre pos acc = Ret t1 ->
    Lex_from (pre ++ rest) pos acc = Lex_at pre rest t1.
Proof.
  induction fuel as [|fuel IH]; intros pos acc Lf Lp H;
    rewrite Lex_from_step in H.
  - rewrite (get_length_None pre pos) in H by lia. injection H as <-.
    assert (pos = String.length pre) as -> by lia. reflexivity.
  - destruct (get pos pre) as [c|] eqn:G.
    2:{ injection H as <-. apply get_None_length in G.
        assert (pos = String.length pre) as -> by lia. reflexivity. }
    pose proof (get_Some_length _ _ _ G) as Lt.
    rewrite Lex_from_step, (get_append_l pre rest pos Lt), G.
    destruct (is_whitespace c) eqn:W; [apply IH; auto; lia|].
    destruct (is_structural c) eqn:St.
    { unfold substr in *. rewrite substring_append_l by lia. apply IH; auto; lia. }
    destruct (Ascii.eqb c dquote).
    + destruct (FindClosingQuotationMark pre (pos + 1)) as [e|] eqn:F; [|discriminate].
      apply FindClosingQuotationMark_Some in F.
      pose proof F as (Le & Ge & _). apply get_Some_length in Ge.
      rewrite (proj2 (FindClosingQuotationMark_Some (pre ++ rest) (pos + 1) e)
                 (closing_quote_prefix pre rest (pos + 1) e ltac:(lia) F)).
      unfold substr in *. rewrite substring_append_l by lia. apply IH; auto; lia.
    + destruct (FindClosingCharacter pre pos) as [e|] eqn:F; [|discriminate].
      apply FindClosingCharacter_Some in F.
      pose proof (first_closing_after _ _ _ _ G (bare_not_closing _ W St) F) as Lt'.
      pose proof F as (_ & (d & Gd & _) & _). apply get_Some_length in Gd.
      rewrite (proj2 (FindClosingCharacter_Some (pre ++ rest) pos e)
                 (first_closing_prefix pre rest pos e F)).
      unfold substr in *. rewrite substring_append_l by lia. apply IH; auto; lia.
Qed.

(** The loop past [pre] does on the buffer what it does on the rest alone. *)
Lemma Lex_from_suffix (pre rest : string) (acc : list string) :
  forall (fuel i : nat) (acc0 : list string),
    (String.length rest - i <= fuel)%nat ->
    Lex_from (pre ++ rest) (String.length pre + i) (acc ++ acc0)
    = (t <- Lex_from rest i acc0 ;; Ret (acc ++ t)%list).
Proof.
  induction fuel as [|fuel IH]; intros i acc0 Lf;
    rewrite (Lex_from_step (pre ++ rest)), (Lex_from_step rest), get_append_r.
  - rewrite (get_length_None rest i) by lia. reflexivity.
  - destruct (get i rest) as [c|] eqn:G; [|reflexivity].
    pose proof (get_Some_length _ _ _ G) as Lt.
    replace (S (String.length pre + i)) with (String.length pre + S i)%nat by lia.
    destruct (is_whitespace c) eqn:W; [apply IH; lia|].
    destruct (is_structural c) eqn:St.
    { unfold substr. rewrite substring_append_r, <- List.app_assoc. apply IH. lia. }
    destruct (Ascii.eqb c dquote).
    + replace (String.length pre + i + 1)%nat with (String.length pre + (i + 1))%nat by lia.
      destruct (FindClosingQuotationMark rest (i + 1)) as [e|] eqn:F.
      * apply FindClosingQuotationMark_Some in F. pose proof F as (Le & _).
        rewrite (proj2 (FindClosingQuotationMark_Some _ _ _)
                   (closing_quote_shift pre rest (i + 1) e ltac:(lia) F)).
        replace (S (String.length pre + e)) with (String.length pre + S e)%nat by lia.
        replace (String.length pre + e - (String.length pre + i) + 1)%nat
          with (e - i + 1)%nat by lia.
        unfold substr. rewrite substring_append_r, <- List.app_assoc. apply IH. lia.
      * apply FindClosingQuotationMark_None in F.
        rewrite (proj2 (FindClosingQuotationMark_None _ _)
                   (no_closing_quote_shift pre rest (i + 1) ltac:(lia) F)).
        reflexivity.
    + destruct (FindClosingCharacter rest i) as [e|] eqn:F.
      * apply FindClosingCharacter_Some in F.
        pose proof (first_closing_after _ _ _ _ G (bare_not_closing _ W St) F) as Lt'.
        rewrite (proj2 (FindClosingCharacter_Some _ _ _) (first_closing_shift pre rest i e F)).
        replace (String.length pre + e - (String.length pre + i))%nat
          with (e - i)%nat by lia.
        unfold substr. rewrite substring_append_r, <- List.app_assoc. apply IH. lia.
      * apply FindClosingCharacter_None in F.
        rewrite (proj2 (FindClosingCharacter_None _ _) (no_closing_shift pre rest i F)).
        reflexivity.
Qed.

Lemma bind_Ret_id {A : Type} (m : outcome A) : (a <- m ;; Ret a) = m.
Proof. now destruct m. Qed.

Lemma Lex_blank (ws : string) : blank ws = true -> Lex ws = Ret [].
Proof.
  intros B. rewrite Lex_is_Lex_from.
  assert (G : forall fuel pos, (String.length ws - pos <= fuel)%nat ->
            Lex_from ws pos [] = Ret []).
  { induction fuel as [|fuel IH]; intros pos L; rewrite Lex_from_step.
    - now rewrite (get_length_None ws pos) by lia.
    - destruct (get pos ws) as [c|] eqn:G; [|reflexivity].
      rewrite (string_forallb_get _ _ _ _ B G). apply IH.
      apply get_Some_length in G. lia. }
  apply (G (String.length ws)). lia.
Qed.

Lemma Lex_app (a b : string) (ta : list string) :
  Lex a = Ret ta -> Lex (a ++ b) = (t <- Lex b ;; Ret (ta ++ t)%list).
Proof.
  intros Ha. rewrite !Lex_is_Lex_from in *.
  rewrite (Lex_from_prefix a b ta (String.length a) 0 []) by (auto; lia).
  pose proof (Lex_from_suffix a b ta (String.length b) 0 [] ltac:(lia)) as Sf.
  rewrite Nat.add_0_r, List.app_nil_r in Sf. exact Sf.
Qed.

(** X5. Lexing composes: when the lexer succeeds on a text, then on that
    text followed by any other it yields the tokens of the first followed by
    the tokens of the second, and it fails as it fails on the second. So
    white space before a text changes nothing, and white space after a text
    that lexes changes nothing. *)
Theorem X5_lexing_composes (pre rest : string) (t1 : list string) :
  Lex pre = Ret t1 ->
  Lex (pre ++ rest) = (t <- Lex rest ;; Ret (t1 ++ t)%list)
  /\ (forall ws, blank ws = true -> Lex (ws ++ pre) = Ret t1 /\ Lex (pre ++ ws) = Ret t1)
  /\ (forall ws, blank ws = true -> Lex (ws ++ rest) = Lex rest).
Proof.
  intros H. split; [now apply Lex_app|]. split.
  - intros ws B. pose proof (Lex_blank ws B) as W. split.
    + rewrite (Lex_app ws pre [] W), H. reflexivity.
    + rewrite (Lex_app pre ws t1 H), W. cbn [bind]. now rewrite List.app_nil_r.
  - intros ws B. rewrite (Lex_app ws rest [] (Lex_blank ws B)). cbn [app].
    apply bind_Ret_id.
Qed.

(** *** The parser *)

Lemma ParseKey_frame (it it2 : list string) (key : string) (extra : list string) :
  ParseKey it = Ret (it2, key) -> ParseKey (it ++ extra) = Ret (it2 ++ extra, key)%list.
Proof.
  intros H. apply ParseKey_Ret in H as (tok & -> & Q & ->).
  cbn [app ParseKey]. now rewrite Q.
Qed.

(** The loops and [Parse] look at no token after the one they return at:
    tokens added behind change nothing, nor does a larger budget. *)
Lemma ObjectLoop_frame (parse1 parse2 : list string -> string -> outcome parsed)
  (extra : list string) :
  (forall it key it' e,
      parse1 it key = Ret (it', Some e) ->
      parse2 (it ++ extra)%list key = Ret (it' ++ extra, Some e)%list) ->
  forall (n : nat) (it : list string) (cs : list Element) (it' : list string)
         (cs' : list Element) (n2 : nat),
    ObjectLoop parse1 n it cs = Ret (it', cs') -> (n <= n2)%nat ->
    ObjectLoop parse2 n2 (it ++ extra) cs = Ret (it' ++ extra, cs')%list.
Proof.
  intros Hf. induction n as [|n IH]; intros it cs it' cs' n2 H Ln;
    cbn [ObjectLoop] in H; [discriminate|].
  destruct n2 as [|n2]; [lia|].
  destruct it as [|t0 [|tok it1]]; try discriminate.
  cbn [app ObjectLoop].
  destruct (String.eqb tok "}"); [now injection H as <- <-|].
  destruct (String.eqb tok ","); cbn [negb] in *.
  { apply (IH (tok :: it1) cs it' cs' n2 H). lia. }
  apply bind_Ret in H as ([it2 childKey] & K & H).
  change (tok :: it1 ++ extra)%list with ((tok :: it1) ++ extra)%list.
  rewrite (ParseKey_frame _ _ _ extra K). cbn [bind].
  apply bind_Ret in H as ([it3 pChild] & P & H).
  destruct pChild as [child|]; [|discriminate].
  rewrite (Hf _ _ _ _ P). cbn [bind].
  destruct it3 as [|t [|nx it3']]; try discriminate.
  cbn [app].
  match type of H with (if ?c then _ else _) = _ => destruct c end; [discriminate|].
  apply (IH (t :: nx :: it3') _ it' cs' n2 H). lia.
Qed.

Lemma ArrayLoop_frame (parse1 parse2 : list string -> string -> outcome parsed)
  (extra : list string) :
  (forall it key it' e,
      parse1 it key = Ret (it', Some e) ->
      parse2 (it ++ extra)%list key = Ret (it' ++ extra, Some e)%list) ->
  forall (n : nat) (it : list string) (es : list Element) (it' : list string)
         (es' : list Element) (n2 : nat),
    ArrayLoop parse1 n it es = Ret (it', es') -> (n <= n2)%nat ->
    ArrayLoop parse2 n2 (it ++ extra) es = Ret (it' ++ extra, es')%list.
Proof.
  intros Hf. induction n as [|n IH]; intros it es it' es' n2 H Ln;
    cbn [ArrayLoop] in H; [discriminate|].
  destruct n2 as [|n2]; [lia|].
  destruct it as [|t0 [|tok it1]]; try discriminate.
  cbn [app ArrayLoop].
  destruct (String.eqb tok "]"); [now injection H as <- <-|].
  destruct (String.eqb tok ","); cbn [negb] in *.
  { apply (IH (tok :: it1) es it' es' n2 H). lia. }
  apply bind_Ret in H as ([it2 pItem] & P & H).
  destruct pItem as [item|]; [|discriminate].
  change (tok :: it1 ++ extra)%list with ((tok :: it1) ++ extra)%list.
  rewrite (Hf _ _ _ _ P). cbn [bind].
  destruct it2 as [|t [|nx it2']]; try discriminate.
  cbn [app].
  match type of H with (if ?c then _ else _) = _ => destruct c end; [discriminate|].
  apply (IH (t :: nx :: it2') _ it' es' n2 H). lia.
Qed.

Lemma Parse_frame (bAccept : bool) (extra : list string) :
  forall (depth : nat) (it : list string) (key : string) (it' : list string)
         (e : Element) (d2 : nat),
    Parse bAccept depth it key = Ret (it', Some e) -> (depth <= d2)%nat ->
    Parse bAccept d2 (it ++ extra) key = Ret (it' ++ extra, Some e)%list.
Proof.
  induction depth as [|depth IH]; intros it key it' e d2 H Ld;
    destruct it as [|tok it0]; cbn [Parse] in H; try discriminate.
  destruct d2 as [|d2]; [lia|]. cbn [app Parse].
  destruct (String.eqb_spec tok "{") as [->|NO].
  { apply some_element_Ret in H as (it1 & obj & H & E). injection E as <- <-.
    unfold ParseObjectElement in *. cbn [String.eqb Ascii.eqb Bool.eqb andb negb] in *.
    apply bind_Ret in H as ([it2 cs] & L & H). injection H as <- <-.
    change ("{" :: it0 ++ extra)%list with (("{" :: it0) ++ extra)%list.
    rewrite (ObjectLoop_frame (Parse bAccept depth) (Parse bAccept d2) extra
               (fun it key it' e P => IH it key it' e d2 P ltac:(lia))
               _ _ _ _ _ (List.length (("{" :: it0) ++ extra)) L).
    - reflexivity.
    - rewrite List.length_app. lia. }
  destruct (String.eqb_spec tok "[") as [->|NA].
  { apply some_element_Ret in H as (it1 & arr & H & E). injection E as <- <-.
    unfold ParseArrayElement in *. cbn [String.eqb Ascii.eqb Bool.eqb andb negb] in *.
    apply bind_Ret in H as ([it2 es] & L & H). injection H as <- <-.
    change ("[" :: it0 ++ extra)%list with (("[" :: it0) ++ extra)%list.
    rewrite (ArrayLoop_frame (Parse bAccept depth) (Parse bAccept d2) extra
               (fun it key it' e P => IH it key it' e d2 P ltac:(lia))
               _ _ _ _ _ (List.length (("[" :: it0) ++ extra)) L).
    - reflexivity.
    - rewrite List.length_app. lia. }
  destruct ((0 <? String.length tok)%nat && is_char dquote (front tok)).
  { unfold ParseStringElement in *. destruct (quoted tok); [|discriminate].
    cbn [some_element bind] in *. now injection H as <- <-. }
  destruct (EqualIgnoreCase tok "true" || EqualIgnoreCase tok "false").
  { match type of H with (if ?c then _ else _) = _ => destruct c end; [discriminate|].
    now injection H as <- <-. }
  destruct (EqualIgnoreCase tok "null").
  { match type of H with (if ?c then _ else _) = _ => destruct c end; [discriminate|].
    now injection H as <- <-. }
  destruct (IsValidNumber tok); [|discriminate].
  unfold ParseNumberElement in *.
  destruct (IsValidDecimal tok).
  - destruct (stold tok) as [d|[]]; try discriminate.
    cbn [some_element bind] in *. now injection H as <- <-.
  - destruct (stoll tok) as [n|[]]; try discriminate.
    cbn [some_element bind] in *. now injection H as <- <-.
Qed.

(** X7. What follows the root Object is ignored: when a document parses,
    the document followed by any text that lexes parses to the same tree.
    The tokens behind the closing brace of the root are never looked at. *)
Theorem X7_text_after_the_root_is_ignored (json : string) (root : Element) :
  JSON_try json = Ret root ->
  forall (tail : string) (more : list string),
    Lex tail = Ret more ->
    JSON_try (json ++ tail) = Ret root.
Proof.
  intros H tail more T.
  apply JSON_try_Ret in H as (tokens & it & L & P & O).
  unfold JSON_try.
  rewrite (Lex_app json tail tokens L), T. cbn [bind].
  rewrite (Parse_frame true more _ _ _ _ _ (S (List.length (tokens ++ more))) P).
  - cbn [bind]. now rewrite O.
  - rewrite List.length_app. lia.
Qed.

(** X6. A document of white space only, the empty document among them, is
    refused with E_INVALID_JSON: there is no token and [Parse] leaves the
    root null. White space before a document changes nothing of what the
    constructor does, and white space after a document that lexes changes
    nothing either. *)
Theorem X6_white_space_around_a_document (ws : string) :
  blank ws = true ->
  JSON_try ws = Throw E_INVALID_JSON
  /\ (forall json, JSON_try (ws ++ json) = JSON_try json)
  /\ (forall json tokens, Lex json = Ret tokens -> JSON_try (json ++ ws) = JSON_try json).
Proof.
  intros B. pose proof (Lex_blank ws B) as W. split; [|split].
  - unfold JSON_try. now rewrite W.
  - intros json. unfold JSON_try.
    rewrite (Lex_app ws json [] W). cbn [app]. now rewrite bind_Ret_id.
  - intros json tokens L. unfold JSON_try.
    rewrite (Lex_app json ws tokens L), W. cbn [bind]. now rewrite List.app_nil_r, L.
Qed.

Lemma Parse_returns (bAccept : bool) (depth : nat) (tok : string) (it0 : list string)
  (key : string) (it' : list string) (pOut : option Element) :
  Parse bAccept depth (tok :: it0) key = Ret (it', pOut) ->
  exists e,
    pOut = Some e /\ m_Key e = key
    /\ ((tok = "{" /\ IsObject e = true
         /\ exists inner rest,
              it0 = (inner ++ "}" :: rest)%list /\ it' = "}" :: rest /\ balanced inner)
        \/ (tok = "[" /\ IsArray e = true
            /\ exists inner rest,
                 it0 = (inner ++ "]" :: rest)%list /\ it' = "]" :: rest /\ balanced inner)
        \/ (tok <> "{" /\ tok <> "[" /\ IsObject e = false /\ IsArray e = false
            /\ it' = tok :: it0)).
Proof.
  intros H. destruct depth as [|depth]; cbn [Parse] in H; [discriminate|].
  destruct (String.eqb_spec tok "{") as [->|NO].
  { apply some_element_Ret in H as (it1 & obj & H & E). injection E as -> ->.
    unfold ParseObjectElement in H. cbn [String.eqb Ascii.eqb Bool.eqb andb negb] in H.
    apply bind_Ret in H as ([it2 cs] & L & H). injection H as <- <-.
    apply (ObjectLoop_sound _ (Parse_sound bAccept depth)) in L
      as (inner & rest & new & E & -> & B & -> & _).
    simpl in E. eexists. split; [reflexivity|]. split; [reflexivity|].
    left. repeat split. eauto. }
  destruct (String.eqb_spec tok "[") as [->|NA].
  { apply some_element_Ret in H as (it1 & arr & H & E). injection E as -> ->.
    unfold ParseArrayElement in H. cbn [String.eqb Ascii.eqb Bool.eqb andb negb] in H.
    apply bind_Ret in H as ([it2 es] & L & H). injection H as <- <-.
    apply (ArrayLoop_sound _ (Parse_sound bAccept depth)) in L
      as (inner & rest & new & E & -> & B & -> & _).
    simpl in E. eexists. split; [reflexivity|]. split; [reflexivity|].
    right. left. repeat split. eauto. }
  assert (leaf : forall e, m_Key e = key -> IsObject e = false -> IsArray e = false ->
            exists e0, Some e = Some e0 /\ m_Key e0 = key
              /\ ((tok = "{" /\ IsObject e0 = true
                   /\ exists inner rest,
                        it0 = (inner ++ "}" :: rest)%list /\ tok :: it0 = "}" :: rest
                        /\ balanced inner)
                  \/ (tok = "[" /\ IsArray e0 = true
                      /\ exists inner rest,
                           it0 = (inner ++ "]" :: rest)%list /\ tok :: it0 = "]" :: rest
                           /\ balanced inner)
                  \/ (tok <> "{" /\ tok <> "[" /\ IsObject e0 = false
                      /\ IsArray e0 = false /\ tok :: it0 = tok :: it0))).
  { intros e K O A. exists e. split; [reflexivity|]. split; [exact K|].
    right. right. auto. }
  destruct ((0 <? String.length tok)%nat && is_char dquote (front tok)).
  { unfold ParseStringElement in H. destruct (quoted tok); [|discriminate].
    cbn [some_element bind] in H. injection H as <- <-. now apply leaf. }
  destruct (EqualIgnoreCase tok "true" || EqualIgnoreCase tok "false").
  { match type of H with (if ?c then _ else _) = _ => destruct c end; [discriminate|].
    injection H as <- <-. now apply leaf. }
  destruct (EqualIgnoreCase tok "null").
  { match type of H with (if ?c then _ else _) = _ => destruct c end; [discriminate|].
    injection H as <- <-. now apply leaf. }
  destruct (IsValidNumber tok); [|discriminate].
  unfold ParseNumberElement in H.
  destruct (IsValidDecimal tok).
  - destruct (stold tok) as [d|[]]; try discriminate.
    cbn [some_element bind] in H. injection H as <- <-. now apply leaf.
  - destruct (stoll tok) as [n|[]]; try discriminate.
    cbn [some_element bind] in H. injection H as <- <-. now apply leaf.
Qed.

(** X8. [Parse] returns the iterator at the last token of the element it
    parsed, and the element has the key it was given: for an Object or an
    Array, which it parses exactly on an opening bracket, that token is the
    bracket that closes it, with balanced tokens between the two; for any
    other element it is the token that [Parse] was called on. On no token at
    all it returns [end] and leaves the element null, and that is the only
    way it leaves it null. *)
Theorem X8_Parse_returns_at_the_last_token (bAccept : bool) (depth : nat)
  (it : list string) (key : string) (it' : list string) (pOut : option Element) :
  Parse bAccept depth it key = Ret (it', pOut) ->
  match it with
  | [] => it' = [] /\ pOut = None
  | tok :: it0 =>
      exists e,
        pOut = Some e /\ m_Key e = key
        /\ ((tok = "{" /\ IsObject e = true
             /\ exists inner rest,
                  it0 = (inner ++ "}" :: rest)%list /\ it' = "}" :: rest
                  /\ balanced inner)
            \/ (tok = "[" /\ IsArray e = true
                /\ exists inner rest,
                     it0 = (inner ++ "]" :: rest)%list /\ it' = "]" :: rest
                     /\ balanced inner)
            \/ (tok <> "{" /\ tok <> "[" /\ IsObject e = false /\ IsArray e = false
                /\ it' = tok :: it0))
  end.
Proof.
  intros H. destruct it as [|tok it0]; [|now apply Parse_returns in H].
  destruct depth; cbn [Parse] in H; injection H as <- <-; auto.
Qed.

(** X9. The Array production throws E_PARSE_ERR_ARRAY_OPENING_BRACKET on a
    token that is no opening square bracket. When it returns, the tokens it
    was given are an opening square bracket, a run of tokens whose brackets
    are balanced, and a closing square bracket, and it returns at that
    bracket; when the tokens hold no closing square bracket it does not
    return. *)
Theorem X9_array_ends_at_its_bracket (bAccept : bool) (depth : nat)
  (it : list string) (key : string) :
  (forall tok it0, it = tok :: it0 -> tok <> "[" ->
      ParseArrayElement (Parse bAccept depth) it key
      = Throw E_PARSE_ERR_ARRAY_OPENING_BRACKET)
  /\ (forall it' arr,
        ParseArrayElement (Parse bAccept depth) it key = Ret (it', arr) ->
        exists inner rest es,
          it = ("[" :: inner ++ "]" :: rest)%list /\ it' = "]" :: rest
          /\ balanced inner /\ arr = ArrayElement key es)
  /\ ((forall tok, In tok it -> tok <> "]") ->
      forall r, ParseArrayElement (Parse bAccept depth) it key <> Ret r).
Proof.
  assert (A : forall it' arr,
      ParseArrayElement (Parse bAccept depth) it key = Ret (it', arr) ->
      exists inner rest es,
        it = ("[" :: inner ++ "]" :: rest)%list /\ it' = "]" :: rest
        /\ balanced inner /\ arr = ArrayElement key es).
  { intros it' arr H. unfold ParseArrayElement in H.
    destruct it as [|tok it0]; [discriminate|].
    destruct (String.eqb_spec tok "[") as [->|]; [|discriminate]. cbn [negb] in H.
    apply bind_Ret in H as ([it1 es] & L & H). injection H as <- <-.
    apply (ArrayLoop_sound _ (Parse_sound bAccept depth)) in L
      as (inner & rest & new & E & -> & B & -> & _).
    simpl in E. subst it0. exists inner, rest, new. auto. }
  split; [|split; [exact A|]].
  - intros tok it0 -> N. unfold ParseArrayElement.
    apply String.eqb_neq in N. now rewrite N.
  - intros N [it' arr] H. apply A in H as (inner & rest & es & -> & _).
    apply (N "]"); auto. right. apply in_or_app. right. now left.
Qed.

Lemma CharCompare_letter (a l : ascii) :
  CharCompare a l = true ->
  l = "t"%char \/ l = "f"%char \/ l = "n"%char ->
  a = l \/ a = toupper l.
Proof.
  intros C [->|[->| ->]];
    destruct a as [[] [] [] [] [] [] [] []]; try discriminate C; auto.
Qed.

(** A token that matches one of the three literal names is no bracket and
    opens with no double quote. *)
Lemma literal_dispatch (tok lit : string) :
  lit = "true" \/ lit = "false" \/ lit = "null" ->
  EqualIgnoreCase tok lit = true ->
  String.eqb tok "{" = false /\ String.eqb tok "[" = false
  /\ (0 <? String.length tok)%nat && is_char dquote (front tok) = false.
Proof.
  intros L E. pose proof (EqualIgnoreCase_length _ _ E) as Len.
  unfold EqualIgnoreCase in E. apply andb_prop in E as [_ E].
  destruct tok as [|a tok]; [destruct L as [->|[->| ->]]; discriminate Len|].
  assert (Q : a <> dquote).
  { intros ->. destruct L as [->|[->| ->]]; discriminate E. }
  split; [|split].
  - apply String.eqb_neq. intros Eq. rewrite Eq in Len.
    destruct L as [->|[->| ->]]; discriminate Len.
  - apply String.eqb_neq. intros Eq. rewrite Eq in Len.
    destruct L as [->|[->| ->]]; discriminate Len.
  - unfold front. cbn [get is_char]. apply Ascii.eqb_neq in Q. rewrite Q.
    apply andb_false_r.
Qed.

Lemma null_is_no_boolean (tok : string) :
  EqualIgnoreCase tok "null" = true ->
  EqualIgnoreCase tok "true" || EqualIgnoreCase tok "false" = false.
Proof.
  intros E. pose proof (EqualIgnoreCase_length _ _ E) as Len.
  unfold EqualIgnoreCase in *. apply andb_prop in E as [_ E].
  destruct tok as [|a tok]; [discriminate Len|].
  cbn [std_equal] in *. apply andb_prop in E as [C _].
  destruct (CharCompare_letter a "n" C) as [->| ->]; auto;
    cbn [CharCompare]; rewrite ?andb_false_r; reflexivity.
Qed.

(** X10. With case-insensitive literals refused, [Parse] throws
    E_PARSE_ERROR_INVALID_LITERAL_CASE on every token that matches true,
    false or null without regard to case and is none of the three
    lower-case names; with them accepted it returns an element on the same
    token. The three lower-case names are parsed in both modes, to the same
    elements. *)
Theorem X10_strict_literal_case (tok : string) (it : list string) (key : string)
  (depth : nat) :
  EqualIgnoreCase tok "true" || EqualIgnoreCase tok "false" || EqualIgnoreCase tok "null"
  = true ->
  tok <> "true" -> tok <> "false" -> tok <> "null" ->
  Parse false (S depth) (tok :: it) key = Throw E_PARSE_ERROR_INVALID_LITERAL_CASE
  /\ (exists e, Parse true (S depth) (tok :: it) key = Ret (tok :: it, Some e))
  /\ (forall bAccept,
        Parse bAccept (S depth) ("true" :: it) key
        = Ret ("true" :: it, Some (BoolElement key true))
        /\ Parse bAccept (S depth) ("false" :: it) key
           = Ret ("false" :: it, Some (BoolElement key false))
        /\ Parse bAccept (S depth) ("null" :: it) key
           = Ret ("null" :: it, Some (NullElement key))).
Proof.
  intros M NT NF NN.
  apply String.eqb_neq in NT, NF, NN.
  assert (D : String.eqb tok "{" = false /\ String.eqb tok "[" = false
              /\ (0 <? String.length tok)%nat && is_char dquote (front tok) = false).
  { apply orb_prop in M as [M|M]; [apply orb_prop in M as [M|M]|].
    - apply (literal_dispatch tok "true"); auto.
    - apply (literal_dispatch tok "false"); auto.
    - apply (literal_dispatch tok "null"); auto. }
  destruct D as (D1 & D2 & D3).
  split; [|split].
  - cbn [Parse]. rewrite D1, D2, D3.
    destruct (EqualIgnoreCase tok "true" || EqualIgnoreCase tok "false") eqn:TF.
    + now rewrite NT, NF.
    + cbn [orb] in M. now rewrite M, NN.
  - cbn [Parse]. rewrite D1, D2, D3.
    destruct (EqualIgnoreCase tok "true" || EqualIgnoreCase tok "false") eqn:TF.
    + cbn [negb andb]. eauto.
    + cbn [orb] in M. rewrite M. cbn [negb andb]. eauto.
  - intros []; repeat split.
Qed.

(** *** The constructor *)

Lemma regular_bind {A B : Type} (m : outcome A) (k : A -> outcome B) :
  regular m -> (forall a, m = Ret a -> regular (k a)) -> regular (bind m k).
Proof. destruct m; simpl; auto. Qed.

Lemma Lex_regular (str : string) : regular (Lex str).
Proof.
  pose proof (Lex_loop_errors (String.length str) str 0 []) as E.
  pose proof (Lex_loop_defined (String.length str) str 0 []) as [_ X].
  fold (Lex str) in E, X. destruct (Lex str) as [t|e|x| |]; simpl; auto.
  - destruct (E e eq_refl) as [->| ->]; reflexivity.
  - destruct (X x eq_refl).
Qed.

Lemma ParseKey_regular (it : list string) : regular (ParseKey it).
Proof.
  unfold ParseKey. destruct it as [|tok [|colon it2]]; simpl; auto;
    destruct (quoted tok); simpl; auto.
  destruct (String.eqb colon ":"); simpl; auto.
Qed.

Lemma ParseNumberElement_regular (it : list string) (key : string) :
  regular (ParseNumberElement it key).
Proof.
  unfold ParseNumberElement. destruct it as [|tok it0]; simpl; auto.
  destruct (IsValidDecimal tok).
  - destruct (stold tok) as [d|[]]; simpl; auto.
  - destruct (stoll tok) as [n|[]]; simpl; auto.
Qed.

Lemma ObjectLoop_regular (parse : list string -> string -> outcome parsed) :
  (forall it key, regular (parse it key)) ->
  forall n it cs, regular (ObjectLoop parse n it cs).
Proof.
  intros Hp. induction n as [|n IH]; intros it cs; cbn [ObjectLoop]; [exact I|].
  destruct it as [|t0 [|tok it1]]; try exact I.
  destruct (String.eqb tok "}"); [exact I|].
  destruct (negb (String.eqb tok ",")); [|apply IH].
  apply regular_bind; [apply ParseKey_regular|]. intros [it2 childKey] _.
  apply regular_bind; [apply Hp|]. intros [it3 pChild] _.
  destruct pChild; [|exact I]. destruct it3 as [|t [|nx it3']]; try exact I.
  match goal with |- regular (if ?c then _ else _) => destruct c end;
    [reflexivity|apply IH].
Qed.

Lemma ArrayLoop_regular (parse : list string -> string -> outcome parsed) :
  (forall it key, regular (parse it key)) ->
  forall n it es, regular (ArrayLoop parse n it es).
Proof.
  intros Hp. induction n as [|n IH]; intros it es; cbn [ArrayLoop]; [exact I|].
  destruct it as [|t0 [|tok it1]]; try exact I.
  destruct (String.eqb tok "]"); [exact I|].
  destruct (negb (String.eqb tok ",")); [|apply IH].
  apply regular_bind; [apply Hp|]. intros [it2 pItem] _.
  destruct pItem; [|exact I]. destruct it2 as [|t [|nx it2']]; try exact I.
  match goal with |- regular (if ?c then _ else _) => destruct c end;
    [reflexivity|apply IH].
Qed.

Lemma Parse_regular (depth : nat) (it : list string) (key : string) :
  regular (Parse true depth it key).
Proof.
  revert it key. induction depth as [|depth IH]; intros it key;
    destruct it as [|tok it0]; cbn [Parse]; try exact I.
  destruct (String.eqb_spec tok "{") as [->|_].
  { unfold some_element, ParseObjectElement.
    cbn [String.eqb Ascii.eqb Bool.eqb andb negb].
    apply regular_bind; [|intros [? ?] _; exact I].
    apply regular_bind; [|intros [? ?] _; exact I].
    now apply ObjectLoop_regular. }
  destruct (String.eqb_spec tok "[") as [->|_].
  { unfold some_element, ParseArrayElement.
    cbn [String.eqb Ascii.eqb Bool.eqb andb negb].
    apply regular_bind; [|intros [? ?] _; exact I].
    apply regular_bind; [|intros [? ?] _; exact I].
    now apply ArrayLoop_regular. }
  destruct ((0 <? String.length tok)%nat && is_char dquote (front tok)).
  { unfold ParseStringElement. destruct (quoted tok); [exact I|reflexivity]. }
  destruct (EqualIgnoreCase tok "true" || EqualIgnoreCase tok "false"); [exact I|].
  destruct (EqualIgnoreCase tok "null"); [exact I|].
  destruct (IsValidNumber tok); [|reflexivity].
  unfold some_element. apply regular_bind; [|intros [? ?] _; exact I].
  apply ParseNumberElement_regular.
Qed.

Lemma JSON_try_regular (json : string) : regular (JSON_try json).
Proof.
  unfold JSON_try. apply regular_bind; [apply Lex_regular|]. intros tokens _.
  apply regular_bind; [apply Parse_regular|]. intros [it pRoot] _.
  destruct pRoot as [root|]; simpl; auto. destruct (IsObject root); simpl; auto.
Qed.

(** X11. What the constructor does on a document is one of: it builds a
    root, which is an Object; it throws one of ten error codes; the
    [std::out_of_range] of a numeral escapes; it steps over the end of the
    token vector. It throws neither E_NO_ERROR, nor the literal-case code,
    nor one of the four bracket codes, and no [std::invalid_argument]
    escapes. Each of the ten codes is thrown on some document. *)
Theorem X11_constructor_outcomes :
  (forall json,
      match JSON_try json with
      | Ret root => IsObject root = true
      | Throw e => constructor_error e = true
      | ThrowStd x => x = std_out_of_range
      | Undefined => True
      | OutOfFuel => False
      end)
  /\ JSON_try "" = Throw E_INVALID_JSON
  /\ JSON_try (json_text "{'a':1") = Throw E_LEXING_ERR_INVALID_VALUE
  /\ JSON_try (json_text "{'a") = Throw E_LEXING_ERR_INVALID_STRING
  /\ JSON_try "{a:1}" = Throw E_INVALID_JSON_KEY_STRING
  /\ JSON_try (json_text "{'a' 1}") = Throw E_INVALID_JSON_KEY_COLON
  /\ JSON_try (json_text "{'a':''}") = Throw E_PARSE_ERR_INVALID_STRING
  /\ JSON_try (json_text "{'a':abc}") = Throw E_PARSE_ERR_UNKNOWN_ELEMENT
  /\ JSON_try (json_text "{'a':+-e}") = Throw E_PARSE_ERR_INVALID_NUMBER
  /\ JSON_try (json_text "{'a':1 'b':2}") = Throw E_PARSE_ERR_INVALID_OBJECT
  /\ JSON_try (json_text "{'a':[1 2]}") = Throw E_PARSE_ERR_INVALID_ARRAY.
Proof.
  split; [|repeat split].
  intros json. pose proof (JSON_try_regular json) as R.
  pose proof (JSON_try_total json) as T.
  destruct (JSON_try json) as [root|e|x| |] eqn:E; simpl in R; auto.
  now apply JSON_try_Ret in E as (_ & _ & _ & _ & O).
Qed.

(** X12. After a construction with an error slot, the slot holds E_NO_ERROR
    exactly when a root is exposed: no failure writes E_NO_ERROR. A root
    that is exposed is an Object, with or without a slot. *)
Theorem X12_slot_tells_success (json : string) (with_slot : bool) (j : JSON) :
  JSON_new json with_slot = Ret j ->
  (with_slot = true ->
     (pErr_slot j = Some E_NO_ERROR <-> exists root, GetRootObject j = Some root)
     /\ (GetRootObject j = None ->
         exists e, pErr_slot j = Some e /\ JSON_try json = Throw e
                   /\ constructor_error e = true))
  /\ (with_slot = false -> pErr_slot j = None)
  /\ (forall root, GetRootObject j = Some root ->
        JSON_try json = Ret root /\ IsObject root = true).
Proof.
  intros H. unfold JSON_new in H.
  pose proof (JSON_try_regular json) as R.
  destruct (JSON_try json) as [root|e|x| |] eqn:E; try discriminate.
  - injection H as <-. cbn [GetRootObject m_pRootObject pErr_slot].
    apply JSON_try_Ret in E as (_ & _ & _ & _ & O).
    split; [|split].
    + intros ->. split; [split; eauto|discriminate].
    + now intros ->.
    + intros r Hr. injection Hr as <-. auto.
  - destruct with_slot; [|discriminate]. injection H as <-.
    cbn [GetRootObject m_pRootObject pErr_slot]. simpl in R.
    split; [|split].
    + intros _. split.
      * split; [|intros [r Hr]; discriminate].
        intros S. injection S as ->. discriminate.
      * intros _. eauto.
    + discriminate.
    + discriminate.
Qed.

(** *** Values *)

(** X13. Escapes are left as they are: on a token that the String and Key
    productions accept, the String element holds the token without its two
    double quotes and, without a key, serializes to the token itself; as a
    key, the text formats to the token followed by a colon. *)
Theorem X13_quoted_token_round_trip (tok : string) (it : list string) (key : string) :
  quoted tok = true ->
  let v := substr tok 1 (String.length tok - 2) in
  ParseStringElement (tok :: it) key = Ret (tok :: it, StringElement key v)
  /\ ToString (StringElement "" v) = tok
  /\ ParseKey (tok :: ":" :: it) = Ret (it, v)
  /\ FormatKey v = tok ++ ":".
Proof.
  intros Q v. destruct (quoted_shape tok Q) as (E & N). fold v in E, N.
  split; [|split; [|split]].
  - unfold ParseStringElement. now rewrite Q.
  - change (String dquote (v ++ String dquote "") = tok). now symmetry.
  - cbn [ParseKey]. now rewrite Q.
  - rewrite (proj1 (FormatKey_quote v N)). unfold quote. now rewrite <- E.
Qed.

Lemma Lex_integer_member (z : Z) :
  Lex (json_text "{'n':" ++ to_string_ll z ++ "}")
  = Ret ["{"; json_text "'n'"; ":"; to_string_ll z; "}"].
Proof.
  rewrite (Lex_app (json_text "{'n':") _ ["{"; json_text "'n'"; ":"] eq_refl).
  assert (L : Lex (to_string_ll z ++ "}") = Ret [to_string_ll z; "}"]).
  { rewrite Lex_is_Lex_from.
    change (Lex_from (to_string_ll z ++ "}") 0 [])
      with (Lex_at "" (to_string_ll z ++ "}") []).
    rewrite Lex_at_bare.
    - cbn [append app]. rewrite Lex_at_structural by reflexivity.
      now rewrite Lex_at_end.
    - apply to_string_ll_nonempty.
    - apply valid_number_bare, to_string_ll_valid.
    - exists "}"%char, "". split; reflexivity. }
  now rewrite L.
Qed.

(** X14. Every [long long] survives the round trip: the text that
    [std::to_string] gives for it is a numeral token without a point, the
    Number production reads it back to the same integer, and the Number
    serializes to the same text. So does the document that holds it as the
    one member of its root. *)
Theorem X14_integer_round_trip (z : Z) :
  (LLONG_MIN <= z <= LLONG_MAX)%Z ->
  IsValidNumber (to_string_ll z) = true /\ IsValidDecimal (to_string_ll z) = false
  /\ (forall it key,
        ParseNumberElement (to_string_ll z :: it) key
        = Ret (to_string_ll z :: it, NumberElement key (TYPE_INTEGER z)))
  /\ ToString (NumberElement "" (TYPE_INTEGER z)) = to_string_ll z
  /\ JSON_try (json_text "{'n':" ++ to_string_ll z ++ "}")
     = Ret (ObjectElement "" [NumberElement "n" (TYPE_INTEGER z)])
  /\ ToString (ObjectElement "" [NumberElement "n" (TYPE_INTEGER z)])
     = json_text "{'n':" ++ to_string_ll z ++ "}".
Proof.
  intros R. destruct (to_string_ll_valid z) as [V D].
  split; [exact V|]. split; [exact D|]. split; [|split; [reflexivity|split]].
  - intros it key. now apply ParseNumberElement_integer.
  - unfold JSON_try. rewrite Lex_integer_member. cbn [bind List.length].
    change (Parse true 6 ["{"; json_text "'n'"; ":"; to_string_ll z; "}"] "")
      with (some_element
              (ParseObjectElement (Parse true 5)
                 ["{"; quote "n"; ":"; to_string_ll z; "}"] "")).
    unfold ParseObjectElement. change (negb ("{" =? "{")) with false. cbv iota.
    cbn [List.length ObjectLoop].
    destruct (quote_not_separator "n") as (Q1 & Q2 & _). rewrite Q1, Q2. cbn [negb].
    rewrite ParseKey_quote by discriminate. cbn [bind].
    rewrite (Parse_number true 4 _ _ _ V).
    rewrite (ParseNumberElement_integer z ["}"] "n" R).
    reflexivity.
  - cbn. now rewrite append_assoc.
Qed.

Lemma text_ok_escaped (v : string) : text_ok v -> v <> "" /\ escaped_quotes v.
Proof.
  intros (N & L & G0 & C). split; [exact N|].
  assert (Lv : (0 < String.length v)%nat) by (destruct v; [congruence|simpl; lia]).
  destruct C as (_ & _ & Esc & B).
  assert (Len : String.length (String dquote (v ++ String dquote "")) = S (S (String.length v))).
  { cbn [String.length]. rewrite length_append. simpl. lia. }
  rewrite Len in *. cbn [Nat.sub] in *.
  assert (Gt : forall i, (i < String.length v)%nat ->
            get (S i) (String dquote (v ++ String dquote "")) = get i v).
  { intros i Hi. cbn [get]. now apply get_append_l. }
  split.
  - intros i Gi. pose proof (get_Some_length _ _ _ Gi) as Hi.
    assert (T := B (S i) ltac:(lia)). rewrite (Gt i Hi) in T. specialize (T Gi).
    replace (S i - 1)%nat with i in T by lia.
    destruct i as [|i].
    + cbn [get is_char] in T. discriminate T.
    + rewrite (Gt i) in T by lia. split; [lia|].
      replace (S i - 1)%nat with i by lia.
      destruct (get i v) as [a|]; cbn [is_char] in T; [|discriminate].
      apply Ascii.eqb_eq in T. now subst a.
  - intros Gb. replace (String.length v - 0)%nat with (S (String.length v - 1)) in Esc by lia.
    rewrite (Gt (String.length v - 1)%nat) in Esc by lia.
    rewrite Gb in Esc. cbn [is_char] in Esc. now rewrite Ascii.eqb_refl in Esc.
Qed.

(** X15. In the tree of a document that parsed, every string value and every
    member key is a text in which each double quote follows a backslash and
    whose last character is no backslash, so that between two double quotes
    it is one quoted token again; every Number has its type set, and an
    integer Number lies within [long long]. *)
Theorem X15_values_of_a_parsed_tree (json : string) (root : Element) :
  JSON_try json = Ret root ->
  forall p e, In (p, e) (elements_at AtRoot root) ->
    (p = InObject -> escaped_quotes (m_Key e))
    /\ match e with
       | StringElement _ v => v <> "" /\ escaped_quotes v
       | NumberElement _ n =>
           n <> TYPE_UNDEFINED
           /\ forall z, n = TYPE_INTEGER z -> (LLONG_MIN <= z <= LLONG_MAX)%Z
       | _ => True
       end.
Proof.
  intros H p e I. apply JSON_try_nodes in H. destruct (H p e I) as [K V]. split.
  - intros ->. simpl in K. now apply text_ok_escaped.
  - destruct e as [| |k v|k [|z|d prec]| |]; simpl in V; auto.
    + now apply text_ok_escaped.
    + contradiction.
    + split; [discriminate|]. intros z' E. now injection E as <-.
    + split; [discriminate|]. intros z' E. discriminate E.
Qed.

(** *** Helpers and descriptions *)

Lemma CharCompare_upper (a b : ascii) :
  CharCompare a b = true <-> toupper a = toupper b.
Proof.
  unfold CharCompare. split.
  - intros H. apply orb_prop in H as [H|H]; apply Ascii.eqb_eq in H; congruence.
  - intros H. rewrite H, Ascii.eqb_refl. apply orb_true_r.
Qed.

(** X16. [EqualIgnoreCase] holds of two strings exactly when they are equal
    after [std::toupper] on every character; so it is reflexive, symmetric
    and transitive, and strings of different lengths are never equal. *)
Theorem X16_EqualIgnoreCase_compares_upper_case :
  (forall s t, EqualIgnoreCase s t = true <-> upper s = upper t)
  /\ (forall s, EqualIgnoreCase s s = true)
  /\ (forall s t, EqualIgnoreCase s t = EqualIgnoreCase t s)
  /\ (forall s t u, EqualIgnoreCase s t = true -> EqualIgnoreCase t u = true ->
                    EqualIgnoreCase s u = true)
  /\ (forall s t, String.length s <> String.length t -> EqualIgnoreCase s t = false).
Proof.
  assert (A : forall s t, EqualIgnoreCase s t = true <-> upper s = upper t).
  { unfold EqualIgnoreCase. induction s as [|a s IH]; intros [|b t]; cbn; split;
      intros H; try reflexivity; try discriminate H.
    - apply andb_prop in H as [L H]. apply andb_prop in H as [C H].
      apply CharCompare_upper in C. rewrite C. f_equal. apply IH.
      cbn in L. now rewrite L, H.
    - injection H as C H. apply IH in H. apply andb_prop in H as [L H].
      apply CharCompare_upper in C. cbn. now rewrite L, C, H. }
  split; [exact A|]. split; [|split; [|split]].
  - intros s. now apply A.
  - intros s t. destruct (EqualIgnoreCase s t) eqn:E1, (EqualIgnoreCase t s) eqn:E2;
      try reflexivity.
    + apply A in E1. symmetry in E1. apply A in E1. congruence.
    + apply A in E2. symmetry in E2. apply A in E2. congruence.
  - intros s t u H1 H2. apply A. apply A in H1, H2. congruence.
  - intros s t N. unfold EqualIgnoreCase. apply Nat.eqb_neq in N. now rewrite N.
Qed.

(** X17. The descriptions of the error codes are pairwise different, and
    none is the text that [ErrorToSring] keeps for a value outside the
    enumeration; the numbers of the codes are pairwise different too, and
    zero is the number of E_NO_ERROR only. So a description or a number
    tells the code. *)
Theorem X17_error_descriptions_tell_the_code :
  (forall e1 e2, ErrorToSring e1 = ErrorToSring e2 -> e1 = e2)
  /\ (forall e, ErrorToSring e <> ErrorToSring_default)
  /\ (forall e1 e2, Error_code e1 = Error_code e2 -> e1 = e2)
  /\ (forall e, Error_code e = 0%Z <-> e = E_NO_ERROR).
Proof.
  split; [|split; [|split]].
  - intros e1 e2 H. destruct e1, e2; try reflexivity; discriminate H.
  - intros e H. destruct e; discriminate H.
  - intros e1 e2 H. destruct e1, e2; try reflexivity; discriminate H.
  - intros e. split; [destruct e; intros H; try reflexivity; discriminate H|now intros ->].
Qed.

(** *** More on the lexer, the literals and the numbers *)

Lemma Lex_loop_last (fuel : nat) (str : string) :
  forall (pos : nat) (acc tokens : list string),
    Lex_loop fuel str pos acc = Ret tokens -> (pos < String.length str)%nat ->
    exists c, get (String.length str - 1) str = Some c
              /\ (is_whitespace c = true \/ is_structural c = true \/ c = dquote).
Proof.
  induction fuel as [|fuel IH]; intros pos acc tokens H Lp; simpl in H.
  - destruct (get_length_Some str pos Lp) as [c G]. rewrite G in H. discriminate.
  - destruct (get pos str) as [c|] eqn:G.
    2:{ apply get_None_length in G. lia. }
    assert (next : forall pos' acc' d,
              Lex_loop fuel str pos' acc' = Ret tokens ->
              (pos' <= String.length str)%nat ->
              get (pos' - 1) str = Some d ->
              is_whitespace d = true \/ is_structural d = true \/ d = dquote ->
              exists c, get (String.length str - 1) str = Some c
                /\ (is_whitespace c = true \/ is_structural c = true \/ c = dquote)).
    { intros pos' acc' d H' L' Gd Kd.
      destruct (Nat.eq_dec pos' (String.length str)) as [->|Ne]; [eauto|].
      apply (IH pos' acc' tokens H'). lia. }
    destruct (is_whitespace c) eqn:W.
    { apply (next (S pos) acc c H);
        [lia|now replace (S pos - 1)%nat with pos by lia|auto]. }
    destruct (is_structural c) eqn:St.
    { apply (next (S pos) _ c H);
        [lia|now replace (S pos - 1)%nat with pos by lia|auto]. }
    destruct (Ascii.eqb c dquote).
    + destruct (FindClosingQuotationMark str (pos + 1)) as [e|] eqn:F; [|discriminate].
      apply FindClosingQuotationMark_Some in F. destruct F as (Le & Ge & _).
      pose proof (get_Some_length _ _ _ Ge) as Lt.
      apply (next (S e) _ dquote H);
        [lia|now replace (S e - 1)%nat with e by lia|auto].
    + destruct (FindClosingCharacter str pos) as [e|] eqn:F; [|discriminate].
      apply FindClosingCharacter_Some in F.
      pose proof (first_closing_after _ _ _ _ G (bare_not_closing _ W St) F) as Lt'.
      destruct F as (_ & (d & Gd & _) & _). apply get_Some_length in Gd.
      apply (IH (S (e - 1)) _ tokens H). lia.
Qed.

(** X18. A buffer that lexes is empty or ends with white space, a
    structural character or a double quote. So a text that ends in the
    middle of a bare value, as a number or a literal alone does, is refused
    by the lexer. *)
Theorem X18_a_buffer_cannot_end_in_a_bare_value (str : string) (tokens : list string) :
  Lex str = Ret tokens ->
  str = ""
  \/ exists c, get (String.length str - 1) str = Some c
               /\ (is_whitespace c = true \/ is_structural c = true \/ c = dquote).
Proof.
  intros H. destruct str as [|a str]; [now left|]. right.
  apply (Lex_loop_last _ _ 0%nat [] tokens H). simpl. lia.
Qed.

Lemma ObjectLoop_mono (parse1 parse2 : list string -> string -> outcome parsed) :
  (forall it key r, parse1 it key = Ret r -> parse2 it key = Ret r) ->
  forall n it cs r, ObjectLoop parse1 n it cs = Ret r -> ObjectLoop parse2 n it cs = Ret r.
Proof.
  intros Hp. induction n as [|n IH]; intros it cs r H; cbn [ObjectLoop] in *;
    [discriminate|].
  destruct it as [|t0 [|tok it1]]; try discriminate.
  destruct (String.eqb tok "}"); [exact H|].
  destruct (negb (String.eqb tok ",")); [|now apply IH].
  apply bind_Ret in H as ([it2 childKey] & K & H). rewrite K. cbn [bind].
  apply bind_Ret in H as ([it3 pChild] & P & H). rewrite (Hp _ _ _ P). cbn [bind].
  destruct pChild; [|discriminate]. destruct it3 as [|t [|nx it3']]; try discriminate.
  match type of H with (if ?c then _ else _) = _ => destruct c end;
    [discriminate|now apply IH].
Qed.

Lemma ArrayLoop_mono (parse1 parse2 : list string -> string -> outcome parsed) :
  (forall it key r, parse1 it key = Ret r -> parse2 it key = Ret r) ->
  forall n it es r, ArrayLoop parse1 n it es = Ret r -> ArrayLoop parse2 n it es = Ret r.
Proof.
  intros Hp. induction n as [|n IH]; intros it es r H; cbn [ArrayLoop] in *;
    [discriminate|].
  destruct it as [|t0 [|tok it1]]; try discriminate.
  destruct (String.eqb tok "]"); [exact H|].
  destruct (negb (String.eqb tok ",")); [|now apply IH].
  apply bind_Ret in H as ([it2 pItem] & P & H). rewrite (Hp _ _ _ P). cbn [bind].
  destruct pItem; [|discriminate]. destruct it2 as [|t [|nx it2']]; try discriminate.
  match type of H with (if ?c then _ else _) = _ => destruct c end;
    [discriminate|now apply IH].
Qed.

(** X19. Refusing case-insensitive literals only refuses: whatever [Parse]
    returns with the literals of other cases refused, it returns with them
    accepted. *)
Theorem X19_strict_parsing_only_refuses (depth : nat) (it : list string) (key : string)
  (r : parsed) :
  Parse false depth it key = Ret r -> Parse true depth it key = Ret r.
Proof.
  revert it key r. induction depth as [|depth IH]; intros it key r H;
    destruct it as [|tok it0]; cbn [Parse] in *; try exact H.
  destruct (String.eqb tok "{").
  { apply some_element_Ret in H as (it1 & e & H & ->).
    unfold ParseObjectElement in *. destruct (negb (String.eqb tok "{")); [discriminate|].
    apply bind_Ret in H as ([it2 cs] & L & H).
    rewrite (ObjectLoop_mono _ _ IH _ _ _ _ L). cbn [bind]. now rewrite H. }
  destruct (String.eqb tok "[").
  { apply some_element_Ret in H as (it1 & e & H & ->).
    unfold ParseArrayElement in *. destruct (negb (String.eqb tok "[")); [discriminate|].
    apply bind_Ret in H as ([it2 es] & L & H).
    rewrite (ArrayLoop_mono _ _ IH _ _ _ _ L). cbn [bind]. now rewrite H. }
  destruct ((0 <? String.length tok)%nat && is_char dquote (front tok)); [exact H|].
  destruct (EqualIgnoreCase tok "true" || EqualIgnoreCase tok "false").
  { match type of H with (if ?c then _ else _) = _ => destruct c end;
      [discriminate|exact H]. }
  destruct (EqualIgnoreCase tok "null"); [|exact H].
  match type of H with (if ?c then _ else _) = _ => destruct c end;
    [discriminate|exact H].
Qed.

Lemma find_last_of_dot (s : string) :
  find_last_of "."%char (s ++ ".") = Some (String.length s).
Proof. induction s as [|a s IH]; [reflexivity|]. cbn [append find_last_of]. now rewrite IH. Qed.

(** X20. A numeral token that ends with a point gets the decimal precision
    zero, and a decimal Number whose precision is not above zero serializes
    with [std::to_string], not with the fixed notation. *)
Theorem X20_precision_zero_uses_to_string (s : string) (it : list string) (key : string)
  (d : LD) :
  stold (s ++ ".") = Converted d ->
  ParseNumberElement ((s ++ ".") :: it) key
  = Ret ((s ++ ".") :: it, NumberElement key (TYPE_DECIMAL d 0))
  /\ (forall p, (p <= 0)%Z ->
        ToString (NumberElement key (TYPE_DECIMAL d p)) = FormatKey key ++ to_string_ld d).
Proof.
  intros Cv. split.
  - assert (D : IsValidDecimal (s ++ ".") = true).
    { unfold IsValidDecimal. rewrite string_mem_app. cbn [string_mem].
      rewrite Ascii.eqb_refl. apply orb_true_r. }
    rewrite (ParseNumberElement_decimal _ d it key D Cv).
    unfold chars_after_last_dot.
    rewrite (find_last_of_dot s). rewrite length_append. cbn [String.length].
    replace (String.length s + 1 - String.length s - 1)%nat with 0%nat by lia.
    reflexivity.
  - intros p Hp. cbn [ToString Number_ToString].
    destruct (Z.ltb_spec 0 p) as [|_]; [lia|reflexivity].
Qed.

End SSJ.

Arguments TYPE_UNDEFINED {LD}.
Arguments TYPE_INTEGER {LD} m_Integer.
Arguments TYPE_DECIMAL {LD} m_Decimal m_DecimalPrecision.
Arguments ObjectElement {LD} m_Key m_Children.
Arguments ArrayElement {LD} m_Key m_Elements.
Arguments StringElement {LD} m_Key m_Value.
Arguments NumberElement {LD} m_Key m_Number.
Arguments BoolElement {LD} m_Key m_bValue.
Arguments NullElement {LD} m_Key.
Arguments m_Key {LD} e.
Arguments elements_at {LD} p e.
Arguments ToString {LD} fixed_ld to_string_ld e.
Arguments ParseStringElement {LD} it key.
Arguments ParseNumberElement {LD} stold it key.
Arguments ParseObjectElement {LD} parse it key.
Arguments Parse {LD} stold bAccept depth it key.
Arguments JSON_try {LD} stold json.
Arguments JSON_new {LD} stold json with_slot.
Arguments GetRootObject {LD} j.
Arguments pErr_slot {LD} j.
Arguments Number_ToString {LD} fixed_ld to_string_ld n.
Arguments reread_stable {LD} stold fixed_ld to_string_ld s.
Arguments decimals_stable {LD} stold fixed_ld to_string_ld root.

(** ** The reference library reads back what it prints *)

Lemma digits_value_app (a b : string) (acc : N) :
  string_forallb isdigit a = true ->
  digits_value (a ++ b) acc = digits_value b (digits_value a acc).
Proof.
  revert acc. induction a as [|c a IH]; simpl; intros acc H; [reflexivity|].
  apply andb_prop in H as [-> H]. now apply IH.
Qed.

Lemma take_digits_app (a rest : string) :
  string_forallb isdigit a = true -> starts_with_digit rest = false ->
  take_digits (a ++ rest) = (a, rest).
Proof.
  intros A R. induction a as [|c a IH].
  - destruct rest as [|x rest]; [reflexivity|].
    cbn [starts_with_digit] in R. cbn [append take_digits]. now rewrite R.
  - cbn [string_forallb] in A. apply andb_prop in A as [C A].
    cbn [append take_digits]. now rewrite C, (IH A).
Qed.

Lemma find_last_of_app (c : ascii) (a b : string) :
  string_mem c b = false ->
  find_last_of c (a ++ String c b) = Some (String.length a).
Proof.
  intros B.
  assert (F : find_last_of c b = None).
  { induction b as [|x b IH]; simpl in *; [reflexivity|].
    apply orb_false_elim in B as [X B]. rewrite (IH B).
    rewrite Ascii.eqb_sym. now rewrite X. }
  induction a as [|x a IH]; simpl.
  - now rewrite F, Ascii.eqb_refl.
  - now rewrite IH.
Qed.

Lemma digit_char (k : N) :
  (k < 10)%N ->
  isdigit (ascii_of_N (48 + k)) = true /\ digit_value (ascii_of_N (48 + k)) = k.
Proof.
  intros H.
  assert (k = 0 \/ k = 1 \/ k = 2 \/ k = 3 \/ k = 4 \/ k = 5 \/ k = 6 \/ k = 7
          \/ k = 8 \/ k = 9)%N as C by lia.
  repeat (destruct C as [->|C]; [split; reflexivity|]). subst k. split; reflexivity.
Qed.

Lemma low_digits_length (w : nat) (n : N) : String.length (low_digits w n) = w.
Proof.
  revert n. induction w as [|w IH]; intros n; [reflexivity|].
  cbn [low_digits]. rewrite length_append, IH. cbn [String.length]. lia.
Qed.

Lemma low_digits_digits (w : nat) (n : N) :
  string_forallb isdigit (low_digits w n) = true.
Proof.
  revert n. induction w as [|w IH]; intros n; [reflexivity|].
  cbn [low_digits]. rewrite string_forallb_app, IH. cbn [string_forallb andb].
  now rewrite (proj1 (digit_char (n mod 10) (N.mod_lt n 10 ltac:(discriminate)))).
Qed.

Lemma low_digits_value (w : nat) (n acc : N) :
  digits_value (low_digits w n) acc = (acc * 10 ^ N.of_nat w + n mod 10 ^ N.of_nat w)%N.
Proof.
  revert n acc. induction w as [|w IH]; intros n acc.
  - simpl. rewrite N.mod_1_r. lia.
  - cbn [low_digits]. rewrite digits_value_app by apply low_digits_digits.
    rewrite IH. cbn [digits_value].
    destruct (digit_char (n mod 10) (N.mod_lt n 10 ltac:(discriminate))) as [-> ->].
    rewrite Nat2N.inj_succ, N.pow_succ_r'.
    rewrite (N.Div0.mod_mul_r n 10 (10 ^ N.of_nat w)). lia.
Qed.

Lemma string_of_N_digits (n : N) :
  string_forallb isdigit (string_of_N n) = true
  /\ starts_with_digit (string_of_N n) = true
  /\ digits_value (string_of_N n) 0 = n.
Proof.
  destruct n as [|p]; [repeat split|].
  unfold string_of_N, NilZero.string_of_uint. cbn [N.to_uint].
  pose proof (Unsigned.to_uint_nonnil p) as NN.
  pose proof (uint_forallb isdigit (Pos.to_uint p)) as F.
  pose proof (digits_value_to_uint p) as V.
  destruct (Pos.to_uint p) eqn:E; [congruence|..];
    (assert (T : string_forallb isdigit (NilEmpty.string_of_uint (Pos.to_uint p)) = true)
       by (rewrite E; apply F; reflexivity));
    rewrite E in T; (split; [exact T|]); (split; [reflexivity|exact V]).
Qed.

Lemma isdigit_valid (c : ascii) : isdigit c = true -> string_mem c validChars = true.
Proof. destruct c as [[] [] [] [] [] [] [] []]; intros H; try discriminate H; reflexivity. Qed.

Lemma isdigit_no_point (s : string) :
  string_forallb isdigit s = true -> string_mem "."%char s = false.
Proof.
  induction s as [|c s IH]; [reflexivity|]. cbn [string_forallb string_mem]. intros H.
  apply andb_prop in H as [C H]. rewrite (IH H), orb_false_r.
  destruct (Ascii.eqb_spec "."%char c) as [<-|]; [discriminate C|reflexivity].
Qed.

Lemma starts_with_digit_read_sign (s : string) :
  starts_with_digit s = true -> read_sign s = (false, s).
Proof.
  destruct s as [|c s]; [discriminate|]. cbn [starts_with_digit read_sign]. intros C.
  destruct (Ascii.eqb_spec c "-"%char) as [->|]; [discriminate C|].
  destruct (Ascii.eqb_spec c "+"%char) as [->|]; [discriminate C|reflexivity].
Qed.

(** What the reference library prints is a numeral with one point, and it is
    read as the number that was printed. *)
Lemma fixed_text_reread (neg : bool) (scaled : N) (w : nat) :
  IsValidNumber (fixed_text neg scaled w) = true
  /\ IsValidDecimal (fixed_text neg scaled w) = true
  /\ chars_after_last_dot (fixed_text neg scaled w) = w
  /\ dec_stold (fixed_text neg scaled w) = Converted (mkDec neg scaled (- Z.of_nat w)).
Proof.
  destruct (string_of_N_digits (scaled / 10 ^ N.of_nat w)) as (QD & QS & QV).
  pose proof (low_digits_digits w scaled) as FD.
  pose proof (low_digits_length w scaled) as FL.
  pose proof (low_digits_value w scaled (scaled / 10 ^ N.of_nat w)) as FV.
  set (Q := string_of_N (scaled / 10 ^ N.of_nat w)) in *.
  set (F := low_digits w scaled) in *.
  assert (V : IsValidNumber (Q ++ String "."%char F) = true).
  { unfold IsValidNumber. rewrite string_forallb_app. cbn [string_forallb].
    rewrite (string_forallb_impl _ _ Q isdigit_valid QD).
    now rewrite (string_forallb_impl _ _ F isdigit_valid FD). }
  assert (P : chars_after_last_dot (Q ++ String "."%char F) = w).
  { unfold chars_after_last_dot. rewrite (find_last_of_app _ _ _ (isdigit_no_point F FD)).
    rewrite length_append. cbn [String.length]. lia. }
  assert (R : forall s2, s2 = Q ++ String "."%char F ->
            (let '(ip, s3) := take_digits s2 in
             let '(fp, s4) :=
               match s3 with
               | String c rest =>
                   if Ascii.eqb c "."%char then take_digits rest else (EmptyString, s3)
               | EmptyString => (EmptyString, s3)
               end in
             if (String.length ip + String.length fp =? 0)%nat
             then Fails std_invalid_argument
             else
               Converted (mkDec neg (digits_value (ip ++ fp) 0)
                      (read_exponent s4 - Z.of_nat (String.length fp))%Z))
            = Converted (mkDec neg scaled (- Z.of_nat w))).
  { intros s2 ->. rewrite (take_digits_app Q (String "."%char F) QD eq_refl).
    cbn [Ascii.eqb Bool.eqb]. cbv iota.
    rewrite <- (append_nil_r F) at 1. rewrite (take_digits_app F "" FD eq_refl).
    rewrite FL.
    destruct (Nat.eqb_spec (String.length Q + w) 0) as [E|_].
    { destruct Q; [discriminate QS|]. cbn [String.length] in E. lia. }
    rewrite (digits_value_app Q F 0 QD), QV, FV. cbn [read_exponent].
    f_equal. f_equal.
    rewrite N.mul_comm. symmetry. apply N.Div0.div_mod. }
  unfold fixed_text. fold Q F. destruct neg.
  - change ("-" ++ Q ++ String "."%char F) with (String "-"%char (Q ++ String "."%char F)).
    split; [|split; [|split]].
    + unfold IsValidNumber in *. cbn [string_forallb]. now rewrite V.
    + unfold IsValidDecimal. cbn [string_mem]. rewrite string_mem_app. cbn [string_mem].
      rewrite Ascii.eqb_refl. cbn [orb]. now rewrite orb_true_r.
    + unfold chars_after_last_dot in *.
      rewrite (find_last_of_app _ _ _ (isdigit_no_point F FD)) in P.
      cbn [find_last_of]. rewrite (find_last_of_app _ _ _ (isdigit_no_point F FD)).
      cbn [String.length]. lia.
    + unfold dec_stold. cbn [skip_space isspace read_sign].
      change (isspace "-"%char) with false. cbv iota.
      cbn [Ascii.eqb Bool.eqb]. cbv iota. now apply R.
  - change ("" ++ Q ++ String "."%char F) with (Q ++ String "."%char F).
    split; [exact V|]. split; [|split; [exact P|]].
    + unfold IsValidDecimal. rewrite string_mem_app. cbn [string_mem].
      rewrite Ascii.eqb_refl. cbn [orb]. now rewrite orb_true_r.
    + unfold dec_stold. rewrite (valid_number_skip_space _ V).
      rewrite starts_with_digit_read_sign; [now apply R|].
      destruct Q; [discriminate QS|exact QS].
Qed.

Lemma dec_scaled_own (neg : bool) (scaled : N) (w : nat) :
  dec_scaled (Z.of_nat w) (mkDec neg scaled (- Z.of_nat w)) = scaled.
Proof.
  unfold dec_scaled. cbn [dec_exp dec_mant].
  replace (- Z.of_nat w + Z.of_nat w)%Z with 0%Z by lia.
  cbn. apply N.mul_1_r.
Qed.

(** Under the reference library the text of every decimal Number reads back
    to a number with the same text. *)
Lemma dec_reread_stable (d : Dec) (prec : Z) :
  reread_stable dec_stold dec_fixed dec_to_string
    (Number_ToString dec_fixed dec_to_string (TYPE_DECIMAL d prec)).
Proof.
  assert (G : forall w, (0 < w)%nat ->
            reread_stable dec_stold dec_fixed dec_to_string
              (fixed_text (dec_neg d) (dec_scaled (Z.of_nat w) d) w)).
  { intros w Hw.
    destruct (fixed_text_reread (dec_neg d) (dec_scaled (Z.of_nat w) d) w)
      as (V & D & P & R).
    split; [exact V|]. split; [exact D|]. eexists. split; [exact R|].
    rewrite P. cbn [Number_ToString].
    destruct (Z.ltb_spec 0 (Z.of_nat w)) as [_|]; [|lia].
    unfold dec_fixed. cbn [dec_neg]. now rewrite dec_scaled_own, Nat2Z.id. }
  cbn [Number_ToString]. destruct (Z.ltb_spec 0 prec) as [Hp|Hp].
  - unfold dec_fixed. rewrite <- (Z2Nat.id prec) at 1 by lia. apply G. lia.
  - apply (G 6%nat). lia.
Qed.

(** ** The round trip (C1) *)


(** ** Concrete inputs *)

(** C7 as stated fails on the buffer [1:2,]: the colon at position 1 is a
    structural character, and the bare value that begins at position 0 runs
    over it, to the comma at position 3. *)
Lemma C7_colon_does_not_end_a_bare_value :
  get 1 "1:2," = Some ":"%char
  /\ is_delimiter ":"%char = true
  /\ FindClosingCharacter "1:2," 0 = Some 3%nat
  /\ Lex "1:2," = Ret ["1:2"; ","].
Proof. repeat split. Qed.

Lemma C7_bare_value_scan_witness :
  Lex_from "12," 0 [] = Lex_from "12," 2 ["12"].
Proof.
  refine (proj2 (proj1 (proj2 (C7_bare_value_scan "12," 0 "1"%char []
            eq_refl eq_refl eq_refl _)) 2%nat _)).
  - discriminate.
  - split; [lia|]. split.
    + exists ","%char. split; reflexivity.
    + intros i x Hi Gi.
      assert (i = 0 \/ i = 1)%nat as [->| ->] by lia;
        simpl in Gi; injection Gi as <-; reflexivity.
Defined.

Lemma C3_integer_tokens_witness :
  ParseNumberElement dec_stold ["+-e"] "a" = Throw E_PARSE_ERR_INVALID_NUMBER
  /\ ParseNumberElement dec_stold ["-42e1"; "}"] "a"
     = Ret (["-42e1"; "}"], NumberElement "a" (TYPE_INTEGER (-42)))
  /\ ParseNumberElement dec_stold ["-9223372036854775809"; "}"] "a"
     = ThrowStd std_out_of_range.
Proof.
  split; [|split].
  - exact (proj1 (proj1 (C3_integer_tokens Dec dec_stold dec_fixed dec_to_string)
                    "+-e" [] "a" eq_refl eq_refl) eq_refl).
  - refine (proj1 (proj2 (proj1 (C3_integer_tokens Dec dec_stold dec_fixed dec_to_string)
                            "-42e1" ["}"] "a" eq_refl eq_refl)) eq_refl _).
    split; discriminate.
  - refine (proj2 (proj2 (proj1 (C3_integer_tokens Dec dec_stold dec_fixed dec_to_string)
                            "-9223372036854775809" ["}"] "a" eq_refl eq_refl)) eq_refl _).
    intros [R _]. now apply R.
Defined.

(** C4 as stated fails on the token 1.5e3: three characters follow its
    point, two of them digits, and the precision recorded is 3; the Number
    serializes with three digits after the point. *)
Lemma C4_exponent_characters_are_counted :
  digits_after_last_dot "1.5e3" = 2%nat
  /\ ParseNumberElement dec_stold ["1.5e3"] "a"
     = Ret (["1.5e3"], NumberElement "a" (TYPE_DECIMAL (mkDec false 15 2) 3))
  /\ ToString dec_fixed dec_to_string
       (NumberElement "a" (TYPE_DECIMAL (mkDec false 15 2) 3))
     = json_text "'a':1500.000".
Proof. repeat split. Qed.

(** The scenario of C4: the member a : 3.1400 parses with precision 4, the
    count of the digits after the point, and serializes back to its text. *)
Lemma C4_decimal_precision_witness :
  ParseNumberElement dec_stold ["3.1400"; "}"] "a"
  = Ret (["3.1400"; "}"], NumberElement "a" (TYPE_DECIMAL (mkDec false 31400 (-4)) 4))
  /\ digits_after_last_dot "3.1400" = 4%nat
  /\ ToString dec_fixed dec_to_string
       (NumberElement "a" (TYPE_DECIMAL (mkDec false 31400 (-4)) 4))
     = json_text "'a':3.1400"
  /\ JSON_try dec_stold (json_text "{'a':3.1400}")
     = Ret (ObjectElement ""
              [NumberElement "a" (TYPE_DECIMAL (mkDec false 31400 (-4)) 4)]).
Proof.
  pose proof (proj1 (C4_decimal_precision Dec dec_stold dec_fixed dec_to_string)
                "3.1400" ["}"] "a" (mkDec false 31400 (-4)) eq_refl eq_refl)
    as (P & _ & D & S).
  split; [exact P|]. split; [symmetry; exact (D eq_refl)|].
  split; [exact (S 4%Z eq_refl)|].
  exact (proj1 (proj2 (C4_decimal_precision Dec dec_stold dec_fixed dec_to_string)
                  (mkDec false 31400 (-4)) eq_refl eq_refl)).
Defined.

Lemma C5_document_failures_witness :
  (exists j, JSON_new dec_stold "[1,2,3]" true = Ret j
             /\ pErr_slot j = Some E_INVALID_JSON /\ GetRootObject j = None)
  /\ JSON_new dec_stold "[1,2,3]" false = Throw E_INVALID_JSON.
Proof.
  apply (proj1 (proj2 (C5_document_failures Dec dec_stold))).
  refine (proj1 (C5_document_failures Dec dec_stold) "[1,2,3]"
            ["["; "1"; ","; "2"; ","; "3"; "]"] ["]"]
            (Some (ArrayElement "" [NumberElement "" (TYPE_INTEGER 1);
                                    NumberElement "" (TYPE_INTEGER 2);
                                    NumberElement "" (TYPE_INTEGER 3)]))
            eq_refl eq_refl _).
  intros root E. injection E as <-. reflexivity.
Defined.

Lemma C6_object_ends_at_its_brace_witness :
  ParseObjectElement (Parse dec_stold true 2) ["{"; json_text "'a'"] ""
  <> Ret ([], ObjectElement "" []).
Proof.
  apply (proj1 (proj2 (C6_object_ends_at_its_brace Dec dec_stold true 2
                         ["{"; json_text "'a'"] ""))).
  intros tok [<-|[<-|[]]]; discriminate.
Defined.

Lemma C8_key_invariant_witness :
  ((m_Key (BoolElement (LD := Dec) "d" true) <> "" <-> InObject = InObject)
   /\ (InObject = AtRoot \/ InObject = InArray -> m_Key (BoolElement (LD := Dec) "d" true) = ""))
  /\ ((m_Key (NumberElement (LD := Dec) "" (TYPE_INTEGER 2)) <> "" <-> InArray = InObject)
      /\ (InArray = AtRoot \/ InArray = InArray
          -> m_Key (NumberElement (LD := Dec) "" (TYPE_INTEGER 2)) = "")).
Proof.
  pose proof (C8_key_invariant Dec dec_stold
                (json_text "{'a':1,'b':[1,2,3],'c':{'d':true,'e':null},'f':'hello'}")
                (ObjectElement ""
                   [NumberElement "a" (TYPE_INTEGER 1);
                    ArrayElement "b" [NumberElement "" (TYPE_INTEGER 1);
                                      NumberElement "" (TYPE_INTEGER 2);
                                      NumberElement "" (TYPE_INTEGER 3)];
                    ObjectElement "c" [BoolElement "d" true; NullElement "e"];
                    StringElement "f" "hello"])
                eq_refl) as H.
  split; apply H; simpl; tauto.
Defined.

Lemma C10_short_quoted_tokens_witness :
  ParseStringElement (LD := Dec) [json_text "''"] "a" = Throw E_PARSE_ERR_INVALID_STRING
  /\ ParseKey [json_text "''"; ":"; "1"] = Throw E_INVALID_JSON_KEY_STRING.
Proof.
  destruct (C10_short_quoted_tokens Dec dec_stold (json_text "''") [] "a" (le_n 2))
    as (S & _ & _).
  destruct (C10_short_quoted_tokens Dec dec_stold (json_text "''") [":"; "1"] "a" (le_n 2))
    as (_ & K & _).
  split; assumption.
Defined.


(** ** Concrete inputs of the further properties *)

Lemma X1_quoted_token_scan_witness :
  Lex_from (json_text "'a\'',") 0 [] = Lex_from (json_text "'a\'',") 5 [json_text "'a\''"]
  /\ string_token (json_text "'a\''").
Proof.
  assert (C : closing_quote (json_text "'a\'',") (0 + 1) 4)
    by (apply FindClosingQuotationMark_Some; reflexivity).
  destruct (proj1 (X1_quoted_token_scan (json_text "'a\'',") 0 [] eq_refl) 4%nat C)
    as (_ & L & T).
  split; [exact L|exact T].
Defined.

Lemma X3_token_shapes_witness :
  Forall token_shape ["{"; json_text "'a'"; ":"; "["; "1"; ","; "true"; "]"; "}"]
  /\ Forall (fun tok => tok <> "")
       ["{"; json_text "'a'"; ":"; "["; "1"; ","; "true"; "]"; "}"].
Proof. exact (X3_token_shapes (json_text "{'a':[1,true]}") _ eq_refl). Defined.

Lemma X4_tokens_and_gaps_make_up_the_buffer_witness :
  exists gaps last,
    List.length gaps = List.length ["{"; json_text "'a'"; ":"; "1"; "}"]
    /\ Forall (fun s => blank s = true) gaps /\ blank last = true
    /\ json_text " {'a' : 1 }  "
       = weave gaps ["{"; json_text "'a'"; ":"; "1"; "}"] ++ last.
Proof.
  exact (X4_tokens_and_gaps_make_up_the_buffer (json_text " {'a' : 1 }  ") _ eq_refl).
Defined.

Lemma X5_lexing_composes_witness :
  Lex (json_text "{'a':" ++ "1}")
  = (t <- Lex "1}" ;; Ret (["{"; json_text "'a'"; ":"] ++ t)%list).
Proof. exact (proj1 (X5_lexing_composes (json_text "{'a':") "1}" _ eq_refl)). Defined.

Lemma X6_white_space_around_a_document_witness :
  JSON_try dec_stold "   " = Throw E_INVALID_JSON
  /\ JSON_try dec_stold ("   " ++ "{}") = JSON_try dec_stold "{}".
Proof.
  destruct (X6_white_space_around_a_document Dec dec_stold "   " eq_refl) as (A & B & _).
  split; [exact A|exact (B "{}")].
Defined.

Lemma X7_text_after_the_root_is_ignored_witness :
  JSON_try dec_stold (json_text "{'a':1}" ++ "]]x,") =
  Ret (ObjectElement "" [NumberElement "a" (TYPE_INTEGER 1)]).
Proof.
  exact (X7_text_after_the_root_is_ignored Dec dec_stold (json_text "{'a':1}") _ eq_refl
           "]]x," _ eq_refl).
Defined.

Lemma X8_Parse_returns_at_the_last_token_witness :
  exists inner rest,
    ["1"; ","; "[" ; "]"; "]"; "x"] = (inner ++ "]" :: rest)%list
    /\ ["]"; "x"] = "]" :: rest /\ balanced inner.
Proof.
  destruct (X8_Parse_returns_at_the_last_token Dec dec_stold true 3
              ["["; "1"; ","; "["; "]"; "]"; "x"] "k" ["]"; "x"] _ eq_refl)
    as (e & _ & _ & [(E & _)|[(_ & _ & R)|(_ & N & _)]]).
  - discriminate E.
  - exact R.
  - now destruct N.
Defined.

Lemma X9_array_ends_at_its_bracket_witness :
  ParseArrayElement Dec (Parse dec_stold true 2) ["1"; "]"] ""
  = Throw E_PARSE_ERR_ARRAY_OPENING_BRACKET.
Proof.
  apply (proj1 (X9_array_ends_at_its_bracket Dec dec_stold true 2 ["1"; "]"] "")
           "1" ["]"] eq_refl).
  discriminate.
Defined.

Lemma X10_strict_literal_case_witness :
  Parse dec_stold false 1 ["True"; "}"] "a" = Throw E_PARSE_ERROR_INVALID_LITERAL_CASE
  /\ exists e, Parse dec_stold true 1 ["True"; "}"] "a" = Ret (["True"; "}"], Some e).
Proof.
  destruct (X10_strict_literal_case Dec dec_stold "True" ["}"] "a" 0 eq_refl)
    as (A & B & _); try discriminate.
  split; [exact A|exact B].
Defined.

Lemma X12_slot_tells_success_witness :
  (pErr_slot (mkJSON Dec None (Some E_INVALID_JSON)) = Some E_NO_ERROR
   <-> exists root, GetRootObject (mkJSON Dec None (Some E_INVALID_JSON)) = Some root)
  /\ (pErr_slot (mkJSON Dec (Some (ObjectElement "" [])) (Some E_NO_ERROR))
      = Some E_NO_ERROR
      <-> exists root,
            GetRootObject (mkJSON Dec (Some (ObjectElement "" [])) (Some E_NO_ERROR))
            = Some root).
Proof.
  split.
  - exact (proj1 (proj1 (X12_slot_tells_success Dec dec_stold "[1]" true _ eq_refl) eq_refl)).
  - exact (proj1 (proj1 (X12_slot_tells_success Dec dec_stold "{}" true _ eq_refl) eq_refl)).
Defined.

Lemma X13_quoted_token_round_trip_witness :
  ParseStringElement (LD := Dec) [json_text "'a\'b'"; "}"] "k"
  = Ret ([json_text "'a\'b'"; "}"], StringElement "k" (json_text "a\'b"))
  /\ ToString dec_fixed dec_to_string (StringElement "" (json_text "a\'b"))
     = json_text "'a\'b'"
  /\ ParseKey [json_text "'a\'b'"; ":"; "}"] = Ret (["}"], json_text "a\'b")
  /\ FormatKey (json_text "a\'b") = json_text "'a\'b'" ++ ":".
Proof.
  exact (X13_quoted_token_round_trip Dec dec_fixed dec_to_string
           (json_text "'a\'b'") ["}"] "k" eq_refl).
Defined.

Lemma X14_integer_round_trip_witness :
  JSON_try dec_stold (json_text "{'n':" ++ to_string_ll LLONG_MIN ++ "}")
  = Ret (ObjectElement "" [NumberElement "n" (TYPE_INTEGER LLONG_MIN)])
  /\ ToString dec_fixed dec_to_string
       (ObjectElement "" [NumberElement "n" (TYPE_INTEGER LLONG_MIN)])
     = json_text "{'n':-9223372036854775808}".
Proof.
  destruct (X14_integer_round_trip Dec dec_stold dec_fixed dec_to_string LLONG_MIN)
    as (_ & _ & _ & _ & A & B); [split; discriminate|].
  split; [exact A|exact B].
Defined.

Lemma X15_values_of_a_parsed_tree_witness :
  (InObject = InObject -> escaped_quotes "s")
  /\ json_text "x\'y" <> "" /\ escaped_quotes (json_text "x\'y").
Proof.
  apply (X15_values_of_a_parsed_tree Dec dec_stold (json_text "{'s':'x\'y','n':5}")
           (ObjectElement "" [StringElement "s" (json_text "x\'y");
                              NumberElement "n" (TYPE_INTEGER 5)])
           eq_refl InObject (StringElement "s" (json_text "x\'y"))).
  right. left. reflexivity.
Defined.

Lemma X18_a_buffer_cannot_end_in_a_bare_value_witness :
  Lex "42" <> Ret ["42"].
Proof.
  intros H.
  destruct (X18_a_buffer_cannot_end_in_a_bare_value "42" _ H) as [E|(c & G & K)];
    [discriminate E|].
  injection G as <-. destruct K as [K|[K|K]]; discriminate K.
Defined.

Lemma X19_strict_parsing_only_refuses_witness :
  Parse dec_stold true 3 ["{"; json_text "'a'"; ":"; "true"; "}"] ""
  = Ret (["}"], Some (ObjectElement "" [BoolElement "a" true])).
Proof.
  exact (X19_strict_parsing_only_refuses Dec dec_stold 3
           ["{"; json_text "'a'"; ":"; "true"; "}"] "" _ eq_refl).
Defined.

Lemma X20_precision_zero_uses_to_string_witness :
  ParseNumberElement dec_stold ["1."; "}"] "a"
  = Ret (["1."; "}"], NumberElement "a" (TYPE_DECIMAL (mkDec false 1 0) 0))
  /\ ToString dec_fixed dec_to_string (NumberElement "a" (TYPE_DECIMAL (mkDec false 1 0) 0))
     = json_text "'a':1.000000".
Proof.
  destruct (X20_precision_zero_uses_to_string Dec dec_stold dec_fixed dec_to_string
              "1" ["}"] "a" (mkDec false 1 0) eq_refl) as (A & B).
  split; [exact A|]. exact (B 0%Z (Z.le_refl 0)).
Defined.
